(* A shallow embedding of ddsketch.h (sketches-cpp) in Rocq.

   Doubles are modelled by real numbers: RealValue arithmetic is exact,
   without rounding or overflow.  The IEEE special results that the code
   produces on purpose (std::nan in get_quantile_value, 0/0 in avg) are
   modelled by the extended type [double] below.  Index (int64_t) is Z. *)

From Stdlib Require Import ZArith Reals Lra Lia List.
Import ListNotations.

Open Scope R_scope.

(* ------------------------------------------------------------------ *)
(** * <cmath> and <limits> over the reals *)

(** std::floor, as an integer. *)
Definition floor (x : R) : Z := (up x - 1)%Z.

(** std::ceil, as an integer. *)
Definition ceil (x : R) : Z := (- floor (- x))%Z.

(** static_cast<Index>(x): truncation toward zero. *)
Definition trunc_to_index (x : R) : Z :=
  if Rle_dec 0 x then floor x else ceil x.

Definition log2 (x : R) : R := ln x / ln 2.
Definition exp2 (x : R) : R := Rpower 2 x.
Definition log1p (x : R) : R := ln (1 + x).

(** std::ldexp(m, e) = m * 2^e. *)
Definition ldexp (m : R) (e : Z) : R := m * powerRZ 2 e.

(** std::frexp(x, &e): x = m * 2^e with |m| in [0.5, 1), and (0, 0) at 0. *)
Definition frexp (x : R) : R * Z :=
  if Req_dec_T x 0 then (0, 0%Z)
  else let e := (floor (log2 (Rabs x)) + 1)%Z in (x / powerRZ 2 e, e).

(** std::cbrt: the real cube root. *)
Definition cbrt (x : R) : R :=
  if Rlt_dec 0 x then Rpower x (1 / 3)
  else if Rlt_dec x 0 then - Rpower (- x) (1 / 3) else 0.

(** std::numeric_limits<double>::min() and ::max(). *)
Definition dbl_min : R := powerRZ 2 (-1022).
Definition dbl_max : R := (2 - powerRZ 2 (-52)) * powerRZ 2 1023.

(* ------------------------------------------------------------------ *)
(** * Exceptions *)

Inductive error :=
| IllegalArgumentException          (* bad relative accuracy, weight <= 0 *)
| UnequalSketchParametersException  (* merge of sketches with different gamma *)
| InvalidArgument.                  (* BinList::collapsed_count out of bounds *)

Inductive res (A : Type) :=
| Ok (a : A)
| Err (e : error).
Arguments Ok {A} a.
Arguments Err {A} e.

Definition bind {A B} (x : res A) (f : A -> res B) : res B :=
  match x with Ok a => f a | Err e => Err e end.

Notation "x <- c ;; k" := (bind c (fun x => k))
  (at level 61, c at next level, right associativity).

(* ------------------------------------------------------------------ *)
(** * KeyMapping and its three variants *)

Inductive mapping_kind :=
| LogarithmicMapping
| LinearlyInterpolatedMapping
| CubicallyInterpolatedMapping.

Record KeyMapping := {
  kind : mapping_kind;
  relative_accuracy : R;
  offset : R;
  gamma : R;
  min_possible : R;
  max_possible : R;
  multiplier : R
}.

Definition A_ : R := 6 / 35.
Definition B_ : R := -3 / 5.
Definition C_ : R := 10 / 7.

(** The constructors: KeyMapping's, then the variant's adjustment of
    multiplier_ (times log(2) for the logarithmic one, divided by C for the
    cubic one). *)
Definition make_mapping (k : mapping_kind) (relative_accuracy offset : R)
  : res KeyMapping :=
  if Rle_dec relative_accuracy 0 then Err IllegalArgumentException
  else if Rle_dec 1 relative_accuracy then Err IllegalArgumentException
  else
    let gamma_mantissa := 2 * relative_accuracy / (1 - relative_accuracy) in
    let gamma := 1 + gamma_mantissa in
    let m := 1 / log1p gamma_mantissa in
    Ok {| kind := k;
          relative_accuracy := relative_accuracy;
          offset := offset;
          gamma := gamma;
          min_possible := dbl_min * gamma;
          max_possible := dbl_max / gamma;
          multiplier :=
            match k with
            | LogarithmicMapping => m * ln 2
            | LinearlyInterpolatedMapping => m
            | CubicallyInterpolatedMapping => m / C_
            end |}.

Definition log2_approx (value : R) : R :=
  let (mantissa, exponent) := frexp value in
  let significand := 2 * mantissa - 1 in
  significand + (IZR exponent - 1).

Definition exp2_approx (value : R) : R :=
  let exponent := (floor value + 1)%Z in
  let mantissa := (value - IZR exponent + 2) / 2 in
  ldexp mantissa exponent.

Definition cubic_log2_approx (value : R) : R :=
  let (mantissa, exponent) := frexp value in
  let significand := 2 * mantissa - 1 in
  ((A_ * significand + B_) * significand + C_) * significand
  + (IZR exponent - 1).

Definition cubic_exp2_approx (value : R) : R :=
  let exponent := floor value in
  let delta_0 := B_ * B_ - 3 * A_ * C_ in
  let delta_1 := 2 * B_ * B_ * B_ - 9 * A_ * B_ * C_
                 - 27 * A_ * A_ * (value - IZR exponent) in
  let cardano := cbrt ((delta_1 - sqrt (delta_1 * delta_1
                          - 4 * delta_0 * delta_0 * delta_0)) / 2) in
  let significand_plus_one := - (B_ + cardano + delta_0 / cardano) / (3 * A_) + 1 in
  let mantissa := significand_plus_one / 2 in
  ldexp mantissa (exponent + 1).

(** The significand that cubic_exp2_approx computes (Cardano's formula). *)
Definition cubic_significand (f : R) : R :=
  let delta_0 := B_ * B_ - 3 * A_ * C_ in
  let delta_1 := 2 * B_ * B_ * B_ - 9 * A_ * B_ * C_ - 27 * A_ * A_ * f in
  let cardano := cbrt ((delta_1 - sqrt (delta_1 * delta_1
                          - 4 * delta_0 * delta_0 * delta_0)) / 2) in
  - (B_ + cardano + delta_0 / cardano) / (3 * A_).

Definition log_gamma (m : KeyMapping) (value : R) : R :=
  match kind m with
  | LogarithmicMapping => log2 value * multiplier m
  | LinearlyInterpolatedMapping => log2_approx value * multiplier m
  | CubicallyInterpolatedMapping => cubic_log2_approx value * multiplier m
  end.

Definition pow_gamma (m : KeyMapping) (value : R) : R :=
  match kind m with
  | LogarithmicMapping => exp2 (value / multiplier m)
  | LinearlyInterpolatedMapping => exp2_approx (value / multiplier m)
  | CubicallyInterpolatedMapping => cubic_exp2_approx (value / multiplier m)
  end.

(** KeyMapping::key *)
Definition key (m : KeyMapping) (value : R) : Z :=
  trunc_to_index (IZR (ceil (log_gamma m value)) + offset m).

(** KeyMapping::value *)
Definition value (m : KeyMapping) (k : Z) : R :=
  pow_gamma m (IZR k - offset m) * (2 / (1 + gamma m)).

(* ------------------------------------------------------------------ *)
(** * BinList<RealValue> over list R *)

Module BinList.

(** operator[] (read); an index out of range is undefined in the source. *)
Definition get (l : list R) (i : Z) : R :=
  if (0 <=? i)%Z then nth (Z.to_nat i) l 0 else 0.

Fixpoint upd_nat (l : list R) (n : nat) (f : R -> R) : list R :=
  match l, n with
  | [], _ => []
  | x :: xs, O => f x :: xs
  | x :: xs, S n' => x :: upd_nat xs n' f
  end.

(** operator[] (write): l[i] = f(l[i]). *)
Definition upd (l : list R) (i : Z) (f : R -> R) : list R :=
  if (0 <=? i)%Z then upd_nat l (Z.to_nat i) f else l.

(** l[i] += w *)
Definition add_at (l : list R) (i : Z) (w : R) : list R := upd l i (fun x => x + w).

Definition size (l : list R) : Z := Z.of_nat (length l).

Definition zeros (n : Z) : list R := repeat 0 (Z.to_nat n).

Definition initialize_with_zeros (n : Z) : list R := zeros n.

Definition extend_front_with_zeros (l : list R) (n : Z) : list R := zeros n ++ l.

Definition extend_back_with_zeros (l : list R) (n : Z) : list R := l ++ zeros n.

Definition remove_trailing_elements (l : list R) (n : Z) : list R :=
  firstn (Z.to_nat (size l - n)) l.

Definition remove_leading_elements (l : list R) (n : Z) : list R :=
  skipn (Z.to_nat n) l.

Definition replace_range_with_zeros (l : list R) (start_idx end_idx num_zeros : Z)
  : list R :=
  firstn (Z.to_nat start_idx) l ++ zeros num_zeros ++ skipn (Z.to_nat end_idx) l.

(** std::accumulate from the left *)
Definition accumulate (l : list R) : R := fold_left Rplus l 0.

(** index_outside_bounds takes a size_t: a negative int wraps to a huge value. *)
Definition index_outside_bounds (l : list R) (idx : Z) : bool :=
  orb (idx <? 0)%Z (size l <? idx)%Z.

Definition collapsed_count (l : list R) (start_idx end_idx : Z) : res R :=
  if orb (index_outside_bounds l start_idx) (index_outside_bounds l end_idx)
  then Err InvalidArgument
  else Ok (accumulate (firstn (Z.to_nat (end_idx - start_idx))
                              (skipn (Z.to_nat start_idx) l))).

Definition sum (l : list R) : R := accumulate l.

End BinList.

(* ------------------------------------------------------------------ *)
(** * The dense stores *)

Inductive store_kind :=
| DenseStore
| CollapsingLowestDenseStore
| CollapsingHighestDenseStore.

Record Store := {
  store_type : store_kind;
  count_ : R;
  min_key_ : Z;
  max_key_ : Z;
  chunk_size_ : Z;
  offset_ : Z;
  bins_ : list R;
  bin_limit_ : Z;       (* collapsing stores only *)
  is_collapsed_ : bool  (* collapsing stores only *)
}.

Definition kChunkSize : Z := 128.
Definition int64_max : Z := (2 ^ 63 - 1)%Z.
Definition int64_min : Z := (- 2 ^ 63)%Z.

Definition mk_store (t : store_kind) (chunk_size bin_limit : Z) : Store :=
  {| store_type := t; count_ := 0; min_key_ := int64_max; max_key_ := int64_min;
     chunk_size_ := chunk_size; offset_ := 0; bins_ := [];
     bin_limit_ := bin_limit; is_collapsed_ := false |}.

Definition new_DenseStore (chunk_size : Z) : Store :=
  mk_store DenseStore chunk_size 0.
Definition new_CollapsingLowestDenseStore (bin_limit chunk_size : Z) : Store :=
  mk_store CollapsingLowestDenseStore chunk_size bin_limit.
Definition new_CollapsingHighestDenseStore (bin_limit chunk_size : Z) : Store :=
  mk_store CollapsingHighestDenseStore chunk_size bin_limit.

Definition set_bins (s : Store) (b : list R) : Store :=
  {| store_type := store_type s; count_ := count_ s; min_key_ := min_key_ s;
     max_key_ := max_key_ s; chunk_size_ := chunk_size_ s; offset_ := offset_ s;
     bins_ := b; bin_limit_ := bin_limit_ s; is_collapsed_ := is_collapsed_ s |}.
Definition set_keys (s : Store) (mn mx : Z) : Store :=
  {| store_type := store_type s; count_ := count_ s; min_key_ := mn;
     max_key_ := mx; chunk_size_ := chunk_size_ s; offset_ := offset_ s;
     bins_ := bins_ s; bin_limit_ := bin_limit_ s; is_collapsed_ := is_collapsed_ s |}.
Definition set_offset (s : Store) (o : Z) : Store :=
  {| store_type := store_type s; count_ := count_ s; min_key_ := min_key_ s;
     max_key_ := max_key_ s; chunk_size_ := chunk_size_ s; offset_ := o;
     bins_ := bins_ s; bin_limit_ := bin_limit_ s; is_collapsed_ := is_collapsed_ s |}.
Definition set_count (s : Store) (c : R) : Store :=
  {| store_type := store_type s; count_ := c; min_key_ := min_key_ s;
     max_key_ := max_key_ s; chunk_size_ := chunk_size_ s; offset_ := offset_ s;
     bins_ := bins_ s; bin_limit_ := bin_limit_ s; is_collapsed_ := is_collapsed_ s |}.
Definition set_collapsed (s : Store) : Store :=
  {| store_type := store_type s; count_ := count_ s; min_key_ := min_key_ s;
     max_key_ := max_key_ s; chunk_size_ := chunk_size_ s; offset_ := offset_ s;
     bins_ := bins_ s; bin_limit_ := bin_limit_ s; is_collapsed_ := true |}.

Definition length (s : Store) : Z := BinList.size (bins_ s).

Definition is_empty (s : Store) : bool := (length s =? 0)%Z.

(** BaseDenseStore::copy and the collapsing stores' copy (which also take
    bin_limit_ and is_collapsed_); chunk_size_ is never copied. *)
Definition store_copy (self other : Store) : Store :=
  match store_type self with
  | DenseStore =>
      {| store_type := store_type self; count_ := count_ other;
         min_key_ := min_key_ other; max_key_ := max_key_ other;
         chunk_size_ := chunk_size_ self; offset_ := offset_ other;
         bins_ := bins_ other; bin_limit_ := bin_limit_ self;
         is_collapsed_ := is_collapsed_ self |}
  | _ =>
      {| store_type := store_type self; count_ := count_ other;
         min_key_ := min_key_ other; max_key_ := max_key_ other;
         chunk_size_ := chunk_size_ self; offset_ := offset_ other;
         bins_ := bins_ other; bin_limit_ := bin_limit_ other;
         is_collapsed_ := is_collapsed_ other |}
  end.

(** get_new_length.  num_chunks is std::ceil(1.0 * desired / chunk_size_),
    written as the ceiling division of the two (positive) integers.  Index
    arithmetic here and in extend_range, adjust, center_bins, shift_bins and
    get_index is computed in Z: it agrees with the int64 code only while no
    intermediate value leaves the int64 range.  The span
    new_max_key - new_min_key + 1 overflows (undefined behaviour) for keys as
    far apart as 0 and INT64_MAX; the theorem on the collapsing store below
    bounds the keys so that this cannot happen. *)
Definition get_new_length (s : Store) (new_min_key new_max_key : Z) : Z :=
  let desired_length := (new_max_key - new_min_key + 1)%Z in
  let num_chunks := ((desired_length + chunk_size_ s - 1) / chunk_size_ s)%Z in
  match store_type s with
  | DenseStore => (chunk_size_ s * num_chunks)%Z
  | _ => Z.min (chunk_size_ s * num_chunks) (bin_limit_ s)
  end.

Definition shift_bins (s : Store) (shift : Z) : Store :=
  let b := bins_ s in
  let b' :=
    if (shift >? 0)%Z then
      BinList.extend_front_with_zeros (BinList.remove_trailing_elements b shift) shift
    else
      let abs_shift := Z.abs shift in
      BinList.extend_back_with_zeros (BinList.remove_leading_elements b abs_shift) abs_shift
  in set_offset (set_bins s b') (offset_ s - shift)%Z.

Definition center_bins (s : Store) (new_min_key new_max_key : Z) : Store :=
  let middle_key := (new_min_key + Z.quot (new_max_key - new_min_key + 1) 2)%Z in
  shift_bins s (offset_ s + Z.quot (length s) 2 - middle_key)%Z.

(** adjust: the dense store centres; the collapsing stores first collapse
    the lowest (resp. highest) bins when the range is wider than length(). *)
Definition adjust (s : Store) (new_min_key new_max_key : Z) : res Store :=
  match store_type s with
  | DenseStore =>
      Ok (set_keys (center_bins s new_min_key new_max_key) new_min_key new_max_key)
  | CollapsingLowestDenseStore =>
      if (new_max_key - new_min_key + 1 >? length s)%Z then
        let new_min_key := (new_max_key - length s + 1)%Z in
        if (new_min_key >=? max_key_ s)%Z then
          (* Put everything in the first bin *)
          let b := BinList.upd (BinList.initialize_with_zeros (length s)) 0
                               (fun _ => count_ s) in
          Ok (set_collapsed
                (set_keys (set_bins (set_offset s new_min_key) b)
                          new_min_key new_max_key))
        else
          let shift := (offset_ s - new_min_key)%Z in
          if (shift <? 0)%Z then
            let collapse_start_index := (min_key_ s - offset_ s)%Z in
            let collapse_end_index := (new_min_key - offset_ s)%Z in
            c <- BinList.collapsed_count (bins_ s) collapse_start_index
                                         collapse_end_index ;;
            let b := BinList.replace_range_with_zeros (bins_ s)
                       collapse_start_index collapse_end_index
                       (new_min_key - min_key_ s) in
            let b := BinList.add_at b collapse_end_index c in
            let s := set_keys (set_bins s b) new_min_key (max_key_ s) in
            let s := shift_bins s shift in
            Ok (set_collapsed (set_keys s (min_key_ s) new_max_key))
          else
            let s := set_keys s new_min_key (max_key_ s) in
            let s := shift_bins s shift in
            Ok (set_collapsed (set_keys s (min_key_ s) new_max_key))
      else
        Ok (set_keys (center_bins s new_min_key new_max_key) new_min_key new_max_key)
  | CollapsingHighestDenseStore =>
      if (new_max_key - new_min_key + 1 >? length s)%Z then
        let new_max_key := (new_min_key + length s - 1)%Z in
        if (new_max_key <=? min_key_ s)%Z then
          (* Put everything in the last bin *)
          let b := BinList.upd (BinList.zeros (length s)) (length s - 1)
                               (fun _ => count_ s) in
          Ok (set_collapsed
                (set_keys (set_bins (set_offset s new_min_key) b)
                          new_min_key new_max_key))
        else
          let shift := (offset_ s - new_min_key)%Z in
          if (shift >? 0)%Z then
            let collapse_start_index := (new_max_key - offset_ s + 1)%Z in
            let collapse_end_index := (max_key_ s - offset_ s + 1)%Z in
            c <- BinList.collapsed_count (bins_ s) collapse_start_index
                                         collapse_end_index ;;
            let b := BinList.replace_range_with_zeros (bins_ s)
                       collapse_start_index collapse_end_index
                       (max_key_ s - new_max_key) in
            let b := BinList.add_at b (collapse_start_index - 1) c in
            let s := set_keys (set_bins s b) (min_key_ s) new_max_key in
            let s := shift_bins s shift in
            Ok (set_collapsed (set_keys s new_min_key (max_key_ s)))
          else
            let s := set_keys s (min_key_ s) new_max_key in
            let s := shift_bins s shift in
            Ok (set_collapsed (set_keys s new_min_key (max_key_ s)))
      else
        Ok (set_keys (center_bins s new_min_key new_max_key) new_min_key new_max_key)
  end.

(** extend_range(key, second_key) *)
Definition extend_range (s : Store) (key second_key : Z) : res Store :=
  let new_min_key := Z.min key (Z.min second_key (min_key_ s)) in
  let new_max_key := Z.max key (Z.max second_key (max_key_ s)) in
  if is_empty s then
    (* Initialize bins *)
    let new_length := get_new_length s new_min_key new_max_key in
    let s := set_offset (set_bins s (BinList.initialize_with_zeros new_length))
                        new_min_key in
    adjust s new_min_key new_max_key
  else if andb (new_min_key >=? min_key_ s)%Z
               (new_max_key <? offset_ s + length s)%Z then
    (* No need to change the range; just update min/max keys *)
    Ok (set_keys s new_min_key new_max_key)
  else
    (* Grow the bins *)
    let new_length := get_new_length s new_min_key new_max_key in
    let s := if (new_length >? length s)%Z
             then set_bins s (BinList.extend_back_with_zeros (bins_ s)
                                                             (new_length - length s))
             else s in
    adjust s new_min_key new_max_key.

(** get_index: the store after a possible extension, and the bin index. *)
Definition get_index (s : Store) (key : Z) : res (Store * Z) :=
  match store_type s with
  | DenseStore =>
      if orb (key <? min_key_ s)%Z (key >? max_key_ s)%Z then
        s' <- extend_range s key key ;; Ok (s', (key - offset_ s')%Z)
      else Ok (s, (key - offset_ s)%Z)
  | CollapsingLowestDenseStore =>
      if (key <? min_key_ s)%Z then
        if is_collapsed_ s then Ok (s, 0%Z)
        else
          s' <- extend_range s key key ;;
          if is_collapsed_ s' then Ok (s', 0%Z) else Ok (s', (key - offset_ s')%Z)
      else if (key >? max_key_ s)%Z then
        s' <- extend_range s key key ;; Ok (s', (key - offset_ s')%Z)
      else Ok (s, (key - offset_ s)%Z)
  | CollapsingHighestDenseStore =>
      if (key >? max_key_ s)%Z then
        if is_collapsed_ s then Ok (s, (length s - 1)%Z)
        else
          s' <- extend_range s key key ;;
          if is_collapsed_ s' then Ok (s', (length s' - 1)%Z)
          else Ok (s', (key - offset_ s')%Z)
      else if (key <? min_key_ s)%Z then
        s' <- extend_range s key key ;; Ok (s', (key - offset_ s')%Z)
      else Ok (s, (key - offset_ s)%Z)
  end.

(** BaseDenseStore::add *)
Definition store_add (s : Store) (key : Z) (weight : R) : res Store :=
  p <- get_index s key ;;
  let (s', idx) := p in
  Ok (set_count (set_bins s' (BinList.add_at (bins_ s') idx weight))
                (count_ s' + weight)).

Definition Rltb (x y : R) : bool := if Rlt_dec x y then true else false.
Definition Rleb (x y : R) : bool := if Rle_dec x y then true else false.
Definition Reqb (x y : R) : bool := if Req_dec_T x y then true else false.

Fixpoint key_at_rank_loop (bins : list R) (running_ct rank : R) (lower : bool)
         (idx offset max_key : Z) : Z :=
  match bins with
  | [] => max_key
  | bin_ct :: rest =>
      let running_ct := running_ct + bin_ct in
      if orb (andb lower (Rltb rank running_ct))
             (andb (negb lower) (Rleb (rank + 1) running_ct))
      then (idx + offset)%Z
      else key_at_rank_loop rest running_ct rank lower (idx + 1) offset max_key
  end.

(** BaseDenseStore::key_at_rank *)
Definition key_at_rank (s : Store) (rank : R) (lower : bool) : Z :=
  key_at_rank_loop (bins_ s) 0 rank lower 0 (offset_ s) (max_key_ s).

(** The claim's reading of key_at_rank's test, for the comparison with it:
    the cumulative count over the bins whose key is at most k. *)
Definition cum_count (s : Store) (k : Z) : R :=
  BinList.accumulate (firstn (Z.to_nat (k - offset_ s + 1)) (bins_ s)).

(** The test of key_at_rank's loop on the running count. *)
Definition rank_test (rank : R) (lower : bool) (running_ct : R) : bool :=
  orb (andb lower (Rltb rank running_ct))
      (andb (negb lower) (Rleb (rank + 1) running_ct)).

Definition rank_reached (s : Store) (rank : R) (lower : bool) (k : Z) : Prop :=
  if lower then rank < cum_count s k else rank + 1 <= cum_count s k.

(** for (key = first; n iterations; ++key) bins_[key - offset_] += store.bins_[key - store.offset_] *)
Fixpoint merge_bins_loop (n : nat) (key : Z) (dst : list R) (dst_offset : Z)
         (src : list R) (src_offset : Z) : list R :=
  match n with
  | O => dst
  | S n' =>
      merge_bins_loop n' (key + 1)
        (BinList.add_at dst (key - dst_offset) (BinList.get src (key - src_offset)))
        dst_offset src src_offset
  end.

(** Number of iterations of [for (key = lo; key <= hi; ++key)]. *)
Definition keys_between (lo hi : Z) : nat := Z.to_nat (hi - lo + 1).

(** The shared prologue of the three merge methods: the extension of the
    receiver's range to the other store's keys. *)
Definition merge_extend (self store : Store) : res Store :=
  if orb (min_key_ store <? min_key_ self)%Z (max_key_ store >? max_key_ self)%Z
  then extend_range self (min_key_ store) (max_key_ store)
  else Ok self.

(** BaseDenseStore::merge, CollapsingLowestDenseStore::merge and
    CollapsingHighestDenseStore::merge. *)
Definition store_merge (self store : Store) : res Store :=
  if Reqb (count_ store) 0 then Ok self
  else if Reqb (count_ self) 0 then Ok (store_copy self store)
  else
  s <- merge_extend self store ;;
  match store_type self with
  | DenseStore =>
      let b := merge_bins_loop (keys_between (min_key_ store) (max_key_ store))
                 (min_key_ store) (bins_ s) (offset_ s)
                 (bins_ store) (offset_ store) in
      Ok (set_count (set_bins s b) (count_ s + count_ store))
  | CollapsingLowestDenseStore =>
      let collapse_start_idx := (min_key_ store - offset_ store)%Z in
      let collapse_end_idx :=
        (Z.min (min_key_ s) (max_key_ store + 1) - offset_ store)%Z in
      p <- (if (collapse_end_idx >? collapse_start_idx)%Z then
              cc <- BinList.collapsed_count (bins_ s)
                      collapse_start_idx collapse_end_idx ;;
              Ok (BinList.add_at (bins_ s) 0 cc, collapse_end_idx)
            else Ok (bins_ s, collapse_start_idx)) ;;
      let (b, collapse_end_idx) := p in
      let first_key := (collapse_end_idx + offset_ store)%Z in
      let b := merge_bins_loop (keys_between first_key (max_key_ store))
                 first_key b (offset_ s) (bins_ store) (offset_ store) in
      Ok (set_count (set_bins s b) (count_ s + count_ store))
  | CollapsingHighestDenseStore =>
      let collapse_end_idx := (max_key_ store - offset_ store + 1)%Z in
      let collapse_start_idx :=
        (Z.max (max_key_ s + 1) (min_key_ store) - offset_ store)%Z in
      p <- (if (collapse_end_idx >? collapse_start_idx)%Z then
              cc <- BinList.collapsed_count (bins_ s)
                      collapse_start_idx collapse_end_idx ;;
              Ok (BinList.add_at (bins_ s) (length s - 1) cc, collapse_start_idx)
            else Ok (bins_ s, collapse_end_idx)) ;;
      let (b, collapse_start_idx) := p in
      let last_key := (collapse_start_idx + offset_ store - 1)%Z in
      let b := merge_bins_loop (keys_between (min_key_ store) last_key)
                 (min_key_ store) b (offset_ s) (bins_ store) (offset_ store) in
      Ok (set_count (set_bins s b) (count_ s + count_ store))
  end.

(* ------------------------------------------------------------------ *)
(** * The sketch *)

(** A double result: a finite value or one of the IEEE special values. *)
Inductive double :=
| Finite (r : R)
| PosInf
| NegInf
| NaN.

(** IEEE division of two finite doubles (the divisor +0 when zero). *)
Definition ddiv (x y : R) : double :=
  if Req_dec_T y 0 then
    if Req_dec_T x 0 then NaN else if Rlt_dec 0 x then PosInf else NegInf
  else Finite (x / y).

Record BaseDDSketch := {
  mapping_ : KeyMapping;
  store_ : Store;
  negative_store_ : Store;
  zero_count_ : R;
  sk_count_ : R;   (* count_ *)
  min_ : R;
  max_ : R;
  sum_ : R
}.

(** The constructor BaseDDSketch(mapping, store, negative_store). *)
Definition new_sketch (mapping : KeyMapping) (store negative_store : Store)
  : BaseDDSketch :=
  {| mapping_ := mapping; store_ := store; negative_store_ := negative_store;
     zero_count_ := 0; sk_count_ := 0;
     min_ := dbl_max;   (* std::numeric_limits<RealValue>::max() *)
     max_ := dbl_min;   (* std::numeric_limits<RealValue>::min() *)
     sum_ := 0 |}.

Definition num_values (sk : BaseDDSketch) : R := sk_count_ sk.
Definition sketch_sum (sk : BaseDDSketch) : R := sum_ sk.

(** avg(): sum_ / count_ *)
Definition avg (sk : BaseDDSketch) : double := ddiv (sum_ sk) (sk_count_ sk).

(** BaseDDSketch::add *)
Definition sketch_add (sk : BaseDDSketch) (val weight : R) : res BaseDDSketch :=
  if Rle_dec weight 0 then Err IllegalArgumentException
  else
  let m := mapping_ sk in
  stores <- (if Rlt_dec (min_possible m) val then
               s <- store_add (store_ sk) (key m val) weight ;;
               Ok (s, negative_store_ sk, zero_count_ sk)
             else if Rlt_dec val (- min_possible m) then
               s <- store_add (negative_store_ sk) (key m (- val)) weight ;;
               Ok (store_ sk, s, zero_count_ sk)
             else Ok (store_ sk, negative_store_ sk, zero_count_ sk + weight)) ;;
  let '(s, ns, z) := stores in
  Ok {| mapping_ := m; store_ := s; negative_store_ := ns; zero_count_ := z;
        sk_count_ := sk_count_ sk + weight;
        sum_ := sum_ sk + val * weight;
        min_ := if Rlt_dec val (min_ sk) then val else min_ sk;
        max_ := if Rlt_dec (max_ sk) val then val else max_ sk |}.

(** BaseDDSketch::get_quantile_value *)
Definition get_quantile_value (sk : BaseDDSketch) (quantile : R) : double :=
  if orb (Rltb quantile 0) (orb (Rltb 1 quantile) (Reqb (sk_count_ sk) 0)) then NaN
  else
  let m := mapping_ sk in
  let neg := negative_store_ sk in
  let rank := quantile * (sk_count_ sk - 1) in
  if Rlt_dec rank (count_ neg) then
    let reversed_rank := count_ neg - rank - 1 in
    let k := key_at_rank neg reversed_rank false in
    Finite (- value m k)
  else if Rlt_dec rank (zero_count_ sk + count_ neg) then Finite 0
  else
    let k := key_at_rank (store_ sk) (rank - zero_count_ sk - count_ neg) true in
    Finite (value m k).

(** mergeable: the gammas are equal *)
Definition mergeable (sk other : BaseDDSketch) : bool :=
  Reqb (gamma (mapping_ sk)) (gamma (mapping_ other)).

(** BaseDDSketch::copy: the stores and the scalars; the mapping stays. *)
Definition sketch_copy (sk other : BaseDDSketch) : BaseDDSketch :=
  {| mapping_ := mapping_ sk;
     store_ := store_copy (store_ sk) (store_ other);
     negative_store_ := store_copy (negative_store_ sk) (negative_store_ other);
     zero_count_ := zero_count_ other;
     min_ := min_ other; max_ := max_ other;
     sk_count_ := sk_count_ other; sum_ := sum_ other |}.

(** BaseDDSketch::merge *)
Definition sketch_merge (sk other : BaseDDSketch) : res BaseDDSketch :=
  if negb (mergeable sk other) then Err UnequalSketchParametersException
  else if Reqb (sk_count_ other) 0 then Ok sk
  else if Reqb (sk_count_ sk) 0 then Ok (sketch_copy sk other)
  else
    s <- store_merge (store_ sk) (store_ other) ;;
    ns <- store_merge (negative_store_ sk) (negative_store_ other) ;;
    Ok {| mapping_ := mapping_ sk; store_ := s; negative_store_ := ns;
          zero_count_ := zero_count_ sk + zero_count_ other;
          sk_count_ := sk_count_ sk + sk_count_ other;
          sum_ := sum_ sk + sum_ other;
          min_ := if Rlt_dec (min_ other) (min_ sk) then min_ other else min_ sk;
          max_ := if Rlt_dec (max_ sk) (max_ other) then max_ other else max_ sk |}.

(** The merge as a step on the pair (receiver, argument): the argument is
    passed by const reference and comes back as it went in. *)
Definition merge_step (p : BaseDDSketch * BaseDDSketch)
  : res (BaseDDSketch * BaseDDSketch) :=
  let (sk, other) := p in
  sk' <- sketch_merge sk other ;; Ok (sk', other).

(* ------------------------------------------------------------------ *)
(** * Invariants and sketch constructors *)

(** The counter a store keeps for key k: bins_[k - offset_], read with
    BinList.get, which is 0 outside the list. *)
Definition bin_at (s : Store) (k : Z) : R := BinList.get (bins_ s) (k - offset_ s).

(** The invariant a DenseStore keeps: its counters sum to count_, no
    counter outside [min_key_, max_key_] is nonzero, and the list is either
    empty with the initial keys or covers [min_key_, max_key_]. *)
Definition dense_inv (s : Store) : Prop :=
  store_type s = DenseStore /\ (0 < chunk_size_ s)%Z /\
  BinList.sum (bins_ s) = count_ s /\
  (forall k, (k < min_key_ s \/ max_key_ s < k)%Z -> bin_at s k = 0) /\
  ((bins_ s = [] /\ min_key_ s = int64_max /\ max_key_ s = int64_min) \/
   (offset_ s <= min_key_ s /\ min_key_ s <= max_key_ s /\
    max_key_ s < offset_ s + length s)%Z).

(** The store-creating constructors of the sketch (ddsketch.h, DDSketch,
    LogCollapsingLowestDenseDDSketch, LogCollapsingHighestDenseDDSketch). *)
Definition kDefaultBinLimit : Z := 2048.

Definition adjust_bin_limit (bin_limit : Z) : Z :=
  if (bin_limit <=? 0)%Z then kDefaultBinLimit else bin_limit.

Definition DDSketch (relative_accuracy : R) : res BaseDDSketch :=
  m <- make_mapping LogarithmicMapping relative_accuracy 0 ;;
  Ok (new_sketch m (new_DenseStore kChunkSize) (new_DenseStore kChunkSize)).

Definition LogCollapsingLowestDenseDDSketch (relative_accuracy : R) (bin_limit : Z)
  : res BaseDDSketch :=
  m <- make_mapping LogarithmicMapping relative_accuracy 0 ;;
  Ok (new_sketch m
        (new_CollapsingLowestDenseStore (adjust_bin_limit bin_limit) kChunkSize)
        (new_CollapsingLowestDenseStore (adjust_bin_limit bin_limit) kChunkSize)).

Definition LogCollapsingHighestDenseDDSketch (relative_accuracy : R) (bin_limit : Z)
  : res BaseDDSketch :=
  m <- make_mapping LogarithmicMapping relative_accuracy 0 ;;
  Ok (new_sketch m
        (new_CollapsingHighestDenseStore (adjust_bin_limit bin_limit) kChunkSize)
        (new_CollapsingHighestDenseStore (adjust_bin_limit bin_limit) kChunkSize)).

(** The invariant a sketch with two dense stores keeps: both stores keep
    dense_inv with nonnegative counters, zero_count_ is nonnegative, and
    count_ is the sum of the two store counts and zero_count_. *)
Definition dense_sketch_inv (sk : BaseDDSketch) : Prop :=
  dense_inv (store_ sk) /\ dense_inv (negative_store_ sk) /\
  (forall k, 0 <= bin_at (store_ sk) k) /\ (forall k, 0 <= bin_at (negative_store_ sk) k) /\
  0 <= zero_count_ sk /\
  sk_count_ sk = count_ (store_ sk) + count_ (negative_store_ sk) + zero_count_ sk.

(** The invariant a CollapsingLowestDenseStore keeps: dense_inv for its own
    store type, a positive bin_limit_ the list never exceeds, and, once
    collapsed, offset_ = min_key_ and a list of exactly bin_limit_ counters. *)
Definition cl_inv (s : Store) : Prop :=
  store_type s = CollapsingLowestDenseStore /\ (0 < chunk_size_ s)%Z /\
  (0 < bin_limit_ s)%Z /\
  BinList.sum (bins_ s) = count_ s /\
  (forall k, (k < min_key_ s \/ max_key_ s < k)%Z -> bin_at s k = 0) /\
  ((bins_ s = [] /\ min_key_ s = int64_max /\ max_key_ s = int64_min) \/
   (offset_ s <= min_key_ s /\ min_key_ s <= max_key_ s /\
    max_key_ s < offset_ s + length s)%Z) /\
  (length s <= bin_limit_ s)%Z /\
  (is_collapsed_ s = true -> offset_ s = min_key_ s /\ length s = bin_limit_ s).

(* ------------------------------------------------------------------ *)
(** * Lemmas *)

Lemma floor_spec (x : R) : IZR (floor x) <= x < IZR (floor x) + 1.
Proof. unfold floor. destruct (archimed x) as [H1 H2]. rewrite minus_IZR. simpl. lra. Qed.

Lemma floor_unique (x : R) (z : Z) : IZR z <= x < IZR z + 1 -> floor x = z.
Proof.
  intros [H1 H2]. unfold floor.
  rewrite <- (tech_up x (z + 1)); [lia | rewrite plus_IZR; simpl; lra | rewrite plus_IZR; simpl; lra].
Qed.

Lemma floor_IZR (z : Z) : floor (IZR z) = z.
Proof. apply floor_unique. lra. Qed.

Lemma floor_mono (x y : R) : x <= y -> (floor x <= floor y)%Z.
Proof.
  intros H. destruct (floor_spec x), (floor_spec y).
  destruct (Z_le_gt_dec (floor x) (floor y)) as [|Hg]; [assumption|].
  assert (IZR (floor y) + 1 <= IZR (floor x)) by (rewrite <- (plus_IZR _ 1); apply IZR_le; lia).
  lra.
Qed.

Lemma ceil_spec (x : R) : IZR (ceil x) - 1 < x <= IZR (ceil x).
Proof. unfold ceil. rewrite opp_IZR. destruct (floor_spec (- x)). lra. Qed.

Lemma ceil_IZR (z : Z) : ceil (IZR z) = z.
Proof. unfold ceil. rewrite <- opp_IZR, floor_IZR. lia. Qed.

Lemma trunc_IZR (z : Z) : trunc_to_index (IZR z) = z.
Proof.
  unfold trunc_to_index. destruct (Rle_dec 0 (IZR z)).
  - apply floor_IZR.
  - apply ceil_IZR.
Qed.

Lemma rel_err_bound (g a v W : R) :
  1 < g -> a = (g - 1) / (g + 1) -> 0 < v -> v <= W <= g * v ->
  Rabs (W * (2 / (1 + g)) - v) / v <= a.
Proof.
  intros Hg Ha Hv [HW1 HW2]. subst a.
  set (k := / (1 + g)).
  assert (Hk : 0 < k) by (apply Rinv_0_lt_compat; lra).
  assert (Hk1 : k * (1 + g) = 1) by (unfold k; field; lra).
  assert (E1 : W * (2 / (1 + g)) - v = 2 * W * k - v) by (unfold k, Rdiv; ring).
  assert (E2 : (g - 1) / (g + 1) = (g - 1) * k) by (unfold k, Rdiv; rewrite (Rplus_comm g 1); ring).
  rewrite E1, E2.
  assert (Habs : Rabs (2 * W * k - v) <= v * ((g - 1) * k)).
  { apply Rabs_le. split; nra. }
  unfold Rdiv. apply (Rmult_le_reg_r v); [lra|].
  rewrite Rmult_assoc, Rinv_l by lra. lra.
Qed.

Lemma pow2_exp (z : Z) : powerRZ 2 z = exp (IZR z * ln 2).
Proof. rewrite powerRZ_Rpower by lra. reflexivity. Qed.

Lemma pow2_pos (z : Z) : 0 < powerRZ 2 z.
Proof. apply powerRZ_lt. lra. Qed.

Lemma pow2_succ (z : Z) : powerRZ 2 (z + 1) = 2 * powerRZ 2 z.
Proof. rewrite powerRZ_add by lra. simpl. ring. Qed.

Lemma ln2_pos : 0 < ln 2.
Proof. rewrite <- ln_1. apply ln_increasing; lra. Qed.

Lemma pow2_le (n m : Z) : (n <= m)%Z -> powerRZ 2 n <= powerRZ 2 m.
Proof.
  intros H. rewrite !pow2_exp.
  apply IZR_le in H. pose proof ln2_pos.
  destruct (Req_dec (IZR n) (IZR m)) as [E|E].
  - rewrite E. lra.
  - left. apply exp_increasing. nra.
Qed.

Lemma ln_pow2 (z : Z) : ln (powerRZ 2 z) = IZR z * ln 2.
Proof. rewrite pow2_exp, ln_exp. reflexivity. Qed.

Lemma frexp_bounds (v : R) : 0 < v ->
  powerRZ 2 (floor (log2 v)) <= v < powerRZ 2 (floor (log2 v) + 1).
Proof.
  intros Hv. pose proof ln2_pos as Hl.
  destruct (floor_spec (log2 v)) as [F1 F2].
  set (n := floor (log2 v)) in *. unfold log2 in F1, F2.
  assert (G1 : IZR n * ln 2 <= ln v).
  { apply (Rmult_le_compat_r (ln 2)) in F1; [|lra].
    unfold Rdiv in F1. rewrite Rmult_assoc, Rinv_l in F1 by lra. lra. }
  assert (G2 : ln v < IZR (n + 1) * ln 2).
  { apply (Rmult_lt_compat_r (ln 2)) in F2; [|lra].
    unfold Rdiv in F2. rewrite Rmult_assoc, Rinv_l in F2 by lra.
    rewrite plus_IZR. simpl. lra. }
  rewrite !pow2_exp. rewrite <- (exp_ln v) by lra. split.
  - destruct G1 as [G1|G1]; [left; apply exp_increasing; lra | rewrite G1; lra].
  - apply exp_increasing. lra.
Qed.

Lemma frexp_pos (v : R) : 0 < v ->
  frexp v = (v / powerRZ 2 (floor (log2 v) + 1), (floor (log2 v) + 1)%Z).
Proof.
  intros Hv. unfold frexp. destruct (Req_dec_T v 0); [lra|].
  rewrite Rabs_right by lra. reflexivity.
Qed.

(** The significand decomposition used by both interpolated mappings. *)
Lemma frexp_significand (v : R) : 0 < v ->
  exists n s, 0 <= s < 1 /\ v = powerRZ 2 n * (1 + s) /\
    frexp v = ((1 + s) / 2, (n + 1)%Z).
Proof.
  intros Hv. destruct (frexp_bounds v Hv) as [B1 B2].
  set (n := floor (log2 v)) in *.
  pose proof (pow2_pos n) as P. rewrite pow2_succ in B2.
  exists n, (v / powerRZ 2 n - 1). split; [|split].
  - split.
    + apply (Rmult_le_reg_r (powerRZ 2 n)); [lra|].
      unfold Rminus, Rdiv. rewrite Rmult_plus_distr_r, Rmult_assoc, Rinv_l by lra. lra.
    + apply (Rmult_lt_reg_r (powerRZ 2 n)); [lra|].
      unfold Rminus, Rdiv. rewrite Rmult_plus_distr_r, Rmult_assoc, Rinv_l by lra. lra.
  - field. lra.
  - rewrite frexp_pos by lra. fold n. f_equal. rewrite pow2_succ. field. lra.
Qed.

Section Piecewise.
Variables P S : R -> R.
Variable c : R.
Hypothesis c_pos : 0 < c.
Hypothesis P_strict : forall s t, 0 <= s -> s < t -> t <= 1 -> P s < P t.
Hypothesis P_0 : P 0 = 0.
Hypothesis P_1 : P 1 = 1.
Hypothesis S_inv : forall f, 0 <= f < 1 -> 0 <= S f < 1 /\ P (S f) = f.
Hypothesis g_mono : forall s t, 0 <= s /\ s <= t /\ t <= 1 ->
  ln (1 + t) - P t / c <= ln (1 + s) - P s / c.

Local Abbreviation frac x := (x - IZR (floor x)).
Local Abbreviation E x := (powerRZ 2 (floor x) * (1 + S (frac x))).

Lemma frac_range x : 0 <= frac x < 1.
Proof. destruct (floor_spec x). lra. Qed.

Lemma P_nonneg_lt1 s : 0 <= s < 1 -> 0 <= P s < 1.
Proof.
  intros [H1 H2]. split.
  - destruct H1 as [H1|H1]; [left; rewrite <- P_0; apply P_strict; lra | subst; lra].
  - rewrite <- P_1. apply P_strict; lra.
Qed.

Lemma S_P s : 0 <= s < 1 -> S (P s) = s.
Proof.
  intros Hs. destruct (S_inv (P s) (P_nonneg_lt1 s Hs)) as [HS HP].
  destruct (Rtotal_order (S (P s)) s) as [Hl|[He|Hg]]; [|exact He|].
  - pose proof (P_strict _ _ (proj1 HS) Hl ltac:(repeat split; lra)). lra.
  - pose proof (P_strict _ _ (proj1 Hs) Hg ltac:(repeat split; lra)). lra.
Qed.

Lemma S_mono f1 f2 : 0 <= f1 -> f1 <= f2 -> f2 < 1 -> S f1 <= S f2.
Proof.
  intros H1 H2 H3.
  destruct (S_inv f1 ltac:(lra)) as [A1 B1]. destruct (S_inv f2 ltac:(lra)) as [A2 B2].
  destruct (Rle_dec (S f1) (S f2)) as [|Hn]; [assumption|].
  pose proof (P_strict (S f2) (S f1) (proj1 A2) ltac:(lra) ltac:(repeat split; lra)). lra.
Qed.

Lemma x_decomp x : x = IZR (floor x) + P (S (frac x)).
Proof. destruct (S_inv (frac x) (frac_range x)) as [_ H]. rewrite H. ring. Qed.

Lemma E_pos x : 0 < E x.
Proof.
  pose proof (pow2_pos (floor x)). destruct (S_inv (frac x) (frac_range x)) as [[? ?] _].
  nra.
Qed.

Lemma E_at (n : Z) (s : R) : 0 <= s < 1 -> E (IZR n + P s) = powerRZ 2 n * (1 + s).
Proof.
  intros Hs. pose proof (P_nonneg_lt1 s Hs).
  assert (F : floor (IZR n + P s) = n) by (apply floor_unique; lra).
  rewrite F. replace (IZR n + P s - IZR n) with (P s) by ring.
  rewrite S_P by assumption. reflexivity.
Qed.

Lemma E_mono x y : x <= y -> E x <= E y.
Proof.
  intros Hxy. pose proof (floor_mono x y Hxy) as Hf.
  destruct (S_inv (frac x) (frac_range x)) as [[Sx1 Sx2] _].
  destruct (S_inv (frac y) (frac_range y)) as [[Sy1 Sy2] _].
  pose proof (pow2_pos (floor x)). pose proof (pow2_pos (floor y)).
  destruct (Z.eq_dec (floor x) (floor y)) as [Fe|Fn].
  - rewrite <- Fe. apply Rmult_le_compat_l; [lra|].
    apply Rplus_le_compat_l. destruct (frac_range x), (frac_range y).
    apply S_mono; [lra|lra|rewrite Fe; lra].
  - assert (Hp : powerRZ 2 (floor x + 1) <= powerRZ 2 (floor y)) by (apply pow2_le; lia).
    rewrite pow2_succ in Hp.
    assert (powerRZ 2 (floor x) * (1 + S (frac x)) <= powerRZ 2 (floor x) * 2)
      by (apply Rmult_le_compat_l; lra).
    assert (powerRZ 2 (floor y) * 1 <= powerRZ 2 (floor y) * (1 + S (frac y)))
      by (apply Rmult_le_compat_l; lra).
    lra.
Qed.

Lemma ln_E x : ln (E x) = IZR (floor x) * ln 2 + ln (1 + S (frac x)).
Proof.
  destruct (S_inv (frac x) (frac_range x)) as [[? ?] _].
  rewrite ln_mult by (try apply pow2_pos; lra). rewrite ln_pow2. reflexivity.
Qed.

Lemma ln2_le_inv_c : ln 2 - 1 / c <= 0.
Proof.
  pose proof (g_mono 0 1 ltac:(repeat split; lra)). rewrite P_0, P_1 in H.
  replace (1 + 0) with 1 in H by ring. rewrite ln_1 in H.
  replace (1 + 1) with 2 in H by ring. unfold Rdiv in *. lra.
Qed.

Lemma h_mono x y : x <= y -> ln (E y) - y / c <= ln (E x) - x / c.
Proof.
  intros Hxy. pose proof (floor_mono x y Hxy) as Hf.
  rewrite !ln_E.
  set (nx := floor x) in *. set (ny := floor y) in *.
  set (sx := S (x - IZR nx)). set (sy := S (y - IZR ny)).
  pose proof (frac_range x) as Fx. pose proof (frac_range y) as Fy.
  fold nx in Fx. fold ny in Fy.
  assert (Dx : x = IZR nx + P sx) by apply x_decomp.
  assert (Dy : y = IZR ny + P sy) by apply x_decomp.
  destruct (S_inv (x - IZR nx) Fx) as [[Sx1 Sx2] _].
  destruct (S_inv (y - IZR ny) Fy) as [[Sy1 Sy2] _].
  fold sx in Sx1, Sx2. fold sy in Sy1, Sy2.
  assert (Hc : / c > 0) by (apply Rinv_0_lt_compat; lra).
  destruct (Z.eq_dec nx ny) as [Fe|Fn].
  - assert (sx <= sy).
    { unfold sx, sy. destruct Fx, Fy.
      apply S_mono; [lra| rewrite Fe; lra |lra]. }
    pose proof (g_mono sx sy ltac:(repeat split; lra)).
    rewrite Dx, Dy, Fe. unfold Rdiv in *. lra.
  - assert (Hl : IZR nx + 1 <= IZR ny) by (rewrite <- (plus_IZR _ 1); apply IZR_le; lia).
    pose proof (g_mono sx 1 ltac:(repeat split; lra)) as G1. rewrite P_1 in G1.
    replace (1 + 1) with 2 in G1 by ring.
    pose proof (g_mono 0 sy ltac:(repeat split; lra)) as G2. rewrite P_0 in G2.
    replace (1 + 0) with 1 in G2 by ring. rewrite ln_1 in G2.
    pose proof ln2_le_inv_c as L.
    rewrite Dx, Dy. unfold Rdiv in *.
    assert (K : (IZR ny - IZR nx - 1) * (ln 2 - 1 * / c) <= 0) by nra.
    nra.
Qed.

(** The round trip of an interpolated mapping: if y is within c * ln g
    above the approximate logarithm of v, then E y is within [v, g v]. *)
Lemma E_round_trip (g : R) (n : Z) (s y : R) :
  1 < g -> 0 <= s < 1 ->
  IZR n + P s <= y <= IZR n + P s + c * ln g ->
  powerRZ 2 n * (1 + s) <= E y <= g * (powerRZ 2 n * (1 + s)).
Proof.
  intros Hg Hs [Y1 Y2]. rewrite <- (E_at n s Hs). split.
  - apply E_mono. assumption.
  - pose proof (h_mono _ _ Y1) as H.
    pose proof (E_pos y). pose proof (E_pos (IZR n + P s)).
    assert (ln (E y) <= ln (E (IZR n + P s)) + ln g).
    { assert ((y - (IZR n + P s)) / c <= ln g).
      { unfold Rdiv. apply (Rmult_le_reg_r c); [lra|].
        rewrite Rmult_assoc, Rinv_l by lra. lra. }
      unfold Rdiv in *. lra. }
    rewrite <- ln_mult in H2 by lra.
    assert (Hm : 0 < E (IZR n + P s) * g) by (apply Rmult_lt_0_compat; lra).
    cut (E y <= E (IZR n + P s) * g); [intro; lra|].
    destruct (Rle_lt_or_eq_dec _ _ H2) as [L|L].
    + left. apply ln_lt_inv; lra.
    + right. apply ln_inv; lra.
Qed.
End Piecewise.

Lemma g_mono_deriv (P P' : R -> R) (c : R) :
  0 < c ->
  (forall x, derivable_pt_lim P x (P' x)) ->
  (forall s, 0 <= s <= 1 -> c <= (1 + s) * P' s) ->
  forall s t, 0 <= s /\ s <= t /\ t <= 1 ->
  ln (1 + t) - P t / c <= ln (1 + s) - P s / c.
Proof.
  intros Hc HP Hd s t (H1 & H2 & H3).
  destruct (Req_dec s t) as [->|Hne]; [lra|].
  assert (Hst : s < t) by lra.
  destruct (MVT_cor2 (fun x => ln (1 + x) - P x / c)
                     (fun x => / (1 + x) * (0 + 1) - P' x * / c) s t Hst)
    as [xi [Heq Hxi]].
  { intros x Hx.
    apply (derivable_pt_lim_minus (fun x => ln (1 + x)) (fun x => P x / c)).
    - apply (derivable_pt_lim_comp (fun x => 1 + x) ln).
      + apply (derivable_pt_lim_plus (fct_cte 1) id).
        * apply derivable_pt_lim_const.
        * apply derivable_pt_lim_id.
      + apply derivable_pt_lim_ln. lra.
    - apply derivable_pt_lim_scal_right. apply HP. }
  assert (Hf' : / (1 + xi) * (0 + 1) - P' xi * / c <= 0).
  { assert (Hq : / (1 + xi) * (0 + 1) - P' xi * / c
                 = (c - (1 + xi) * P' xi) * / ((1 + xi) * c)) by (field; lra).
    rewrite Hq.
    assert (0 < / ((1 + xi) * c)) by (apply Rinv_0_lt_compat; nra).
    pose proof (Hd xi ltac:(lra)). nra. }
  cbv beta in Heq. nra.
Qed.

(** The interpolating polynomial of the cubic mapping, and its derivative. *)
Lemma Pcub_deriv (x : R) :
  derivable_pt_lim (fun s => ((A_ * s + B_) * s + C_) * s) x
    (3 * A_ * x * x + 2 * B_ * x + C_).
Proof.
  assert (D1 : derivable_pt_lim (fun s => A_ * s + B_) x (A_ * 1 + 0)).
  { apply (derivable_pt_lim_plus (mult_real_fct A_ id) (fct_cte B_)).
    - apply derivable_pt_lim_scal, derivable_pt_lim_id.
    - apply derivable_pt_lim_const. }
  assert (D2 : derivable_pt_lim (fun s => (A_ * s + B_) * s) x
                 ((A_ * 1 + 0) * x + (A_ * x + B_) * 1)).
  { apply (derivable_pt_lim_mult (fun s => A_ * s + B_) id); [exact D1|].
    apply derivable_pt_lim_id. }
  assert (D3 : derivable_pt_lim (fun s => (A_ * s + B_) * s + C_) x
                 ((A_ * 1 + 0) * x + (A_ * x + B_) * 1 + 0)).
  { apply (derivable_pt_lim_plus (fun s => (A_ * s + B_) * s) (fct_cte C_)); [exact D2|].
    apply derivable_pt_lim_const. }
  assert (D4 : derivable_pt_lim (fun s => ((A_ * s + B_) * s + C_) * s) x
                 (((A_ * 1 + 0) * x + (A_ * x + B_) * 1 + 0) * x
                  + ((A_ * x + B_) * x + C_) * 1)).
  { apply (derivable_pt_lim_mult (fun s => (A_ * s + B_) * s + C_) id); [exact D3|].
    apply derivable_pt_lim_id. }
  replace (3 * A_ * x * x + 2 * B_ * x + C_)
    with (((A_ * 1 + 0) * x + (A_ * x + B_) * 1 + 0) * x
          + ((A_ * x + B_) * x + C_) * 1) by ring.
  exact D4.
Qed.

Lemma Pcub_strict (s t : R) : s < t ->
  ((A_ * s + B_) * s + C_) * s < ((A_ * t + B_) * t + C_) * t.
Proof.
  intros H. unfold A_, B_, C_.
  assert (Q : 0 < 6 * (s * s + s * t + t * t) - 21 * (s + t) + 50).
  { pose proof (Rle_0_sqr (s - t)). pose proof (Rle_0_sqr (3 * s + 3 * t - 7)).
    unfold Rsqr in *. nra. }
  assert (E : ((6 / 35 * t + -3 / 5) * t + 10 / 7) * t - ((6 / 35 * s + -3 / 5) * s + 10 / 7) * s
              = (t - s) * (6 * (s * s + s * t + t * t) - 21 * (s + t) + 50) / 35) by field.
  assert (0 < (t - s) * (6 * (s * s + s * t + t * t) - 21 * (s + t) + 50)) by nra.
  lra.
Qed.

Lemma Pcub_tangent (s : R) : 0 <= s <= 1 ->
  C_ <= (1 + s) * (3 * A_ * s * s + 2 * B_ * s + C_).
Proof.
  intros Hs. unfold A_, B_, C_.
  assert (0 <= s * ((3 * s - 2) * (3 * s - 2)))
    by (apply Rmult_le_pos; [lra | apply Rle_0_sqr]).
  nra.
Qed.

Lemma cbrt_cube (w : R) : cbrt w * cbrt w * cbrt w = w.
Proof.
  unfold cbrt. destruct (Rlt_dec 0 w) as [Hp|Hp].
  - replace (Rpower w (1 / 3) * Rpower w (1 / 3) * Rpower w (1 / 3))
      with (Rpower w (1 / 3 + 1 / 3 + 1 / 3)) by (rewrite !Rpower_plus; ring).
    replace (1 / 3 + 1 / 3 + 1 / 3) with 1 by field. apply Rpower_1; lra.
  - destruct (Rlt_dec w 0) as [Hn|Hn]; [|lra].
    replace (- Rpower (- w) (1 / 3) * - Rpower (- w) (1 / 3) * - Rpower (- w) (1 / 3))
      with (- Rpower (- w) (1 / 3 + 1 / 3 + 1 / 3)) by (rewrite !Rpower_plus; ring).
    replace (1 / 3 + 1 / 3 + 1 / 3) with 1 by field. rewrite Rpower_1; lra.
Qed.

Lemma cbrt_neg (w : R) : w < 0 -> cbrt w < 0.
Proof.
  intros H. unfold cbrt. destruct (Rlt_dec 0 w); [lra|].
  destruct (Rlt_dec w 0); [|lra]. unfold Rpower. pose proof (exp_pos (1 / 3 * ln (- w))). lra.
Qed.

Lemma cardano_algebra (f d0 d1 q w cc : R) :
  d0 = B_ * B_ - 3 * A_ * C_ ->
  d1 = 2 * B_ * B_ * B_ - 9 * A_ * B_ * C_ - 27 * A_ * A_ * f ->
  q * q = d1 * d1 - 4 * d0 * d0 * d0 ->
  w = (d1 - q) / 2 -> w <> 0 ->
  cc * cc * cc = w -> cc <> 0 ->
  let x := - (B_ + cc + d0 / cc) / (3 * A_) in
  ((A_ * x + B_) * x + C_) * x = f.
Proof.
  intros H0 H1 Hq Hw Hw0 Hc Hc0 x.
  set (u := cc + d0 / cc).
  assert (Hww : w * w - d1 * w + d0 * d0 * d0 = 0) by (subst w; nra).
  assert (Hu : u * u * u - 3 * d0 * u = d1).
  { assert (E : u * u * u - 3 * d0 * u = w + d0 * d0 * d0 / w).
    { subst u. rewrite <- Hc. field. exact Hc0. }
    rewrite E.
    replace (w + d0 * d0 * d0 / w) with ((w * w + d0 * d0 * d0) / w) by (field; exact Hw0).
    replace (w * w + d0 * d0 * d0) with (d1 * w) by lra.
    field. exact Hw0. }
  assert (Hx : x = - (B_ + u) / (3 * A_)) by (subst x u; unfold Rdiv; ring).
  rewrite Hx.
  assert (E : ((A_ * (- (B_ + u) / (3 * A_)) + B_) * (- (B_ + u) / (3 * A_)) + C_)
                * (- (B_ + u) / (3 * A_)) - f
              = - (u * u * u - 3 * d0 * u - d1) / (27 * A_ * A_)).
  { rewrite H0, H1. unfold A_, B_, C_. field. }
  rewrite Hu in E. lra.
Qed.

Lemma cardano_inverse (f : R) : 0 <= f < 1 ->
  let s := cubic_significand f in
  0 <= s < 1 /\ ((A_ * s + B_) * s + C_) * s = f.
Proof.
  intros Hf s.
  set (d0 := B_ * B_ - 3 * A_ * C_).
  set (d1 := 2 * B_ * B_ * B_ - 9 * A_ * B_ * C_ - 27 * A_ * A_ * f).
  set (D := d1 * d1 - 4 * d0 * d0 * d0).
  assert (Hd0 : d0 < 0) by (unfold d0, A_, B_, C_; lra).
  assert (Hd3 : 0 < - d0 * (d0 * d0)) by (apply Rmult_lt_0_compat; nra).
  assert (HD : 0 < D) by (unfold D; nra).
  set (q := sqrt D).
  assert (Hq : q * q = D) by (apply sqrt_sqrt; lra).
  assert (Hq0 : 0 < q) by (apply sqrt_lt_R0; lra).
  set (w := (d1 - q) / 2).
  assert (Hw : w < 0).
  { unfold w. assert (d1 < q); [|lra].
    destruct (Rle_dec d1 0); [lra|].
    assert (d1 * d1 < q * q) by (rewrite Hq; unfold D; nra). nra. }
  set (cc := cbrt w).
  assert (Hc : cc * cc * cc = w) by apply cbrt_cube.
  assert (Hc0 : cc < 0) by (apply cbrt_neg; exact Hw).
  assert (HP : ((A_ * s + B_) * s + C_) * s = f).
  { apply (cardano_algebra f d0 d1 q w cc); try reflexivity; try lra.
    rewrite Hq. reflexivity. }
  split; [|exact HP].
  pose proof (Pcub_strict s 0) as H0'. pose proof (Pcub_strict 1 s) as H1'.
  split.
  - destruct (Rle_dec 0 s) as [|Hn]; [assumption|].
    exfalso. assert (((A_ * s + B_) * s + C_) * s < ((A_ * 0 + B_) * 0 + C_) * 0) by (apply H0'; lra).
    lra.
  - destruct (Rlt_dec s 1) as [|Hn]; [assumption|].
    exfalso. destruct (Req_dec s 1) as [E|E].
    + rewrite E in HP. unfold A_, B_, C_ in HP. lra.
    + assert (((A_ * 1 + B_) * 1 + C_) * 1 < ((A_ * s + B_) * s + C_) * s) by (apply H1'; lra).
      unfold A_, B_, C_ in *. lra.
Qed.

Lemma half_ldexp_shift (S p : R) : (S + 1) / 2 * (p * 2) = p * (1 + S).
Proof. field. Qed.

Lemma cubic_exp2_approx_E (x : R) :
  cubic_exp2_approx x
  = powerRZ 2 (floor x) * (1 + cubic_significand (x - IZR (floor x))).
Proof.
  unfold cubic_exp2_approx, cubic_significand, ldexp.
  cbv zeta. rewrite powerRZ_add by lra.
  replace (powerRZ 2 1) with 2 by (simpl; ring). apply half_ldexp_shift.
Qed.

Lemma exp2_approx_E (x : R) :
  exp2_approx x = powerRZ 2 (floor x) * (1 + (x - IZR (floor x))).
Proof.
  unfold exp2_approx, ldexp.
  cbv zeta. rewrite powerRZ_add by lra. rewrite plus_IZR.
  replace (powerRZ 2 1) with 2 by (simpl; ring). field.
Qed.

Lemma exp_le_mono (x y : R) : x <= y -> exp x <= exp y.
Proof.
  intros H. destruct (Rle_lt_or_eq_dec _ _ H) as [L|L].
  - left. apply exp_increasing. exact L.
  - rewrite L. lra.
Qed.

Lemma lin_round_trip (g : R) (n : Z) (s y : R) :
  1 < g -> 0 <= s < 1 ->
  IZR n + s <= y <= IZR n + s + 1 * ln g ->
  powerRZ 2 n * (1 + s) <= exp2_approx y <= g * (powerRZ 2 n * (1 + s)).
Proof.
  intros Hg Hs Hy. rewrite exp2_approx_E.
  apply (E_round_trip (fun s => s) (fun f => f) 1); try lra.
  - intros a b _ Hab _. exact Hab.
  - intros f Hf. split; [exact Hf | reflexivity].
  - apply (g_mono_deriv (fun s => s) (fun _ => 1) 1); [lra | |].
    + intros x. apply derivable_pt_lim_id.
    + intros t Ht. lra.
Qed.

Lemma cub_round_trip (g : R) (n : Z) (s y : R) :
  1 < g -> 0 <= s < 1 ->
  IZR n + ((A_ * s + B_) * s + C_) * s <= y
    <= IZR n + ((A_ * s + B_) * s + C_) * s + C_ * ln g ->
  powerRZ 2 n * (1 + s) <= cubic_exp2_approx y <= g * (powerRZ 2 n * (1 + s)).
Proof.
  intros Hg Hs Hy. rewrite cubic_exp2_approx_E.
  apply (E_round_trip (fun s => ((A_ * s + B_) * s + C_) * s) cubic_significand C_);
    try assumption.
  - unfold C_. lra.
  - intros a b _ Hab _. apply Pcub_strict. exact Hab.
  - unfold A_, B_, C_. ring.
  - unfold A_, B_, C_. field.
  - intros f Hf. apply (cardano_inverse f Hf).
  - apply (g_mono_deriv _ (fun x => 3 * A_ * x * x + 2 * B_ * x + C_) C_).
    + unfold C_. lra.
    + apply Pcub_deriv.
    + apply Pcub_tangent.
Qed.

Lemma make_mapping_ok (k : mapping_kind) (alpha o : R) (m : KeyMapping) :
  make_mapping k alpha o = Ok m ->
  0 < alpha < 1 /\
  m = {| kind := k;
         relative_accuracy := alpha;
         offset := o;
         gamma := 1 + 2 * alpha / (1 - alpha);
         min_possible := dbl_min * (1 + 2 * alpha / (1 - alpha));
         max_possible := dbl_max / (1 + 2 * alpha / (1 - alpha));
         multiplier :=
           match k with
           | LogarithmicMapping => 1 / log1p (2 * alpha / (1 - alpha)) * ln 2
           | LinearlyInterpolatedMapping => 1 / log1p (2 * alpha / (1 - alpha))
           | CubicallyInterpolatedMapping => 1 / log1p (2 * alpha / (1 - alpha)) / C_
           end |}.
Proof.
  unfold make_mapping.
  destruct (Rle_dec alpha 0); [discriminate|].
  destruct (Rle_dec 1 alpha); [discriminate|].
  intros H. injection H as <-. split; [lra | reflexivity].
Qed.

Lemma key_IZR_offset (m : KeyMapping) (o : Z) (v : R) :
  offset m = IZR o -> key m v = (ceil (log_gamma m v) + o)%Z.
Proof.
  intros H. unfold key. rewrite H, <- plus_IZR. apply trunc_IZR.
Qed.

(** C1: for each of the three mapping variants built with a relative
    accuracy alpha (the constructor accepts exactly 0 < alpha < 1) and an
    integral offset (0.0 by default), every value v with
    min_possible <= v <= max_possible comes back from value (key v) with
    relative error at most alpha: |value (key v) - v| / v <= alpha. *)
Theorem key_value_relative_accuracy (k : mapping_kind) (alpha : R) (o : Z)
  (m : KeyMapping) (v : R) :
  make_mapping k alpha (IZR o) = Ok m ->
  min_possible m <= v <= max_possible m ->
  Rabs (value m (key m v) - v) / v <= alpha.
Proof.
  intros Hm Hv. destruct (make_mapping_ok _ _ _ _ Hm) as [[Ha0 Ha1] Em].
  rewrite (key_IZR_offset m o v) by (rewrite Em; reflexivity).
  unfold value. rewrite plus_IZR.
  replace (IZR (ceil (log_gamma m v)) + IZR o - offset m)
    with (IZR (ceil (log_gamma m v))) by (rewrite Em; simpl; ring).
  rewrite Em in Hv |- *. cbn [min_possible max_possible gamma] in Hv |- *.
  set (gm := 2 * alpha / (1 - alpha)) in *.
  assert (Hgm : 0 < gm) by (unfold gm; apply Rdiv_lt_0_compat; lra).
  set (g := 1 + gm) in *.
  assert (Hg : 1 < g) by (unfold g; lra).
  assert (Hlg : 0 < ln g) by (rewrite <- ln_1; apply ln_increasing; lra).
  assert (Hv0 : 0 < v).
  { pose proof (pow2_pos (-1022)). unfold dbl_min in Hv. nra. }
  apply (rel_err_bound g alpha v); [exact Hg | unfold g, gm; field; lra | exact Hv0 |].
  unfold log_gamma, pow_gamma. cbn [kind multiplier].
  unfold log1p. fold g.
  destruct k.
  - (* logarithmic *)
    set (L := log2 v * (1 / ln g * ln 2)).
    assert (EL : L = ln v / ln g) by (unfold L, log2; pose proof ln2_pos; field; lra).
    pose proof (ceil_spec L) as [C1 C2]. set (ck := IZR (ceil L)) in *.
    unfold exp2, Rpower.
    replace (ck / (1 / ln g * ln 2) * ln 2) with (ck * ln g)
      by (pose proof ln2_pos; field; lra).
    assert (Y1 : ln v <= ck * ln g).
    { rewrite EL in C2. apply (Rmult_le_compat_r (ln g)) in C2; [|lra].
      unfold Rdiv in C2. rewrite Rmult_assoc, Rinv_l in C2 by lra. lra. }
    assert (Y2 : ck * ln g < ln v + ln g).
    { rewrite EL in C1. apply (Rmult_lt_compat_r (ln g)) in C1; [|lra].
      unfold Rdiv in C1. rewrite Rmult_assoc, Rinv_l in C1 by lra. lra. }
    split.
    + rewrite <- (exp_ln v) at 1 by lra. apply exp_le_mono. exact Y1.
    + rewrite <- (exp_ln (g * v)) by nra. rewrite ln_mult by lra.
      apply exp_le_mono. lra.
  - (* linearly interpolated *)
    destruct (frexp_significand v Hv0) as (n & s & Hs & Ev & Hf).
    unfold log2_approx. rewrite Hf.
    set (L := (2 * ((1 + s) / 2) - 1 + (IZR (n + 1) - 1)) * (1 / ln g)).
    assert (EL : L = (IZR n + s) / ln g) by (unfold L; rewrite plus_IZR; field; lra).
    pose proof (ceil_spec L) as [C1 C2]. set (ck := IZR (ceil L)) in *.
    replace (ck / (1 / ln g)) with (ck * ln g) by (field; lra).
    rewrite Ev. apply lin_round_trip; [exact Hg | exact Hs |].
    rewrite EL in C1, C2. unfold Rdiv in C1, C2.
    split.
    + apply (Rmult_le_compat_r (ln g)) in C2; [|lra].
      rewrite Rmult_assoc, Rinv_l in C2 by lra. lra.
    + apply (Rmult_lt_compat_r (ln g)) in C1; [|lra].
      rewrite Rmult_assoc, Rinv_l in C1 by lra. lra.
  - (* cubically interpolated *)
    destruct (frexp_significand v Hv0) as (n & s & Hs & Ev & Hf).
    unfold cubic_log2_approx. rewrite Hf.
    set (p := ((A_ * (2 * ((1 + s) / 2) - 1) + B_) * (2 * ((1 + s) / 2) - 1) + C_)
                * (2 * ((1 + s) / 2) - 1)).
    assert (Ep : p = ((A_ * s + B_) * s + C_) * s) by (unfold p; field).
    set (L := (p + (IZR (n + 1) - 1)) * (1 / ln g / C_)).
    assert (HC : 0 < C_) by (unfold C_; lra).
    assert (EL : L = (IZR n + p) / (C_ * ln g))
      by (unfold L; rewrite plus_IZR; field; lra).
    pose proof (ceil_spec L) as [C1 C2]. set (ck := IZR (ceil L)) in *.
    replace (ck / (1 / ln g / C_)) with (ck * (C_ * ln g)) by (field; lra).
    rewrite Ev. apply cub_round_trip; [exact Hg | exact Hs |].
    rewrite <- Ep.
    assert (HCl : 0 < C_ * ln g) by nra.
    rewrite EL in C1, C2. unfold Rdiv in C1, C2.
    split.
    + apply (Rmult_le_compat_r (C_ * ln g)) in C2; [|lra].
      rewrite Rmult_assoc, Rinv_l in C2 by lra. lra.
    + apply (Rmult_lt_compat_r (C_ * ln g)) in C1; [|lra].
      rewrite Rmult_assoc, Rinv_l in C1 by lra. lra.
Qed.

Lemma key_value_relative_accuracy_witness :
  match make_mapping LogarithmicMapping (1 / 2) (IZR 0) with
  | Ok m => (min_possible m <= 1 <= max_possible m)
            /\ Rabs (value m (key m 1) - 1) / 1 <= 1 / 2
  | Err _ => False
  end.
Proof.
  destruct (make_mapping LogarithmicMapping (1 / 2) (IZR 0)) as [m|e] eqn:E.
  - destruct (make_mapping_ok _ _ _ _ E) as [_ Em].
    assert (Hb : min_possible m <= 1 <= max_possible m).
    { rewrite Em. cbn [min_possible max_possible].
      replace (1 + 2 * (1 / 2) / (1 - 1 / 2)) with 3 by field.
      unfold dbl_min, dbl_max.
      pose proof (pow2_le (-1022) (-2) ltac:(lia)) as H1.
      pose proof (pow2_le (-52) 0 ltac:(lia)) as H2.
      pose proof (pow2_le 2 1023 ltac:(lia)) as H3.
      replace (powerRZ 2 (-2)) with (/ 4) in H1 by (simpl; field).
      replace (powerRZ 2 0) with 1 in H2 by reflexivity.
      replace (powerRZ 2 2) with 4 in H3 by (simpl; ring).
      pose proof (pow2_pos (-1022)). pose proof (pow2_pos (-52)).
      split; [lra|]. unfold Rdiv. nra. }
    split; [exact Hb|].
    apply (key_value_relative_accuracy LogarithmicMapping (1 / 2) 0 m 1 E Hb).
  - unfold make_mapping in E.
    destruct (Rle_dec (1 / 2) 0); [lra|].
    destruct (Rle_dec 1 (1 / 2)); [lra|]. discriminate.
Defined.

Lemma log2_1 : log2 1 = 0.
Proof. unfold log2. rewrite ln_1. unfold Rdiv. ring. Qed.

Lemma frexp_1 : frexp 1 = (1 / 2, 1%Z).
Proof.
  rewrite frexp_pos by lra. rewrite log2_1.
  replace 0 with (IZR 0) by reflexivity. rewrite floor_IZR. simpl.
  f_equal. field.
Qed.

Lemma log_gamma_1 (m : KeyMapping) : log_gamma m 1 = 0.
Proof.
  unfold log_gamma. destruct (kind m).
  - rewrite log2_1. ring.
  - unfold log2_approx. rewrite frexp_1. simpl. field.
  - unfold cubic_log2_approx. rewrite frexp_1. simpl. field.
Qed.

Lemma key_1 (m : KeyMapping) : key m 1 = trunc_to_index (offset m).
Proof.
  unfold key. rewrite log_gamma_1.
  replace 0 with (IZR 0) by reflexivity. rewrite ceil_IZR.
  f_equal. ring.
Qed.

(** C3 (amended): for every mapping variant, relative accuracy and offset
    accepted by the constructor, key(1) is the offset converted to the
    signed index type, i.e. truncated toward zero (static_cast), which is
    the floor of the offset only when the offset is nonnegative or
    integral. *)
Theorem key_one_is_truncated_offset (k : mapping_kind) (alpha o : R)
  (m : KeyMapping) :
  make_mapping k alpha o = Ok m -> key m 1 = trunc_to_index o.
Proof.
  intros H. destruct (make_mapping_ok _ _ _ _ H) as [_ Em].
  rewrite key_1, Em. reflexivity.
Qed.

Lemma key_one_is_truncated_offset_witness :
  match make_mapping LogarithmicMapping (1 / 100) (-1223 / 100) with
  | Ok m => key m 1 = trunc_to_index (-1223 / 100)
  | Err _ => False
  end.
Proof.
  destruct (make_mapping LogarithmicMapping (1 / 100) (-1223 / 100)) as [m|e] eqn:E.
  - apply (key_one_is_truncated_offset LogarithmicMapping (1 / 100) (-1223 / 100) m E).
  - unfold make_mapping in E.
    destruct (Rle_dec (1 / 100) 0); [lra|].
    destruct (Rle_dec 1 (1 / 100)); [lra|]. discriminate.
Defined.

(** C3 (counterexample): with alpha = 0.01 and offset -12.23, one of the
    tested offsets, key(1) is -12 while the floor of the offset is -13. *)
Lemma key_one_offset_floor_counterexample :
  match make_mapping LogarithmicMapping (1 / 100) (-1223 / 100) with
  | Ok m => key m 1 = (-12)%Z /\ floor (-1223 / 100) = (-13)%Z
            /\ key m 1 <> floor (-1223 / 100)
  | Err _ => False
  end.
Proof.
  destruct (make_mapping LogarithmicMapping (1 / 100) (-1223 / 100)) as [m|e] eqn:E.
  - destruct (make_mapping_ok _ _ _ _ E) as [_ Em].
    assert (K : key m 1 = (-12)%Z).
    { rewrite key_1, Em. cbn [offset]. unfold trunc_to_index.
      destruct (Rle_dec 0 (-1223 / 100)); [lra|].
      unfold ceil. rewrite (floor_unique (- (-1223 / 100)) 12); [reflexivity|].
      split; lra. }
    assert (F : floor (-1223 / 100) = (-13)%Z) by (apply floor_unique; split; lra).
    rewrite K, F. repeat split; discriminate.
  - unfold make_mapping in E.
    destruct (Rle_dec (1 / 100) 0); [lra|].
    destruct (Rle_dec 1 (1 / 100)); [lra|]. discriminate.
Qed.

(** ** The store code fails only with InvalidArgument *)

Lemma bind_Err {A B : Type} (c : res A) (k : A -> res B) (e : error) :
  (x <- c ;; k x) = Err e -> c = Err e \/ exists a, c = Ok a /\ k a = Err e.
Proof.
  destruct c as [a|e']; simpl; intros H; [right; eauto | left; congruence].
Qed.

Lemma collapsed_count_Err (l : list R) (a b : Z) (e : error) :
  BinList.collapsed_count l a b = Err e -> e = InvalidArgument.
Proof.
  unfold BinList.collapsed_count. destruct (orb _ _); intros H; [congruence | discriminate].
Qed.

Ltac err_inv :=
  repeat match goal with
  | H : Ok _ = Err _ |- _ => discriminate H
  | H : Err ?x = Err ?y |- _ => injection H as H; subst
  | H : BinList.collapsed_count _ _ _ = Err _ |- _ =>
      apply collapsed_count_Err in H; subst
  | H : ?L = Err _ |- _ =>
      match L with
      | context [BinList.collapsed_count ?l ?a ?b] =>
          let E := fresh "E" in
          destruct (BinList.collapsed_count l a b) eqn:E; simpl in H
      | context [if ?c then _ else _] =>
          destruct c; cbn -[BinList.collapsed_count] in H
      end
  end.

Lemma adjust_Err (s : Store) (a b : Z) (e : error) :
  adjust s a b = Err e -> e = InvalidArgument.
Proof.
  unfold adjust. intros H. cbv zeta in H. destruct (store_type s); err_inv;
    reflexivity.
Qed.

Lemma extend_range_Err (s : Store) (k1 k2 : Z) (e : error) :
  extend_range s k1 k2 = Err e -> e = InvalidArgument.
Proof.
  unfold extend_range. cbv zeta.
  destruct (is_empty s); [apply adjust_Err|].
  destruct (andb _ _); [discriminate|apply adjust_Err].
Qed.

Lemma merge_extend_Err (s o : Store) (e : error) :
  merge_extend s o = Err e -> e = InvalidArgument.
Proof.
  unfold merge_extend. destruct (orb _ _); [apply extend_range_Err | discriminate].
Qed.

Lemma store_merge_Err (s o : Store) (e : error) :
  store_merge s o = Err e -> e = InvalidArgument.
Proof.
  unfold store_merge.
  destruct (Reqb (count_ o) 0); [discriminate|].
  destruct (Reqb (count_ s) 0); [discriminate|].
  intros H. apply bind_Err in H as [H|(s' & _ & H)]; [apply (merge_extend_Err _ _ _ H)|].
  cbv zeta in H. destruct (store_type s).
  - discriminate.
  - apply bind_Err in H as [H|((b, i) & _ & H)]; [|discriminate].
    destruct (_ >? _)%Z; [|discriminate].
    apply bind_Err in H as [H|(c & _ & H)]; [|discriminate].
    apply (collapsed_count_Err _ _ _ _ H).
  - apply bind_Err in H as [H|((b, i) & _ & H)]; [|discriminate].
    destruct (_ >? _)%Z; [|discriminate].
    apply bind_Err in H as [H|(c & _ & H)]; [|discriminate].
    apply (collapsed_count_Err _ _ _ _ H).
Qed.

Lemma sketch_merge_mergeable (sk other : BaseDDSketch) (e : error) :
  mergeable sk other = true -> sketch_merge sk other = Err e -> e = InvalidArgument.
Proof.
  intros Hm. unfold sketch_merge. rewrite Hm. simpl.
  destruct (Reqb (sk_count_ other) 0); [discriminate|].
  destruct (Reqb (sk_count_ sk) 0); [discriminate|].
  intros H. apply bind_Err in H as [H|(s & _ & H)]; [apply (store_merge_Err _ _ _ H)|].
  apply bind_Err in H as [H|(ns & _ & H)]; [apply (store_merge_Err _ _ _ H)|].
  discriminate.
Qed.

Lemma mergeable_iff (sk other : BaseDDSketch) :
  mergeable sk other = true <-> gamma (mapping_ sk) = gamma (mapping_ other).
Proof.
  unfold mergeable, Reqb. destruct (Req_dec_T _ _); split; congruence.
Qed.

(** C9: merge(other) fails with UnequalSketchParametersException exactly
    when the two mappings' gammas differ; the check comes first, so this
    holds whatever the counts of the two sketches (empty or not); and
    mergeable(other) is true exactly when the gammas are equal. *)
Theorem merge_unequal_parameters_iff (sk other : BaseDDSketch) :
  (sketch_merge sk other = Err UnequalSketchParametersException
   <-> gamma (mapping_ sk) <> gamma (mapping_ other))
  /\ (mergeable sk other = true <-> gamma (mapping_ sk) = gamma (mapping_ other)).
Proof.
  split; [|apply mergeable_iff].
  split.
  - intros H Hg. apply mergeable_iff in Hg.
    pose proof (sketch_merge_mergeable sk other _ Hg H). discriminate.
  - intros Hg. unfold sketch_merge.
    destruct (mergeable sk other) eqn:Hm.
    + apply mergeable_iff in Hm. contradiction.
    + reflexivity.
Qed.

(** C7: get_quantile_value(q) is NaN exactly when q < 0, q > 1 or the
    count is 0; the result is a double in every case, no exception. *)
Theorem get_quantile_value_NaN_iff (sk : BaseDDSketch) (q : R) :
  get_quantile_value sk q = NaN <-> (q < 0 \/ 1 < q \/ sk_count_ sk = 0).
Proof.
  unfold get_quantile_value, Rltb, Reqb.
  destruct (Rlt_dec q 0); destruct (Rlt_dec 1 q); destruct (Req_dec_T (sk_count_ sk) 0);
    simpl; try (split; [intros _; tauto | reflexivity]).
  split; [|intros [H|[H|H]]; contradiction].
  cbv zeta. destruct (Rlt_dec _ _); [discriminate|].
  destruct (Rlt_dec _ _); discriminate.
Qed.

(** C10: avg() of a sketch just constructed (count 0, sum 0) is
    sum / count = 0 / 0, i.e. NaN. *)
Theorem avg_new_sketch_NaN (m : KeyMapping) (s ns : Store) :
  avg (new_sketch m s ns) = NaN.
Proof.
  unfold avg, ddiv. simpl.
  destruct (Req_dec_T 0 0) as [_|n]; [|contradiction n; reflexivity].
  reflexivity.
Qed.

(** ** Concrete runs *)

Ltac decide_R :=
  repeat match goal with
  | |- context [Req_dec_T ?a ?b] =>
      destruct (Req_dec_T a b); [try (exfalso; lra) | try (exfalso; lra)]
  | |- context [Rlt_dec ?a ?b] =>
      destruct (Rlt_dec a b); [try (exfalso; lra) | try (exfalso; lra)]
  | |- context [Rle_dec ?a ?b] =>
      destruct (Rle_dec a b); [try (exfalso; lra) | try (exfalso; lra)]
  end.

Ltac R_list_eq :=
  repeat match goal with
  | |- (_ :: _) = (_ :: _) => apply (f_equal2 (@cons R)); [lra|]
  end;
  reflexivity.

(** C2 (code bug): two CollapsingLowestDenseStore(bin_limit 2); the
    receiver holds weight 1 at key 10 (offset 9, bins [0; 1]), the other
    weight 3 at key 5 (offset 4, bins [0; 3]).  collapse_end is
    min(9, 6) = 6, so the claim adds other's counter at key 5, i.e. 3, into
    the receiver's bin 0, giving bins [3; 1].  The code calls
    collapsed_count on the receiver's own bins (index 1, value 1) and ends
    with bins [1; 1]. *)
Lemma collapsing_lowest_merge_collapses_own_bins :
  match store_add (new_CollapsingLowestDenseStore 2 128) 10 1,
        store_add (new_CollapsingLowestDenseStore 2 128) 5 3 with
  | Ok r, Ok o =>
      bins_ r = [0; 1] /\ offset_ r = 9%Z /\
      bins_ o = [0; 3] /\ offset_ o = 4%Z /\
      BinList.get (bins_ o) (5 - offset_ o) = 3 /\
      match store_merge r o with
      | Ok m => offset_ m = 9%Z /\ min_key_ m = 9%Z /\ max_key_ m = 10%Z
                /\ bins_ m = [1; 1] /\ bins_ m <> [3; 1]
      | Err _ => False
      end
  | _, _ => False
  end.
Proof.
  vm_compute. decide_R.
  repeat split; try lra; try R_list_eq.
  intros H. injection H as H _. lra.
Qed.

(** C4 (code bug): the constructor sets max_ to
    std::numeric_limits<double>::min(), the least positive normal double
    2^-1022, not to -infinity.  On a fresh DDSketch(0.01), add(-1.0) gives
    min = -1 but leaves max = 2^-1022, not -1. *)
Lemma fresh_sketch_max_is_dbl_min :
  match make_mapping LogarithmicMapping (1 / 100) 0 with
  | Ok m =>
      let sk := new_sketch m (new_DenseStore 128) (new_DenseStore 128) in
      max_ sk = dbl_min /\ min_ sk = dbl_max /\
      match sketch_add sk (-1) 1 with
      | Ok sk' => min_ sk' = -1 /\ max_ sk' = dbl_min /\ 0 < dbl_min
                  /\ max_ sk' <> -1
      | Err _ => False
      end
  | Err _ => False
  end.
Proof.
  destruct (make_mapping LogarithmicMapping (1 / 100) 0) as [m|e] eqn:E.
  - destruct (make_mapping_ok _ _ _ _ E) as [_ Em].
    cbv zeta. split; [reflexivity|]. split; [reflexivity|].
    assert (D1 : 0 < dbl_min) by apply pow2_pos.
    assert (D2 : dbl_min <= / 4).
    { unfold dbl_min. replace (/ 4) with (powerRZ 2 (-2)) by (simpl; field).
      apply pow2_le. lia. }
    assert (Hmp : 0 < min_possible m < 1).
    { rewrite Em. cbn [min_possible].
      assert (0 < 2 * (1 / 100) / (1 - 1 / 100) < 1)
        by (split; [apply Rdiv_lt_0_compat|]; lra).
      split; nra. }
    assert (Hmx : 1 < dbl_max).
    { unfold dbl_max.
      pose proof (pow2_le (-52) 0 ltac:(lia)) as H2.
      pose proof (pow2_le 2 1023 ltac:(lia)) as H3.
      replace (powerRZ 2 0) with 1 in H2 by reflexivity.
      replace (powerRZ 2 2) with 4 in H3 by (simpl; ring).
      pose proof (pow2_pos (-52)). nra. }
    unfold sketch_add.
    destruct (Rle_dec 1 0); [lra|].
    cbn [mapping_ new_sketch negative_store_ store_ min_ max_].
    destruct (Rlt_dec (min_possible m) (-1)); [lra|].
    destruct (Rlt_dec (-1) (- min_possible m)); [|lra].
    replace (- -1) with 1 by ring.
    rewrite key_1, Em. cbn [offset].
    replace 0 with (IZR 0) by reflexivity. rewrite trunc_IZR.
    destruct (store_add (new_DenseStore 128) 0 1) as [ns|e] eqn:Es;
      [|vm_compute in Es; discriminate].
    cbn -[dbl_min dbl_max].
    destruct (Rlt_dec (-1) dbl_max); [|lra].
    destruct (Rlt_dec dbl_min (-1)); [lra|].
    repeat split; lra.
  - unfold make_mapping in E.
    destruct (Rle_dec (1 / 100) 0); [lra|].
    destruct (Rle_dec 1 (1 / 100)); [lra|]. discriminate.
Qed.

(** C5 (code bug): in the run of C2, weights 1 and 3 have been added to
    the two stores; after the merge the receiver's count_ is 4 but its bins
    sum to 2, so sum(bins) == count fails after a merge. *)
Lemma collapsing_merge_breaks_bin_sum :
  match store_add (new_CollapsingLowestDenseStore 2 128) 10 1,
        store_add (new_CollapsingLowestDenseStore 2 128) 5 3 with
  | Ok r, Ok o =>
      BinList.sum (bins_ r) = count_ r /\ BinList.sum (bins_ o) = count_ o /\
      match store_merge r o with
      | Ok m => count_ m = 1 + 3 /\ BinList.sum (bins_ m) = 2
                /\ BinList.sum (bins_ m) <> count_ m
      | Err _ => False
      end
  | _, _ => False
  end.
Proof.
  vm_compute. decide_R.
  repeat split; lra.
Qed.

(** ** key_at_rank *)

Lemma key_at_rank_loop_first (l : list R) (rank : R) (lower : bool) (off mk : Z) :
  forall (i : nat) (run : R) (idx : Z),
  (i < List.length l)%nat ->
  rank_test rank lower (fold_left Rplus (firstn (S i) l) run) = true ->
  (forall j, (j < i)%nat ->
     rank_test rank lower (fold_left Rplus (firstn (S j) l) run) = false) ->
  key_at_rank_loop l run rank lower idx off mk = (idx + Z.of_nat i + off)%Z.
Proof.
  induction l as [|b rest IH]; intros i run idx Hi Ht Hj; simpl in Hi; [lia|].
  simpl. destruct i as [|i].
  - simpl in Ht. unfold rank_test in Ht. rewrite Ht. lia.
  - pose proof (Hj 0%nat ltac:(lia)) as H0. simpl in H0. unfold rank_test in H0.
    rewrite H0.
    rewrite (IH i (run + b) (idx + 1)%Z); [lia | lia | exact Ht |].
    intros j Hj'. apply (Hj (S j)). lia.
Qed.

Lemma key_at_rank_loop_none (l : list R) (rank : R) (lower : bool) (off mk : Z) :
  forall (run : R) (idx : Z),
  (forall j, (j < List.length l)%nat ->
     rank_test rank lower (fold_left Rplus (firstn (S j) l) run) = false) ->
  key_at_rank_loop l run rank lower idx off mk = mk.
Proof.
  induction l as [|b rest IH]; intros run idx Hj; [reflexivity|].
  simpl. pose proof (Hj 0%nat ltac:(simpl; lia)) as H0. simpl in H0.
  unfold rank_test in H0. rewrite H0.
  apply IH. intros j Hj'. apply (Hj (S j)). simpl. lia.
Qed.

Lemma cum_count_at (s : Store) (i : nat) :
  cum_count s (offset_ s + Z.of_nat i) = fold_left Rplus (firstn (S i) (bins_ s)) 0.
Proof.
  unfold cum_count, BinList.accumulate.
  replace (Z.to_nat (offset_ s + Z.of_nat i - offset_ s + 1)) with (S i) by lia.
  reflexivity.
Qed.

Lemma rank_test_true (rank : R) (lower : bool) (x : R) :
  rank_test rank lower x = true <->
  (if lower then rank < x else rank + 1 <= x).
Proof.
  unfold rank_test, Rltb, Rleb.
  destruct lower.
  - destruct (Rlt_dec rank x); simpl; split; intros; congruence || tauto.
  - destruct (Rle_dec (rank + 1) x); simpl; split; intros; congruence || tauto.
Qed.

Lemma rank_test_false (rank : R) (lower : bool) (x : R) :
  ~ (if lower then rank < x else rank + 1 <= x) -> rank_test rank lower x = false.
Proof.
  intros H. destruct (rank_test rank lower x) eqn:E; [|reflexivity].
  apply rank_test_true in E. contradiction.
Qed.

Lemma fold_Rplus_shift (l : list R) (a : R) :
  fold_left Rplus l a = a + fold_left Rplus l 0.
Proof.
  revert a. induction l as [|b l IH]; intros a; simpl; [ring|].
  rewrite (IH (a + b)), (IH (0 + b)). ring.
Qed.

Lemma fold_Rplus_nonneg (l : list R) :
  Forall (fun b => 0 <= b) l -> 0 <= fold_left Rplus l 0.
Proof.
  induction 1 as [|b l Hb Hl IH]; simpl; [lra|].
  rewrite fold_Rplus_shift. lra.
Qed.

Lemma fold_Rplus_prefix (l : list R) (n : nat) :
  Forall (fun b => 0 <= b) l ->
  fold_left Rplus (firstn n l) 0 <= fold_left Rplus l 0.
Proof.
  intros H. rewrite <- (firstn_skipn n l) at 2. rewrite fold_left_app.
  rewrite (fold_Rplus_shift (skipn n l)).
  assert (0 <= fold_left Rplus (skipn n l) 0); [|lra].
  apply fold_Rplus_nonneg. rewrite <- (firstn_skipn n l) in H.
  apply Forall_app in H. tauto.
Qed.

(** C6: key_at_rank(r, lower) scans the bins from the store's first key
    offset_.  (1) If k is the smallest key of the bins, [offset_,
    offset_ + length), at which the cumulative count exceeds r (lower) or
    reaches r + 1 (not lower), it returns k; (2) if no key of the bins
    qualifies, it returns max_key_; (3) with nonnegative counters, a rank at
    least the total count gives max_key_; (4) with counts [1; 1] at keys
    a = offset_ and b = offset_ + 1: lower gives a on [0, 1) and b on
    [1, 2), not lower gives a on (-1, 0] and b on (0, 1]. *)
Theorem key_at_rank_smallest_reached (s : Store) (rank : R) (lower : bool) :
  Forall (fun b => 0 <= b) (bins_ s) ->
  (forall k, (offset_ s <= k < offset_ s + length s)%Z ->
     rank_reached s rank lower k ->
     (forall k', (offset_ s <= k' < k)%Z -> ~ rank_reached s rank lower k') ->
     key_at_rank s rank lower = k)
  /\ ((forall k, (offset_ s <= k < offset_ s + length s)%Z ->
        ~ rank_reached s rank lower k) ->
      key_at_rank s rank lower = max_key_ s)
  /\ (BinList.sum (bins_ s) <= rank -> key_at_rank s rank lower = max_key_ s)
  /\ (bins_ s = [1; 1] ->
      (forall r, 0 <= r < 1 -> key_at_rank s r true = offset_ s)
      /\ (forall r, 1 <= r < 2 -> key_at_rank s r true = (offset_ s + 1)%Z)
      /\ (forall r, -1 < r <= 0 -> key_at_rank s r false = offset_ s)
      /\ (forall r, 0 < r <= 1 -> key_at_rank s r false = (offset_ s + 1)%Z)).
Proof.
  intros Hnn.
  assert (Hnone : (forall k, (offset_ s <= k < offset_ s + length s)%Z ->
                     ~ rank_reached s rank lower k) ->
                  key_at_rank s rank lower = max_key_ s).
  { intros Hk. unfold key_at_rank. apply key_at_rank_loop_none.
    intros j Hj. apply rank_test_false.
    rewrite <- cum_count_at. apply Hk.
    unfold length, BinList.size. lia. }
  split; [|split; [exact Hnone|split]].
  - intros k Hk Hr Hmin. unfold key_at_rank.
    set (i := Z.to_nat (k - offset_ s)).
    assert (Ek : k = (offset_ s + Z.of_nat i)%Z) by (unfold i; lia).
    rewrite (key_at_rank_loop_first _ _ _ _ _ i).
    + lia.
    + unfold length, BinList.size in Hk. lia.
    + apply rank_test_true. rewrite <- cum_count_at, <- Ek. exact Hr.
    + intros j Hj. apply rank_test_false. rewrite <- cum_count_at.
      apply Hmin. lia.
  - intros Hs. apply Hnone. intros k Hk.
    unfold rank_reached.
    assert (Hc : cum_count s k <= BinList.sum (bins_ s)).
    { unfold cum_count, BinList.sum, BinList.accumulate.
      apply fold_Rplus_prefix. exact Hnn. }
    destruct lower; lra.
  - intros Hb. unfold key_at_rank. rewrite Hb.
    repeat split; intros r Hr; cbn [key_at_rank_loop]; unfold Rltb, Rleb;
      repeat (destruct (Rlt_dec _ _)); repeat (destruct (Rle_dec _ _));
      cbn [orb andb negb]; try lia; exfalso; lra.
Qed.

Lemma key_at_rank_smallest_reached_witness :
  let s := {| store_type := DenseStore; count_ := 2; min_key_ := 3; max_key_ := 4;
              chunk_size_ := 128; offset_ := 3; bins_ := [1; 1];
              bin_limit_ := 0; is_collapsed_ := false |} in
  Forall (fun b => 0 <= b) (bins_ s) /\ key_at_rank s 2 true = max_key_ s.
Proof.
  intros s.
  assert (Hnn : Forall (fun b => 0 <= b) (bins_ s)) by (repeat constructor; simpl; lra).
  split; [exact Hnn|].
  destruct (key_at_rank_smallest_reached s 2 true Hnn) as (_ & _ & H & _).
  apply H. unfold BinList.sum, BinList.accumulate. simpl. lra.
Defined.

(** ** Merging into an empty sketch *)

Lemma sketch_add_above (sk : BaseDDSketch) (v w : R) (s' : Store) :
  0 < w -> min_possible (mapping_ sk) < v ->
  store_add (store_ sk) (key (mapping_ sk) v) w = Ok s' ->
  sketch_add sk v w =
  Ok {| mapping_ := mapping_ sk; store_ := s'; negative_store_ := negative_store_ sk;
        zero_count_ := zero_count_ sk; sk_count_ := sk_count_ sk + w;
        sum_ := sum_ sk + v * w;
        min_ := if Rlt_dec v (min_ sk) then v else min_ sk;
        max_ := if Rlt_dec (max_ sk) v then v else max_ sk |}.
Proof.
  intros Hw Hv Hs. unfold sketch_add.
  destruct (Rle_dec w 0); [lra|].
  destruct (Rlt_dec (min_possible (mapping_ sk)) v); [|lra].
  rewrite Hs. reflexivity.
Qed.

Lemma store_copy_count (x y : Store) : count_ (store_copy x y) = count_ y.
Proof. unfold store_copy. destruct (store_type x); reflexivity. Qed.

Lemma store_copy_key_at_rank (x y : Store) (r : R) (lower : bool) :
  key_at_rank (store_copy x y) r lower = key_at_rank y r lower.
Proof. unfold store_copy, key_at_rank. destruct (store_type x); reflexivity. Qed.

Lemma quantile_copy_same_mapping (a b : BaseDDSketch) (q : R) :
  mapping_ a = mapping_ b ->
  get_quantile_value (sketch_copy a b) q = get_quantile_value b q.
Proof.
  intros Hm. unfold get_quantile_value, sketch_copy. cbn [mapping_ store_ negative_store_
    zero_count_ sk_count_].
  rewrite !store_copy_count, !store_copy_key_at_rank, Hm. reflexivity.
Qed.

Lemma make_mapping_gamma_inj (k : mapping_kind) (a1 a2 o : R) (m1 m2 : KeyMapping) :
  make_mapping k a1 o = Ok m1 -> make_mapping k a2 o = Ok m2 ->
  gamma m1 = gamma m2 -> m1 = m2.
Proof.
  intros H1 H2 Hg.
  destruct (make_mapping_ok _ _ _ _ H1) as [[A1 B1] E1].
  destruct (make_mapping_ok _ _ _ _ H2) as [[A2 B2] E2].
  rewrite E1, E2 in Hg. cbn [gamma] in Hg.
  assert (Ht : 2 * a1 / (1 - a1) = 2 * a2 / (1 - a2)) by lra.
  set (t := 2 * a1 / (1 - a1)) in Ht.
  assert (T1 : t * (1 - a1) = 2 * a1) by (unfold t; field; lra).
  assert (T2 : t * (1 - a2) = 2 * a2) by (rewrite Ht; field; lra).
  assert (T0 : 0 < t) by (unfold t; apply Rdiv_lt_0_compat; lra).
  assert (Ea : a1 = a2) by nra.
  subst a2. rewrite E1, E2. reflexivity.
Qed.

(** C8 (amended): with equal gammas, merge(other) never changes other
    (merge_step gives it back as it was); if other is empty the receiver is
    returned unchanged; if the receiver is empty (and other not), the
    receiver takes other's stores and scalars but keeps its own mapping,
    and answers every quantile query as other does when the two mappings
    are of the same variant with the same offset (both built by the
    constructor). *)
Theorem merge_frame_and_copy (a b : BaseDDSketch) :
  mergeable a b = true ->
  (forall p, merge_step (a, b) = Ok p -> snd p = b)
  /\ (sk_count_ b = 0 -> sketch_merge a b = Ok a)
  /\ (sk_count_ b <> 0 -> sk_count_ a = 0 ->
      sketch_merge a b = Ok (sketch_copy a b)
      /\ mapping_ (sketch_copy a b) = mapping_ a
      /\ (forall k alpha_a alpha_b o,
            make_mapping k alpha_a o = Ok (mapping_ a) ->
            make_mapping k alpha_b o = Ok (mapping_ b) ->
            forall q, get_quantile_value (sketch_copy a b) q = get_quantile_value b q)).
Proof.
  intros Hm. split; [|split].
  - intros p. unfold merge_step. destruct (sketch_merge a b); simpl; [|discriminate].
    intros H. injection H as <-. reflexivity.
  - intros H0. unfold sketch_merge. rewrite Hm. simpl. unfold Reqb.
    destruct (Req_dec_T (sk_count_ b) 0); [reflexivity | contradiction].
  - intros Hb Ha. split; [|split; [reflexivity|]].
    + unfold sketch_merge. rewrite Hm. simpl. unfold Reqb.
      destruct (Req_dec_T (sk_count_ b) 0); [contradiction|].
      destruct (Req_dec_T (sk_count_ a) 0); [reflexivity | contradiction].
    + intros k aa ab o H1 H2 q. apply quantile_copy_same_mapping.
      apply mergeable_iff in Hm.
      apply (make_mapping_gamma_inj k aa ab o); assumption.
Qed.

(** C8 (counterexample): alpha = 1/3 (gamma = 2) for both sketches, the
    receiver's mapping with offset 0, the other's with offset 1, dense
    stores.  The other sketch holds add(1.0), at key 1; the empty receiver
    merges it and copies its stores, but keeps its own mapping: at q = 0.5
    the receiver answers 4/3 and the other 2/3. *)
Lemma merge_into_empty_keeps_receiver_mapping :
  match make_mapping LogarithmicMapping (1 / 3) 0,
        make_mapping LogarithmicMapping (1 / 3) 1 with
  | Ok ma, Ok mb =>
      gamma ma = gamma mb /\
      match sketch_add (new_sketch mb (new_DenseStore 1) (new_DenseStore 1)) 1 1 with
      | Ok b =>
          match sketch_merge (new_sketch ma (new_DenseStore 1) (new_DenseStore 1)) b with
          | Ok a' => get_quantile_value a' (1 / 2) = Finite (4 / 3)
                     /\ get_quantile_value b (1 / 2) = Finite (2 / 3)
          | Err _ => False
          end
      | Err _ => False
      end
  | _, _ => False
  end.
Proof.
  destruct (make_mapping LogarithmicMapping (1 / 3) 0) as [ma|e] eqn:Ea;
    [|unfold make_mapping in Ea; destruct (Rle_dec (1 / 3) 0); [lra|];
      destruct (Rle_dec 1 (1 / 3)); [lra|]; discriminate].
  destruct (make_mapping LogarithmicMapping (1 / 3) 1) as [mb|e] eqn:Eb;
    [|unfold make_mapping in Eb; destruct (Rle_dec (1 / 3) 0); [lra|];
      destruct (Rle_dec 1 (1 / 3)); [lra|]; discriminate].
  destruct (make_mapping_ok _ _ _ _ Ea) as [_ Ema].
  destruct (make_mapping_ok _ _ _ _ Eb) as [_ Emb].
  assert (Hg : 2 * (1 / 3) / (1 - 1 / 3) = 1) by field.
  rewrite Hg in Ema, Emb. replace (1 + 1) with 2 in Ema, Emb by ring.
  unfold log1p in Ema, Emb. replace (1 + 1) with 2 in Ema, Emb by ring.
  assert (Hm : 1 / ln 2 * ln 2 = 1) by (pose proof ln2_pos; field; lra).
  rewrite Hm in Ema, Emb.
  split; [rewrite Ema, Emb; reflexivity|].
  assert (D1 : 0 < dbl_min) by apply pow2_pos.
  assert (D2 : dbl_min <= / 4).
  { unfold dbl_min. replace (/ 4) with (powerRZ 2 (-2)) by (simpl; field).
    apply pow2_le. lia. }
  assert (Hk : key mb 1 = 1%Z) by (rewrite key_1, Emb; apply (trunc_IZR 1)).
  destruct (store_add (new_DenseStore 1) 1 1) as [s1|e] eqn:Es;
    [|vm_compute in Es; discriminate].
  rewrite (sketch_add_above _ 1 1 s1); cbn [mapping_ new_sketch store_];
    [| lra | rewrite Emb; cbn [min_possible]; lra | rewrite Hk; exact Es].
  vm_compute in Es. injection Es as <-.
  subst ma mb.
  unfold sketch_merge, mergeable, Reqb, get_quantile_value, Rltb, key_at_rank,
    value, pow_gamma, exp2, sketch_copy, store_copy.
  assert (Hmx : 1 < dbl_max).
  { unfold dbl_max.
    pose proof (pow2_le (-52) 0 ltac:(lia)) as H2.
    pose proof (pow2_le 2 1023 ltac:(lia)) as H3.
    replace (powerRZ 2 0) with 1 in H2 by reflexivity.
    replace (powerRZ 2 2) with 4 in H3 by (simpl; ring).
    pose proof (pow2_pos (-52)). nra. }
  cbn -[dbl_min dbl_max Rpower].
  decide_R. cbn -[dbl_min dbl_max Rpower]. decide_R.
  unfold Reqb, Rltb. decide_R. cbn [orb].
  replace ((IZR 1 - 0) / 1) with 1 by field.
  replace ((IZR 1 - 1) / 1) with 0 by field.
  rewrite Rpower_1, Rpower_O by lra. split; f_equal; field.
Qed.

(* ------------------------------------------------------------------ *)
(** * Stores, mappings and sketches beyond the claims *)

(* list lemmas *)

Lemma get_out (l : list R) (i : Z) :
  (i < 0 \/ BinList.size l <= i)%Z -> BinList.get l i = 0.
Proof.
  unfold BinList.get, BinList.size. intros H.
  destruct (Z.leb_spec 0 i); [|reflexivity].
  apply nth_overflow. lia.
Qed.

Lemma get_nth (l : list R) (i : Z) :
  (0 <= i)%Z -> BinList.get l i = nth (Z.to_nat i) l 0.
Proof. unfold BinList.get. intros H. destruct (Z.leb_spec 0 i); [reflexivity|lia]. Qed.

Lemma size_app (l l' : list R) :
  BinList.size (l ++ l') = (BinList.size l + BinList.size l')%Z.
Proof. unfold BinList.size. rewrite length_app. lia. Qed.

Lemma size_zeros (n : Z) : BinList.size (BinList.zeros n) = Z.max n 0.
Proof. unfold BinList.size, BinList.zeros. rewrite repeat_length. lia. Qed.

Lemma size_firstn (l : list R) (m : Z) :
  (0 <= m)%Z -> BinList.size (firstn (Z.to_nat m) l) = Z.min m (BinList.size l).
Proof. unfold BinList.size. intros. rewrite length_firstn. lia. Qed.

Lemma size_skipn (l : list R) (m : Z) :
  (0 <= m)%Z -> BinList.size (skipn (Z.to_nat m) l) = Z.max (BinList.size l - m) 0.
Proof. unfold BinList.size. intros. rewrite length_skipn. lia. Qed.

Lemma size_nonneg (l : list R) : (0 <= BinList.size l)%Z.
Proof. unfold BinList.size. lia. Qed.

Lemma get_app_l (l l' : list R) (i : Z) :
  (i < BinList.size l)%Z -> BinList.get (l ++ l') i = BinList.get l i.
Proof.
  intros H. destruct (Z_lt_le_dec i 0).
  - rewrite !get_out by lia. reflexivity.
  - rewrite !get_nth by lia. apply app_nth1. unfold BinList.size in H. lia.
Qed.

Lemma get_app_r (l l' : list R) (i : Z) :
  (BinList.size l <= i)%Z -> BinList.get (l ++ l') i = BinList.get l' (i - BinList.size l).
Proof.
  intros H. pose proof (size_nonneg l).
  rewrite !get_nth by lia. rewrite app_nth2 by (unfold BinList.size in *; lia).
  f_equal. unfold BinList.size in *. lia.
Qed.

Lemma get_zeros (n i : Z) : BinList.get (BinList.zeros n) i = 0.
Proof.
  unfold BinList.get, BinList.zeros. destruct (0 <=? i)%Z; [|reflexivity].
  destruct (Nat.lt_ge_cases (Z.to_nat i) (Z.to_nat n)).
  - rewrite nth_repeat_lt by assumption. reflexivity.
  - apply nth_overflow. rewrite repeat_length. assumption.
Qed.

Lemma get_firstn (l : list R) (m i : Z) :
  (0 <= m)%Z ->
  BinList.get (firstn (Z.to_nat m) l) i = if (i <? m)%Z then BinList.get l i else 0.
Proof.
  intros Hm. destruct (Z_lt_le_dec i 0).
  { rewrite !get_out by lia. destruct (i <? m)%Z; reflexivity. }
  destruct (Z.ltb_spec i m).
  - rewrite !get_nth by lia. rewrite nth_firstn. destruct (Nat.ltb_spec (Z.to_nat i) (Z.to_nat m)); [reflexivity|lia].
  - apply get_out. right. rewrite size_firstn by lia. lia.
Qed.

Lemma get_skipn (l : list R) (m i : Z) :
  (0 <= m)%Z -> (0 <= i)%Z ->
  BinList.get (skipn (Z.to_nat m) l) i = BinList.get l (i + m).
Proof.
  intros Hm Hi. rewrite !get_nth by lia. rewrite nth_skipn. f_equal. lia.
Qed.

Lemma size_upd_nat (l : list R) (n : nat) f :
  List.length (BinList.upd_nat l n f) = List.length l.
Proof.
  revert n. induction l as [|x xs IH]; intros [|n]; simpl; auto.
Qed.

Lemma size_add_at (l : list R) (i : Z) (w : R) :
  BinList.size (BinList.add_at l i w) = BinList.size l.
Proof.
  unfold BinList.add_at, BinList.upd, BinList.size. destruct (0 <=? i)%Z; [|reflexivity].
  rewrite size_upd_nat. reflexivity.
Qed.

Lemma nth_upd_nat (l : list R) (n j : nat) f :
  nth j (BinList.upd_nat l n f) 0 =
  if Nat.eqb j n then (if Nat.ltb n (List.length l) then f (nth j l 0) else nth j l 0)
  else nth j l 0.
Proof.
  revert n j. induction l as [|x xs IH]; intros n j.
  - simpl. destruct (Nat.eqb j n), n, j; reflexivity.
  - destruct n, j; simpl; try reflexivity. rewrite IH. reflexivity.
Qed.

Lemma get_add_at (l : list R) (i j : Z) (w : R) :
  BinList.get (BinList.add_at l i w) j =
  if andb (Z.eqb j i) (andb (0 <=? i) (i <? BinList.size l))%Z
  then BinList.get l j + w else BinList.get l j.
Proof.
  destruct (Z_lt_le_dec j 0).
  { rewrite !get_out by (rewrite ?size_add_at; lia).
    destruct (Z.eqb_spec j i); [subst; destruct (0 <=? i)%Z eqn:E; [lia|]|]; reflexivity. }
  unfold BinList.add_at, BinList.upd. rewrite !get_nth by lia.
  destruct (Z.leb_spec 0 i).
  - rewrite nth_upd_nat. unfold BinList.size.
    destruct (Z.eqb_spec j i), (Nat.eqb_spec (Z.to_nat j) (Z.to_nat i)); try lia;
      destruct (Z.ltb_spec i (Z.of_nat (List.length l))),
               (Nat.ltb_spec (Z.to_nat i) (List.length l)); simpl; try lia; try reflexivity.
    (* i beyond the end *)
  - destruct (Z.eqb_spec j i); [lia|]. reflexivity.
Qed.

(* sums *)

Lemma acc_app (l l' : list R) :
  BinList.accumulate (l ++ l') = BinList.accumulate l + BinList.accumulate l'.
Proof.
  unfold BinList.accumulate. rewrite fold_left_app, fold_Rplus_shift. reflexivity.
Qed.

Lemma acc_cons (x : R) (l : list R) :
  BinList.accumulate (x :: l) = x + BinList.accumulate l.
Proof.
  unfold BinList.accumulate. simpl. rewrite fold_Rplus_shift. lra.
Qed.

Lemma acc_zero (l : list R) :
  (forall i, BinList.get l i = 0) -> BinList.accumulate l = 0.
Proof.
  induction l as [|x xs IH]; intros H; [reflexivity|].
  rewrite acc_cons. rewrite IH.
  - specialize (H 0%Z). rewrite get_nth in H by lia. simpl in H. lra.
  - intros i. destruct (Z_lt_le_dec i 0). { apply get_out. lia. }
    specialize (H (i + 1)%Z). rewrite get_nth in H by lia. rewrite get_nth by lia.
    rewrite Z2Nat.inj_add in H by lia. rewrite Nat.add_1_r in H. exact H.
Qed.

Lemma acc_zeros (n : Z) : BinList.accumulate (BinList.zeros n) = 0.
Proof. apply acc_zero. intros. apply get_zeros. Qed.

Lemma acc_add_at (l : list R) (i : Z) (w : R) :
  (0 <= i < BinList.size l)%Z ->
  BinList.accumulate (BinList.add_at l i w) = BinList.accumulate l + w.
Proof.
  unfold BinList.add_at, BinList.upd, BinList.size. intros H.
  destruct (Z.leb_spec 0 i); [|lia].
  assert (Hn : (Z.to_nat i < List.length l)%nat) by lia. clear H H0.
  generalize dependent (Z.to_nat i). clear i.
  induction l as [|x xs IH]; intros [|n] Hn; simpl in Hn; try lia.
  - simpl. rewrite !acc_cons. lra.
  - simpl. rewrite !acc_cons. rewrite IH by lia. lra.
Qed.

Lemma acc_firstn_tail (l : list R) (m : Z) :
  (0 <= m)%Z -> (forall i, (m <= i)%Z -> BinList.get l i = 0) ->
  BinList.accumulate (firstn (Z.to_nat m) l) = BinList.accumulate l.
Proof.
  intros Hm H. rewrite <- (firstn_skipn (Z.to_nat m) l) at 2.
  rewrite acc_app, (acc_zero (skipn _ _)); [lra|].
  intros i. destruct (Z_lt_le_dec i 0). { apply get_out. lia. }
  rewrite get_skipn by lia. apply H. lia.
Qed.

Lemma acc_skipn_head (l : list R) (m : Z) :
  (0 <= m)%Z -> (forall i, (i < m)%Z -> BinList.get l i = 0) ->
  BinList.accumulate (skipn (Z.to_nat m) l) = BinList.accumulate l.
Proof.
  intros Hm H. rewrite <- (firstn_skipn (Z.to_nat m) l) at 2.
  rewrite acc_app, (acc_zero (firstn _ _)); [lra|].
  intros i. rewrite get_firstn by lia. destruct (Z.ltb_spec i m); [apply H; lia|reflexivity].
Qed.

Lemma get_cons_0 (x : R) (l : list R) : BinList.get (x :: l) 0 = x.
Proof. reflexivity. Qed.

Lemma get_cons_S (x : R) (l : list R) (i : Z) :
  (0 < i)%Z -> BinList.get (x :: l) i = BinList.get l (i - 1).
Proof.
  intros H. rewrite !get_nth by lia.
  replace (Z.to_nat i) with (S (Z.to_nat (i - 1))) by lia. reflexivity.
Qed.

Lemma Forall_get (P : R -> Prop) (l : list R) :
  P 0 -> (forall i, P (BinList.get l i)) -> Forall P l.
Proof.
  intros P0. induction l as [|x xs IH]; intros H; constructor.
  - exact (H 0%Z).
  - apply IH. intros i. destruct (Z_lt_le_dec i 0). { rewrite get_out by lia. exact P0. }
    replace (BinList.get xs i) with (BinList.get (x :: xs) (i + 1)); [apply H|].
    rewrite get_cons_S by lia. f_equal. lia.
Qed.

Lemma acc_zero_nonneg (l : list R) :
  BinList.accumulate l = 0 -> (forall i, 0 <= BinList.get l i) ->
  forall i, BinList.get l i = 0.
Proof.
  induction l as [|x xs IH]; intros H Hn i.
  - unfold BinList.get. destruct (0 <=? i)%Z; [destruct (Z.to_nat i)|]; reflexivity.
  - rewrite acc_cons in H.
    assert (Hx : 0 <= x) by exact (Hn 0%Z).
    assert (Hxs : forall j, 0 <= BinList.get xs j).
    { intros j. destruct (Z_lt_le_dec j 0). { rewrite get_out by lia. lra. }
      replace (BinList.get xs j) with (BinList.get (x :: xs) (j + 1)); [apply Hn|].
      rewrite get_cons_S by lia. f_equal. lia. }
    assert (Ha : 0 <= BinList.accumulate xs).
    { apply fold_Rplus_nonneg. apply Forall_get; [lra|exact Hxs]. }
    destruct (Z_lt_le_dec i 0). { apply get_out. lia. }
    destruct (Z.eq_dec i 0). { subst. rewrite get_cons_0. lra. }
    rewrite get_cons_S by lia. apply IH; [lra|exact Hxs].
Qed.

(* shift_bins and center_bins *)

Lemma shift_bins_ok (s : Store) (sh : Z) :
  (Z.abs sh <= length s)%Z ->
  (forall k, ((0 < sh)%Z /\ (offset_ s + length s - sh <= k)%Z) \/
             ((sh < 0)%Z /\ (k < offset_ s - sh)%Z) -> bin_at s k = 0) ->
  length (shift_bins s sh) = length s /\
  (forall k, bin_at (shift_bins s sh) k = bin_at s k) /\
  BinList.sum (bins_ (shift_bins s sh)) = BinList.sum (bins_ s) /\
  offset_ (shift_bins s sh) = (offset_ s - sh)%Z.
Proof.
  intros Hsh Hz. unfold length, bin_at in *. unfold shift_bins, BinList.sum;
  cbn [bins_ offset_ set_offset set_bins].
  destruct (Z.gtb_spec sh 0) as [Hp|Hp].
  - unfold BinList.extend_front_with_zeros, BinList.remove_trailing_elements.
    pose proof (size_nonneg (bins_ s)).
    rewrite size_app, size_zeros, size_firstn by lia.
    split; [lia|]. split; [|split; [|reflexivity]].
    + intros k. destruct (Z_lt_le_dec (k - offset_ s) 0).
      * rewrite get_app_l by (rewrite size_zeros; lia). rewrite get_zeros.
        rewrite get_out by lia. reflexivity.
      * rewrite get_app_r by (rewrite size_zeros; lia). rewrite size_zeros.
        rewrite get_firstn by lia.
        replace (k - (offset_ s - sh) - Z.max sh 0)%Z with (k - offset_ s)%Z by lia.
        destruct (Z.ltb_spec (k - offset_ s) (BinList.size (bins_ s) - sh)); [reflexivity|].
        symmetry. apply Hz. left. lia.
    + rewrite acc_app, acc_zeros, acc_firstn_tail; [lra|lia|].
      intros i Hi. specialize (Hz (i + offset_ s)%Z).
      replace (i + offset_ s - offset_ s)%Z with i in Hz by lia. apply Hz. left. lia.
  - unfold BinList.extend_back_with_zeros, BinList.remove_leading_elements.
    pose proof (size_nonneg (bins_ s)).
    rewrite size_app, size_zeros, size_skipn by lia.
    split; [lia|]. split; [|split; [|reflexivity]].
    + intros k. destruct (Z_lt_le_dec (k - (offset_ s - sh)) (BinList.size (bins_ s) - Z.abs sh)).
      * rewrite get_app_l by (rewrite size_skipn; lia).
        destruct (Z_lt_le_dec (k - (offset_ s - sh)) 0).
        -- rewrite get_out by lia. destruct (Z.eq_dec sh 0).
           ++ rewrite get_out by lia. reflexivity.
           ++ symmetry. apply Hz. right. lia.
        -- rewrite get_skipn by lia. f_equal. lia.
      * rewrite get_app_r by (rewrite size_skipn; lia). rewrite get_zeros.
        rewrite get_out by lia. reflexivity.
    + rewrite acc_app, acc_zeros, acc_skipn_head; [lra|lia|].
      intros i Hi. destruct (Z_lt_le_dec i 0). { apply get_out. lia. }
      specialize (Hz (i + offset_ s)%Z).
      replace (i + offset_ s - offset_ s)%Z with i in Hz by lia. apply Hz. right. lia.
Qed.

Lemma shift_bins_fields (s : Store) (sh : Z) :
  store_type (shift_bins s sh) = store_type s /\ count_ (shift_bins s sh) = count_ s /\
  min_key_ (shift_bins s sh) = min_key_ s /\ max_key_ (shift_bins s sh) = max_key_ s /\
  chunk_size_ (shift_bins s sh) = chunk_size_ s.
Proof. repeat split. Qed.

Lemma half_bounds (x : Z) : (0 <= x)%Z -> (2 * (x / 2) <= x < 2 * (x / 2) + 2)%Z.
Proof. intros. pose proof (Z.div_mod x 2). pose proof (Z.mod_pos_bound x 2). lia. Qed.

Lemma center_bins_ok (s : Store) (a b : Z) :
  (a <= b)%Z -> (b - a + 1 <= length s)%Z ->
  (offset_ s <= b)%Z -> (a < offset_ s + length s)%Z ->
  (forall k, (k < a \/ b < k)%Z -> bin_at s k = 0) ->
  length (center_bins s a b) = length s /\
  (forall k, bin_at (center_bins s a b) k = bin_at s k) /\
  BinList.sum (bins_ (center_bins s a b)) = BinList.sum (bins_ s) /\
  (offset_ (center_bins s a b) <= a)%Z /\
  (b < offset_ (center_bins s a b) + length (center_bins s a b))%Z.
Proof.
  intros Hab Hd Ho1 Ho2 Hz. unfold center_bins.
  pose proof (size_nonneg (bins_ s)) as HL. fold (length s) in HL.
  rewrite !Z.quot_div_nonneg by lia.
  pose proof (half_bounds (length s) HL). pose proof (half_bounds (b - a + 1)).
  set (q1 := (length s / 2)%Z) in *. set (q2 := ((b - a + 1) / 2)%Z) in *.
  set (sh := (offset_ s + q1 - (a + q2))%Z).
  destruct (shift_bins_ok s sh) as (Hl & Ha & Hs & Hoff).
  - unfold sh. lia.
  - intros k Hk. apply Hz. unfold sh in Hk. lia.
  - rewrite Hl, Hoff. unfold sh. repeat split; auto; lia.
Qed.

Lemma get_app_zeros (l : list R) (n i : Z) :
  BinList.get (l ++ BinList.zeros n) i = BinList.get l i.
Proof.
  destruct (Z_lt_le_dec i (BinList.size l)).
  - apply get_app_l. assumption.
  - rewrite get_app_r by assumption. rewrite get_zeros, get_out by lia. reflexivity.
Qed.

Lemma get_new_length_dense (s : Store) (a b : Z) :
  store_type s = DenseStore -> (0 < chunk_size_ s)%Z -> (a <= b)%Z ->
  (b - a + 1 <= get_new_length s a b)%Z.
Proof.
  intros Ht Hc Hab. unfold get_new_length. rewrite Ht.
  pose proof (Z.div_mod (b - a + 1 + chunk_size_ s - 1) (chunk_size_ s)).
  pose proof (Z.mod_pos_bound (b - a + 1 + chunk_size_ s - 1) (chunk_size_ s)).
  lia.
Qed.

Lemma center_bins_fields (s : Store) (a b : Z) :
  store_type (center_bins s a b) = store_type s /\ count_ (center_bins s a b) = count_ s /\
  min_key_ (center_bins s a b) = min_key_ s /\ max_key_ (center_bins s a b) = max_key_ s /\
  chunk_size_ (center_bins s a b) = chunk_size_ s.
Proof. repeat split. Qed.

Ltac st_simpl :=
  cbn [store_type count_ min_key_ max_key_ chunk_size_ offset_ bins_ bin_limit_
       is_collapsed_ set_bins set_keys set_offset set_count set_collapsed] in *.

Lemma extend_range_dense (s : Store) (k1 k2 : Z) :
  dense_inv s ->
  exists s', extend_range s k1 k2 = Ok s' /\ dense_inv s' /\
    (forall k, bin_at s' k = bin_at s k) /\ count_ s' = count_ s /\
    min_key_ s' = Z.min k1 (Z.min k2 (min_key_ s)) /\
    max_key_ s' = Z.max k1 (Z.max k2 (max_key_ s)) /\
    chunk_size_ s' = chunk_size_ s.
Proof.
  intros (Ht & Hc & Hsum & Hz & Hw).
  set (nmin := Z.min k1 (Z.min k2 (min_key_ s))).
  set (nmax := Z.max k1 (Z.max k2 (max_key_ s))).
  assert (Hle : (nmin <= nmax)%Z) by (unfold nmin, nmax; lia).
  pose proof (size_nonneg (bins_ s)) as HL. fold (length s) in HL.
  unfold extend_range. fold nmin nmax.
  destruct (is_empty s) eqn:He.
  - (* Initialize bins *)
    unfold is_empty in He. apply Z.eqb_eq in He.
    assert (Hb : bins_ s = []).
    { destruct Hw as [(Hb & _)|Hw]; [exact Hb|lia]. }
    set (s1 := set_offset (set_bins s (BinList.initialize_with_zeros
                                         (get_new_length s nmin nmax))) nmin).
    pose proof (get_new_length_dense s nmin nmax Ht Hc Hle) as Hnl.
    assert (Hl1 : length s1 = get_new_length s nmin nmax).
    { unfold s1, length, BinList.initialize_with_zeros. st_simpl. rewrite size_zeros. lia. }
    assert (Hz1 : forall k, bin_at s1 k = 0).
    { intros k. unfold bin_at, s1, BinList.initialize_with_zeros. st_simpl. apply get_zeros. }
    destruct (center_bins_ok s1 nmin nmax) as (Hl & Ha & Hs & Ho1 & Ho2);
      [lia|rewrite Hl1; lia|unfold s1; st_simpl; lia|rewrite Hl1; unfold s1; st_simpl; lia
      |intros; apply Hz1|].
    pose proof (center_bins_fields s1 nmin nmax) as (Ft & Fc & _ & _ & Fch).
    unfold adjust. replace (store_type s1) with DenseStore by (unfold s1; st_simpl; auto).
    eexists. split; [reflexivity|].
    assert (Hs0 : BinList.sum (bins_ s) = 0) by (rewrite Hb; reflexivity).
    set (c := center_bins s1 nmin nmax) in *.
    assert (Hb0 : forall k, bin_at s k = 0).
    { intros k. unfold bin_at. rewrite Hb. unfold BinList.get.
      destruct (0 <=? k - offset_ s)%Z; [destruct (Z.to_nat (k - offset_ s))|]; reflexivity. }
    unfold s1 in Ft, Fc, Fch, Hs. st_simpl.
    split; [|split; [|split; [|repeat split]]].
    + unfold dense_inv. st_simpl. rewrite Ft, Fch, Hs.
      unfold BinList.sum, BinList.initialize_with_zeros in *. rewrite acc_zeros.
      split; [exact Ht|]. split; [exact Hc|]. split; [lra|]. split.
      * intros k _. unfold bin_at in *. st_simpl. rewrite Ha. unfold s1 in Hz1. apply Hz1.
      * right. unfold length in *. st_simpl. lia.
    + intros k. unfold bin_at in *. st_simpl. rewrite Ha, Hz1, Hb0. reflexivity.
    + reflexivity.
  - unfold is_empty in He. apply Z.eqb_neq in He.
    assert (Hw2 : (offset_ s <= min_key_ s /\ min_key_ s <= max_key_ s /\
                   max_key_ s < offset_ s + length s)%Z).
    { destruct Hw as [(Hb & _)|Hw]; [|exact Hw]. unfold length in He. rewrite Hb in He.
      cbv in He. congruence. }
    assert (Hzn : forall k, (k < nmin \/ nmax < k)%Z -> bin_at s k = 0).
    { intros k Hk. apply Hz. unfold nmin, nmax in Hk. lia. }
    destruct (andb (nmin >=? min_key_ s)%Z (nmax <? offset_ s + length s)%Z) eqn:Hg.
    + (* No need to change the range *)
      apply Bool.andb_true_iff in Hg as [Hg1 Hg2]. apply Z.geb_le in Hg1. apply Z.ltb_lt in Hg2.
      eexists. split; [reflexivity|].
      split; [|repeat split].
      unfold dense_inv, bin_at, length in *. st_simpl.
      split; [exact Ht|]. split; [exact Hc|]. split; [exact Hsum|]. split; [exact Hzn|].
      right. lia.
    + (* Grow the bins *)
      pose proof (get_new_length_dense s nmin nmax Ht Hc Hle) as Hnl.
      set (s1 := if (get_new_length s nmin nmax >? length s)%Z
                 then set_bins s (BinList.extend_back_with_zeros (bins_ s)
                                    (get_new_length s nmin nmax - length s))
                 else s).
      assert (Hs1 : store_type s1 = DenseStore /\ count_ s1 = count_ s /\
                    chunk_size_ s1 = chunk_size_ s /\ offset_ s1 = offset_ s /\
                    (forall k, bin_at s1 k = bin_at s k) /\
                    BinList.sum (bins_ s1) = BinList.sum (bins_ s) /\
                    (length s <= length s1)%Z /\ (nmax - nmin + 1 <= length s1)%Z).
      { unfold s1. destruct (Z.gtb_spec (get_new_length s nmin nmax) (length s)).
        - unfold bin_at, length, BinList.extend_back_with_zeros, BinList.sum in *. st_simpl.
          rewrite size_app, size_zeros, acc_app, acc_zeros.
          repeat split; try lia; try assumption; try lra.
          intros k. apply get_app_zeros.
        - repeat split; try lia; assumption. }
      destruct Hs1 as (Ht1 & Hc1 & Hch1 & Ho1 & Ha1 & Hsum1 & Hl1 & Hd1).
      destruct (center_bins_ok s1 nmin nmax) as (Hl & Ha & Hs & Hoa & Hob);
        [lia|lia|rewrite Ho1; unfold nmax; lia|rewrite Ho1; unfold nmin; lia
        |intros k Hk; rewrite Ha1; apply Hzn; exact Hk|].
      pose proof (center_bins_fields s1 nmin nmax) as (Ft & Fc & _ & _ & Fch).
      unfold adjust. fold s1. rewrite Ht1.
      eexists. split; [reflexivity|].
      set (c := center_bins s1 nmin nmax) in *.
      split; [|split; [|repeat split]].
      * unfold dense_inv. st_simpl. rewrite Ft, Fch, Hs, Hsum1, Hsum, Ht1, Hch1.
        split; [reflexivity|]. split; [exact Hc|]. split; [symmetry; exact Hc1|]. split.
        -- intros k Hk. unfold bin_at in *. st_simpl. rewrite Ha, Ha1. apply Hzn. exact Hk.
        -- right. unfold length in *. st_simpl. lia.
      * intros k. unfold bin_at in *. st_simpl. rewrite Ha, Ha1. reflexivity.
      * st_simpl. rewrite Fc. exact Hc1.
      * st_simpl. rewrite Fch. exact Hch1.
Qed.

Lemma dense_inv_window (s : Store) (k : Z) :
  dense_inv s -> (min_key_ s <= k <= max_key_ s)%Z ->
  (offset_ s <= min_key_ s /\ min_key_ s <= max_key_ s /\
   max_key_ s < offset_ s + length s)%Z.
Proof.
  intros (_ & _ & _ & _ & [(_ & H1 & H2)|H]) Hk; [|exact H].
  unfold int64_max, int64_min in *. lia.
Qed.

Lemma add_at_dense (s : Store) (k : Z) (w : R) :
  dense_inv s -> (min_key_ s <= k <= max_key_ s)%Z ->
  let s' := set_count (set_bins s (BinList.add_at (bins_ s) (k - offset_ s) w))
                      (count_ s + w) in
  dense_inv s' /\ bin_at s' k = bin_at s k + w /\
  (forall j, j <> k -> bin_at s' j = bin_at s j).
Proof.
  intros Hi Hk s'. pose proof (dense_inv_window s k Hi Hk) as Hw.
  destruct Hi as (Ht & Hc & Hsum & Hz & _).
  assert (Hb : forall j, bin_at s' j =
            if (j =? k)%Z then bin_at s j + w else bin_at s j).
  { intros j. unfold s', bin_at. st_simpl. rewrite get_add_at.
    unfold length in Hw.
    destruct (Z.eqb_spec j k), (Z.eqb_spec (j - offset_ s) (k - offset_ s));
      try lia; simpl.
    - destruct (Z.leb_spec 0 (k - offset_ s)), (Z.ltb_spec (k - offset_ s)
        (BinList.size (bins_ s))); try lia. reflexivity.
    - reflexivity. }
  split; [|split].
  - unfold dense_inv.
    split; [exact Ht|]. split; [exact Hc|]. split.
    + unfold s', BinList.sum in *. st_simpl.
      rewrite acc_add_at by (unfold length in Hw; lia). lra.
    + split.
      * intros j Hj. rewrite Hb. unfold s' in Hj. st_simpl. destruct (Z.eqb_spec j k); [lia|]. apply Hz. exact Hj.
      * right. unfold s', length in *. st_simpl. rewrite size_add_at. lia.
  - rewrite Hb, Z.eqb_refl. reflexivity.
  - intros j Hj. rewrite Hb. destruct (Z.eqb_spec j k); [lia|reflexivity].
Qed.

Theorem dense_store_add_ok (s : Store) (k : Z) (w : R) :
  dense_inv s ->
  exists s', store_add s k w = Ok s' /\ dense_inv s' /\
    bin_at s' k = bin_at s k + w /\ (forall j, j <> k -> bin_at s' j = bin_at s j) /\
    count_ s' = count_ s + w /\
    min_key_ s' = Z.min k (min_key_ s) /\ max_key_ s' = Z.max k (max_key_ s).
Proof.
  intros Hi. pose proof Hi as (Ht & _).
  unfold store_add, get_index. rewrite Ht.
  destruct (orb (k <? min_key_ s)%Z (k >? max_key_ s)%Z) eqn:Hr.
  - destruct (extend_range_dense s k k Hi) as (s1 & E & Hi1 & Ha1 & Hc1 & Hmn & Hmx & _).
    rewrite E. cbn [bind].
    assert (Hk : (min_key_ s1 <= k <= max_key_ s1)%Z) by lia.
    destruct (add_at_dense s1 k w Hi1 Hk) as (Hi2 & Hb2 & Ho2).
    eexists. split; [reflexivity|]. split; [exact Hi2|].
    split; [rewrite Hb2, Ha1; reflexivity|].
    split; [intros j Hj; rewrite Ho2, Ha1 by exact Hj; reflexivity|].
    st_simpl. rewrite Hc1, Hmn, Hmx. repeat split; try lra; lia.
  - apply Bool.orb_false_iff in Hr as [Hr1 Hr2].
    apply Z.ltb_ge in Hr1. rewrite Z.gtb_ltb in Hr2. apply Z.ltb_ge in Hr2.
    cbn [bind].
    assert (Hk : (min_key_ s <= k <= max_key_ s)%Z) by lia.
    destruct (add_at_dense s k w Hi Hk) as (Hi2 & Hb2 & Ho2).
    eexists. split; [reflexivity|]. split; [exact Hi2|].
    split; [exact Hb2|]. split; [exact Ho2|].
    st_simpl. repeat split; try lra; lia.
Qed.

(* merge *)

Lemma size_merge_bins_loop (n : nat) (key : Z) (dst : list R) (doff : Z)
      (src : list R) (soff : Z) :
  BinList.size (merge_bins_loop n key dst doff src soff) = BinList.size dst.
Proof.
  revert key dst. induction n as [|n IH]; intros key dst; [reflexivity|].
  simpl. rewrite IH. apply size_add_at.
Qed.

Lemma get_merge_bins_loop (n : nat) (key : Z) (dst : list R) (doff : Z)
      (src : list R) (soff : Z) :
  (forall j, (key <= j < key + Z.of_nat n)%Z -> (0 <= j - doff < BinList.size dst)%Z) ->
  forall i, BinList.get (merge_bins_loop n key dst doff src soff) i =
    BinList.get dst i +
    (if andb (key <=? i + doff)%Z (i + doff <? key + Z.of_nat n)%Z
     then BinList.get src (i + doff - soff) else 0).
Proof.
  revert key dst. induction n as [|n IH]; intros key dst Hr i.
  - cbn [merge_bins_loop].
    replace (andb _ _) with false; [lra|]. symmetry. apply Bool.andb_false_iff.
    destruct (Z.leb_spec key (i + doff)); [right; apply Z.ltb_ge; lia|left; reflexivity].
  - simpl merge_bins_loop. rewrite IH.
    + rewrite get_add_at.
      assert (Hk : (0 <= key - doff < BinList.size dst)%Z) by (apply Hr; lia).
      destruct (Z.eqb_spec i (key - doff)).
      * subst i. destruct (Z.leb_spec 0 (key - doff)), (Z.ltb_spec (key - doff)
          (BinList.size dst)); try lia.
        destruct (Z.leb_spec (key + 1) (key - doff + doff)); [lia|].
        destruct (Z.leb_spec key (key - doff + doff)); [|lia].
        destruct (Z.ltb_spec (key - doff + doff) (key + Z.of_nat (S n))); [|lia].
        simpl. replace (key - doff + doff - soff)%Z with (key - soff)%Z by lia. lra.
      * cbn [andb].
        destruct (Z.leb_spec (key + 1) (i + doff)), (Z.leb_spec key (i + doff)),
          (Z.ltb_spec (i + doff) (key + 1 + Z.of_nat n)),
          (Z.ltb_spec (i + doff) (key + Z.of_nat (S n))); cbn [andb]; try lra; lia.
    + intros j Hj. rewrite size_add_at. apply Hr. lia.
Qed.

Lemma acc_firstn_S_skipn (l : list R) (n j : nat) :
  BinList.accumulate (firstn (S n) (skipn j l)) =
  nth j l 0 + BinList.accumulate (firstn n (skipn (S j) l)).
Proof.
  revert j. induction l as [|x xs IH]; intros j.
  - rewrite !skipn_nil, !firstn_nil. unfold BinList.accumulate. simpl.
    destruct j; simpl; lra.
  - destruct j.
    + simpl. rewrite acc_cons. reflexivity.
    + simpl. apply IH.
Qed.

Lemma acc_merge_bins_loop (n : nat) (key : Z) (dst : list R) (doff : Z)
      (src : list R) (soff : Z) :
  (soff <= key)%Z ->
  (forall j, (key <= j < key + Z.of_nat n)%Z -> (0 <= j - doff < BinList.size dst)%Z) ->
  BinList.accumulate (merge_bins_loop n key dst doff src soff) =
  BinList.accumulate dst + BinList.accumulate (firstn n (skipn (Z.to_nat (key - soff)) src)).
Proof.
  revert key dst. induction n as [|n IH]; intros key dst Hs Hr.
  - simpl. unfold BinList.accumulate at 3. simpl. lra.
  - simpl merge_bins_loop. rewrite IH by (try lia; intros j Hj; rewrite size_add_at; apply Hr; lia).
    rewrite acc_add_at by (apply Hr; lia).
    rewrite acc_firstn_S_skipn. rewrite get_nth by lia.
    replace (Z.to_nat (key + 1 - soff)) with (S (Z.to_nat (key - soff))) by lia. lra.
Qed.

Lemma dense_inv_nonempty (s : Store) :
  dense_inv s -> count_ s <> 0 ->
  (offset_ s <= min_key_ s /\ min_key_ s <= max_key_ s /\
   max_key_ s < offset_ s + length s)%Z.
Proof.
  intros (_ & _ & Hsum & _ & [(Hb & _)|H]) Hc; [|exact H].
  exfalso. apply Hc. rewrite <- Hsum, Hb. reflexivity.
Qed.

Lemma dense_zero_count (s : Store) :
  dense_inv s -> (forall k, 0 <= bin_at s k) -> count_ s = 0 -> forall k, bin_at s k = 0.
Proof.
  intros (_ & _ & Hsum & _) Hn Hc k. unfold bin_at.
  apply acc_zero_nonneg.
  - unfold BinList.sum in Hsum. lra.
  - intros i. specialize (Hn (i + offset_ s)%Z). unfold bin_at in Hn.
    replace (i + offset_ s - offset_ s)%Z with i in Hn by lia. exact Hn.
Qed.

Lemma merge_extend_dense (s o : Store) :
  dense_inv s -> (min_key_ o <= max_key_ o)%Z ->
  exists s1, merge_extend s o = Ok s1 /\ dense_inv s1 /\
    (forall k, bin_at s1 k = bin_at s k) /\ count_ s1 = count_ s /\
    (min_key_ s1 <= min_key_ o)%Z /\ (max_key_ o <= max_key_ s1)%Z /\
    min_key_ s1 = Z.min (min_key_ o) (min_key_ s) /\
    max_key_ s1 = Z.max (max_key_ o) (max_key_ s).
Proof.
  intros Hi Ho. unfold merge_extend.
  destruct (orb (min_key_ o <? min_key_ s)%Z (max_key_ o >? max_key_ s)%Z) eqn:Hr.
  - destruct (extend_range_dense s (min_key_ o) (max_key_ o) Hi)
      as (s1 & E & Hi1 & Ha1 & Hc1 & Hmn & Hmx & _).
    exists s1. split; [exact E|]. split; [exact Hi1|]. split; [exact Ha1|].
    split; [exact Hc1|]. rewrite Hmn, Hmx. repeat split; lia.
  - apply Bool.orb_false_iff in Hr as [Hr1 Hr2].
    apply Z.ltb_ge in Hr1. rewrite Z.gtb_ltb in Hr2. apply Z.ltb_ge in Hr2.
    exists s. split; [reflexivity|]. split; [exact Hi|]. split; [reflexivity|].
    split; [reflexivity|]. repeat split; lia.
Qed.

Theorem dense_store_merge_ok (s o : Store) :
  dense_inv s -> dense_inv o ->
  (forall k, 0 <= bin_at s k) -> (forall k, 0 <= bin_at o k) ->
  exists s', store_merge s o = Ok s' /\ dense_inv s' /\
    (forall k, bin_at s' k = bin_at s k + bin_at o k) /\
    count_ s' = count_ s + count_ o.
Proof.
  intros Hs Ho Hns Hno. unfold store_merge, Reqb.
  destruct (Req_dec_T (count_ o) 0) as [Hco|Hco].
  { exists s. split; [reflexivity|]. split; [exact Hs|]. split; [|lra].
    intros k. rewrite (dense_zero_count o Ho Hno Hco k). lra. }
  destruct (Req_dec_T (count_ s) 0) as [Hcs|Hcs].
  { pose proof Hs as (Ht & Hch & _). pose proof Ho as (_ & _ & Hsum & Hz & Hw).
    exists (store_copy s o). split; [reflexivity|]. unfold store_copy; rewrite Ht.
    split; [|split].
    - unfold dense_inv, bin_at, length in *. st_simpl. auto 6.
    - intros k. rewrite (dense_zero_count s Hs Hns Hcs k). unfold bin_at. st_simpl. lra.
    - st_simpl. lra. }
  pose proof (dense_inv_nonempty o Ho Hco) as Hwo.
  destruct (merge_extend_dense s o Hs ltac:(lia))
    as (s1 & E & Hi1 & Ha1 & Hc1 & Hm1 & Hm2 & _ & _).
  rewrite E. cbn [bind]. pose proof Hi1 as (Ht1 & Hch1 & Hsum1 & Hz1 & _).
  pose proof Hs as (Ht & _). rewrite Ht.
  pose proof (dense_inv_window s1 (min_key_ o) Hi1 ltac:(lia)) as Hw1.
  assert (Hr : forall j, (min_key_ o <= j <
            min_key_ o + Z.of_nat (keys_between (min_key_ o) (max_key_ o)))%Z ->
            (0 <= j - offset_ s1 < BinList.size (bins_ s1))%Z).
  { unfold keys_between, length in *. intros j Hj. lia. }
  eexists. split; [reflexivity|].
  assert (Hb : forall k, bin_at (set_count (set_bins s1 (merge_bins_loop
            (keys_between (min_key_ o) (max_key_ o)) (min_key_ o) (bins_ s1) (offset_ s1)
            (bins_ o) (offset_ o))) (count_ s1 + count_ o)) k = bin_at s1 k + bin_at o k).
  { intros k. unfold bin_at. st_simpl. rewrite get_merge_bins_loop by exact Hr.
    replace (k - offset_ s1 + offset_ s1)%Z with k by lia.
    unfold keys_between.
    destruct (Z.leb_spec (min_key_ o) k),
      (Z.ltb_spec k (min_key_ o + Z.of_nat (Z.to_nat (max_key_ o - min_key_ o + 1))));
      simpl; [reflexivity| | |];
      (pose proof Ho as (_ & _ & _ & Hzo & _); unfold bin_at in Hzo;
       rewrite Hzo by lia; lra). }
  split; [|split].
  - unfold dense_inv. st_simpl. split; [exact Ht1|]. split; [exact Hch1|]. split; [|split].
    + unfold BinList.sum. rewrite acc_merge_bins_loop by (lia || exact Hr).
      pose proof Ho as (_ & _ & Hsumo & Hzo & _).
      unfold BinList.sum in Hsum1, Hsumo. rewrite Hsum1, <- Hsumo.
      unfold keys_between.
      rewrite acc_firstn_tail; [rewrite acc_skipn_head; [lra|lia|]|lia|].
      * intros i Hi. destruct (Z_lt_le_dec i 0). { apply get_out. lia. }
        specialize (Hzo (i + offset_ o)%Z). unfold bin_at in Hzo.
        replace (i + offset_ o - offset_ o)%Z with i in Hzo by lia. apply Hzo. lia.
      * intros i Hi. destruct (Z_lt_le_dec i 0). { apply get_out. lia. }
        rewrite get_skipn by lia.
        specialize (Hzo (i + (min_key_ o - offset_ o) + offset_ o)%Z). unfold bin_at in Hzo.
        replace (i + (min_key_ o - offset_ o) + offset_ o - offset_ o)%Z
          with (i + (min_key_ o - offset_ o))%Z in Hzo by lia.
        apply Hzo. lia.
    + intros k Hk. rewrite Hb, Hz1 by exact Hk.
      pose proof Ho as (_ & _ & _ & Hzo & _). rewrite Hzo by lia. lra.
    + right. unfold length in *. st_simpl. rewrite size_merge_bins_loop. lia.
  - intros k. rewrite Hb, Ha1. reflexivity.
  - st_simpl. rewrite Hc1. reflexivity.
Qed.

Lemma ceil_unique (x : R) (z : Z) : IZR z - 1 < x <= IZR z -> ceil x = z.
Proof.
  intros H. unfold ceil. rewrite (floor_unique (- x) (- z)); [lia|].
  rewrite opp_IZR. lra.
Qed.

Lemma ceil_mono (x y : R) : x <= y -> (ceil x <= ceil y)%Z.
Proof. intros H. unfold ceil. pose proof (floor_mono (- y) (- x) ltac:(lra)). lia. Qed.

Lemma trunc_mono (x y : R) : x <= y -> (trunc_to_index x <= trunc_to_index y)%Z.
Proof.
  intros H. unfold trunc_to_index.
  destruct (Rle_dec 0 x), (Rle_dec 0 y); try lra.
  - apply floor_mono. exact H.
  - destruct (ceil_spec x). destruct (floor_spec y).
    assert (IZR (ceil x) < 1).
    { destruct (ceil_spec x). lra. }
    assert (Hc : (ceil x <= 0)%Z).
    { apply Z.lt_succ_r. apply lt_IZR. rewrite succ_IZR. lra. }
    assert (Hf : (0 <= floor y)%Z).
    { apply Z.lt_succ_r. apply lt_IZR. rewrite succ_IZR. lra. }
    lia.
  - apply ceil_mono. exact H.
Qed.

Lemma mapping_gamma (k : mapping_kind) (alpha o : R) (m : KeyMapping) :
  make_mapping k alpha o = Ok m ->
  0 < alpha < 1 /\ gamma m = (1 + alpha) / (1 - alpha) /\ 1 < gamma m /\
  0 < ln (gamma m) /\
  multiplier m = match k with
                 | LogarithmicMapping => ln 2 / ln (gamma m)
                 | LinearlyInterpolatedMapping => 1 / ln (gamma m)
                 | CubicallyInterpolatedMapping => 1 / ln (gamma m) / C_
                 end /\ kind m = k /\ offset m = o.
Proof.
  intros H. apply make_mapping_ok in H as (Ha & ->). cbn.
  assert (Hg : 1 < 1 + 2 * alpha / (1 - alpha)).
  { assert (0 < 2 * alpha / (1 - alpha)) by (apply Rdiv_lt_0_compat; lra). lra. }
  split; [exact Ha|]. split; [field; lra|]. split; [exact Hg|].
  split; [rewrite <- ln_1; apply ln_increasing; lra|].
  split; [|split; reflexivity].
  unfold log1p. destruct k; unfold Rdiv; ring.
Qed.

Lemma exp2_exp (x : R) : exp2 x = exp (x * ln 2).
Proof. reflexivity. Qed.

Lemma log_value (alpha o : R) (m : KeyMapping) (k : Z) :
  make_mapping LogarithmicMapping alpha o = Ok m ->
  value m k = exp ((IZR k - o) * ln (gamma m)) * (2 / (1 + gamma m)).
Proof.
  intros H. destruct (mapping_gamma _ _ _ _ H) as (_ & _ & Hg & HL & HM & Hk & Ho).
  unfold value, pow_gamma. rewrite Hk, HM, Ho, exp2_exp. f_equal. f_equal.
  pose proof ln2_pos. field. lra.
Qed.

(** X10: for a LogarithmicMapping, value(key + 1) = gamma * value(key):
    the values of consecutive keys grow by the factor gamma. *)
Theorem log_value_ratio (alpha o : R) (m : KeyMapping) (k : Z) :
  make_mapping LogarithmicMapping alpha o = Ok m ->
  value m (k + 1) = gamma m * value m k.
Proof.
  intros H. rewrite !(log_value _ _ _ _ H).
  destruct (mapping_gamma _ _ _ _ H) as (_ & _ & Hg & _).
  rewrite plus_IZR.
  replace ((IZR k + 1 - o) * ln (gamma m)) with ((IZR k - o) * ln (gamma m) + ln (gamma m))
    by ring.
  rewrite exp_plus, exp_ln by lra. ring.
Qed.

Lemma log_log_gamma (alpha o : R) (m : KeyMapping) (v : R) :
  make_mapping LogarithmicMapping alpha o = Ok m -> 0 < v ->
  log_gamma m v = ln v / ln (gamma m).
Proof.
  intros H Hv. destruct (mapping_gamma _ _ _ _ H) as (_ & _ & Hg & HL & HM & Hk & _).
  unfold log_gamma, log2. rewrite Hk, HM. pose proof ln2_pos. field. lra.
Qed.

(** X11: for a LogarithmicMapping with an integer offset, key(value(k)) = k
    for every key k. *)
Theorem log_key_value_round_trip (alpha : R) (o : Z) (m : KeyMapping) (k : Z) :
  make_mapping LogarithmicMapping alpha (IZR o) = Ok m ->
  key m (value m k) = k.
Proof.
  intros H. destruct (mapping_gamma _ _ _ _ H) as (_ & _ & Hg & HL & _ & _ & Ho).
  rewrite (key_IZR_offset m o) by exact Ho.
  assert (Hv : 0 < value m k).
  { rewrite (log_value _ _ _ _ H). apply Rmult_lt_0_compat; [apply exp_pos|].
    apply Rdiv_lt_0_compat; lra. }
  rewrite (log_log_gamma _ _ _ _ H Hv), (log_value _ _ _ _ H).
  rewrite ln_mult, ln_exp by (try apply exp_pos; apply Rdiv_lt_0_compat; lra).
  set (g := gamma m) in *. set (L := ln g) in *.
  assert (Ht1 : ln (2 / (1 + g)) < 0).
  { rewrite <- ln_1. apply ln_increasing; [apply Rdiv_lt_0_compat; lra|].
    apply Rmult_lt_reg_r with (1 + g); [lra|]. unfold Rdiv.
    rewrite Rmult_assoc, Rinv_l by lra. lra. }
  assert (Ht2 : - L < ln (2 / (1 + g))).
  { unfold L. rewrite <- ln_Rinv by lra. apply ln_increasing; [apply Rinv_0_lt_compat; lra|].
    apply Rmult_lt_reg_r with (g * (1 + g)); [nra|].
    unfold Rdiv. replace (/ g * (g * (1 + g))) with (1 + g) by (field; lra).
    replace (2 * / (1 + g) * (g * (1 + g))) with (2 * g) by (field; lra). lra. }
  rewrite (ceil_unique _ (k - o)); [lia|].
  rewrite minus_IZR.
  replace (((IZR k - IZR o) * L + ln (2 / (1 + g))) / L)
    with (IZR k - IZR o + ln (2 / (1 + g)) / L) by (field; lra).
  split.
  - assert (- 1 < ln (2 / (1 + g)) / L).
    { apply Rmult_lt_reg_r with L; [lra|]. unfold Rdiv. rewrite Rmult_assoc, Rinv_l by lra.
      lra. }
    lra.
  - assert (ln (2 / (1 + g)) / L < 0).
    { unfold Rdiv. apply Rmult_neg_pos; [lra|]. apply Rinv_0_lt_compat. lra. }
    lra.
Qed.

Lemma pow_decomp_le (n p : Z) (s t : R) :
  0 <= s < 1 -> 0 <= t < 1 -> powerRZ 2 n * (1 + s) <= powerRZ 2 p * (1 + t) ->
  (n < p)%Z \/ (n = p /\ s <= t).
Proof.
  intros Hs Ht H.
  destruct (Z_lt_le_dec n p) as [|Hnp]; [left; assumption|right].
  destruct (Z.eq_dec n p) as [<-|Hne].
  - split; [reflexivity|]. pose proof (pow2_pos n).
    apply Rmult_le_reg_l in H; [lra|assumption].
  - exfalso. pose proof (pow2_le (p + 1) n ltac:(lia)). rewrite pow2_succ in H0.
    pose proof (pow2_pos p). pose proof (pow2_pos n). nra.
Qed.

Lemma approx_mono (P : R -> R) (n p : Z) (s t : R) :
  (forall a b, 0 <= a -> a <= b -> b < 1 -> P a <= P b) ->
  (forall a, 0 <= a < 1 -> 0 <= P a < 1) ->
  0 <= s < 1 -> 0 <= t < 1 -> powerRZ 2 n * (1 + s) <= powerRZ 2 p * (1 + t) ->
  P s + IZR n <= P t + IZR p.
Proof.
  intros Hm Hr Hs Ht H.
  destruct (pow_decomp_le n p s t Hs Ht H) as [Hlt|[<- Hle]].
  - assert (IZR n + 1 <= IZR p) by (rewrite <- plus_IZR; apply IZR_le; lia).
    destruct (Hr s Hs), (Hr t Ht). lra.
  - pose proof (Hm s t ltac:(lra) Hle ltac:(lra)). lra.
Qed.

Lemma log2_approx_at (v : R) (n : Z) (s : R) :
  frexp v = ((1 + s) / 2, (n + 1)%Z) -> log2_approx v = s + IZR n.
Proof. intros H. unfold log2_approx. rewrite H, plus_IZR. field. Qed.

Lemma cubic_log2_approx_at (v : R) (n : Z) (s : R) :
  frexp v = ((1 + s) / 2, (n + 1)%Z) ->
  cubic_log2_approx v = ((A_ * s + B_) * s + C_) * s + IZR n.
Proof.
  intros H. unfold cubic_log2_approx. rewrite H, plus_IZR.
  replace (2 * ((1 + s) / 2) - 1) with s by field. ring.
Qed.

Lemma Pcub_range (a : R) : 0 <= a < 1 -> 0 <= ((A_ * a + B_) * a + C_) * a < 1.
Proof.
  intros H. destruct (Req_dec a 0) as [->|Hne].
  - lra.
  - pose proof (Pcub_strict 0 a ltac:(lra)). pose proof (Pcub_strict a 1 ltac:(lra)).
    unfold A_, B_, C_ in *. lra.
Qed.

(** X12: for each of the three mappings, key is monotone on positive
    values: 0 < v <= w implies key(v) <= key(w). *)
Theorem key_monotone (k : mapping_kind) (alpha o : R) (m : KeyMapping) (v w : R) :
  make_mapping k alpha o = Ok m -> 0 < v -> v <= w ->
  (key m v <= key m w)%Z.
Proof.
  intros H Hv Hvw. destruct (mapping_gamma _ _ _ _ H) as (_ & _ & Hg & HL & HM & Hk & _).
  unfold key. apply trunc_mono. apply Rplus_le_compat_r. apply IZR_le. apply ceil_mono.
  unfold log_gamma. rewrite Hk.
  assert (HMp : 0 < multiplier m).
  { rewrite HM. pose proof ln2_pos.
    destruct k; repeat apply Rdiv_lt_0_compat; try lra; unfold C_; lra. }
  destruct (frexp_significand v Hv) as (n & s & Hs & Hve & Hfv).
  destruct (frexp_significand w ltac:(lra)) as (p & t & Ht & Hwe & Hfw).
  pose proof Hvw as Hvw'. rewrite Hve, Hwe in Hvw'.
  destruct k; apply Rmult_le_compat_r; try lra.
  - unfold log2. apply Rmult_le_compat_r; [left; apply Rinv_0_lt_compat, ln2_pos|].
    destruct Hvw as [Hlt|Heq]; [left|right; rewrite Heq; reflexivity].
    apply ln_increasing; [exact Hv|exact Hlt].
  - rewrite (log2_approx_at v n s Hfv), (log2_approx_at w p t Hfw).
    apply (approx_mono (fun a => a)); auto.
  - rewrite (cubic_log2_approx_at v n s Hfv), (cubic_log2_approx_at w p t Hfw).
    apply (approx_mono (fun a => ((A_ * a + B_) * a + C_) * a)); auto.
    + intros a b Ha Hab Hb. destruct (Req_dec a b) as [->|Hne]; [lra|].
      left. apply Pcub_strict. lra.
    + exact Pcub_range.
Qed.

Lemma new_DenseStore_inv : dense_inv (new_DenseStore kChunkSize).
Proof.
  unfold dense_inv, new_DenseStore, mk_store. cbn. repeat split; try lia.
  - intros k _. unfold bin_at. cbn. unfold BinList.get.
    destruct (0 <=? k - 0)%Z; [destruct (Z.to_nat (k - 0))|]; reflexivity.
  - left. repeat split.
Qed.

Lemma new_DenseStore_nonneg (k : Z) : 0 <= bin_at (new_DenseStore kChunkSize) k.
Proof.
  unfold bin_at. cbn. unfold BinList.get.
  destruct (0 <=? k - 0)%Z; [destruct (Z.to_nat (k - 0))|]; cbn; lra.
Qed.

Lemma DDSketch_mapping (alpha : R) (sk : BaseDDSketch) :
  DDSketch alpha = Ok sk -> make_mapping LogarithmicMapping alpha 0 = Ok (mapping_ sk).
Proof.
  unfold DDSketch. destruct (make_mapping LogarithmicMapping alpha 0) as [m|] eqn:E;
    [|discriminate].
  cbn. intros H. injection H as <-. reflexivity.
Qed.

Lemma DDSketch_Ok (alpha : R) (sk : BaseDDSketch) :
  DDSketch alpha = Ok sk ->
  dense_sketch_inv sk /\ sk_count_ sk = 0 /\ zero_count_ sk = 0 /\
  (forall k, bin_at (store_ sk) k = 0) /\ (forall k, bin_at (negative_store_ sk) k = 0) /\
  kind (mapping_ sk) = LogarithmicMapping /\ offset (mapping_ sk) = 0 /\
  gamma (mapping_ sk) = (1 + alpha) / (1 - alpha).
Proof.
  unfold DDSketch. destruct (make_mapping LogarithmicMapping alpha 0) as [m|] eqn:E;
    [|discriminate].
  cbn. intros H. injection H as <-. cbn.
  destruct (mapping_gamma _ _ _ _ E) as (_ & Hg & _ & _ & _ & Hk & Ho).
  assert (Hz : forall k, bin_at (new_DenseStore kChunkSize) k = 0).
  { intros k. unfold bin_at. cbn. unfold BinList.get.
    destruct (0 <=? k - 0)%Z; [destruct (Z.to_nat (k - 0))|]; reflexivity. }
  split; [|repeat split; auto].
  unfold dense_sketch_inv. cbn. split; [exact new_DenseStore_inv|].
  split; [exact new_DenseStore_inv|]. split; [exact new_DenseStore_nonneg|].
  split; [exact new_DenseStore_nonneg|]. cbn. lra.
Qed.

Lemma dense_count_nonneg (s : Store) :
  dense_inv s -> (forall k, 0 <= bin_at s k) -> 0 <= count_ s.
Proof.
  intros (_ & _ & Hsum & _) Hn. rewrite <- Hsum. apply fold_Rplus_nonneg.
  apply Forall_get; [lra|]. intros i. specialize (Hn (i + offset_ s)%Z).
  unfold bin_at in Hn. replace (i + offset_ s - offset_ s)%Z with i in Hn by lia. exact Hn.
Qed.

Lemma dense_sketch_add_ok (sk : BaseDDSketch) (v w : R) :
  dense_sketch_inv sk -> 0 < w ->
  let m := mapping_ sk in
  exists sk', sketch_add sk v w = Ok sk' /\ dense_sketch_inv sk' /\
    mapping_ sk' = m /\ sk_count_ sk' = sk_count_ sk + w /\ sum_ sk' = sum_ sk + v * w /\
    (min_possible m < v ->
       bin_at (store_ sk') (key m v) = bin_at (store_ sk) (key m v) + w /\
       (forall j, j <> key m v -> bin_at (store_ sk') j = bin_at (store_ sk) j) /\
       negative_store_ sk' = negative_store_ sk /\ zero_count_ sk' = zero_count_ sk) /\
    (v <= min_possible m -> v < - min_possible m ->
       bin_at (negative_store_ sk') (key m (- v)) =
         bin_at (negative_store_ sk) (key m (- v)) + w /\
       (forall j, j <> key m (- v) ->
          bin_at (negative_store_ sk') j = bin_at (negative_store_ sk) j) /\
       store_ sk' = store_ sk /\ zero_count_ sk' = zero_count_ sk) /\
    (v <= min_possible m -> - min_possible m <= v ->
       store_ sk' = store_ sk /\ negative_store_ sk' = negative_store_ sk /\
       zero_count_ sk' = zero_count_ sk + w).
Proof.
  intros (Hs & Hn & Hns & Hnn & Hz & Hc) Hw m.
  unfold sketch_add. destruct (Rle_dec w 0) as [|_]; [lra|]. fold m.
  destruct (Rlt_dec (min_possible m) v) as [Hv|Hv].
  - destruct (dense_store_add_ok (store_ sk) (key m v) w Hs)
      as (s' & E & Hi' & Hb' & Ho' & Hc' & _).
    rewrite E. cbn [bind].
    eexists. split; [reflexivity|]. cbn.
    split; [|split; [reflexivity|split; [reflexivity|split; [reflexivity|]]]].
    + unfold dense_sketch_inv. cbn. split; [exact Hi'|]. split; [exact Hn|].
      split; [|split; [exact Hnn|split; [exact Hz|]]].
      * intros j. destruct (Z.eq_dec j (key m v)) as [->|Hj].
        -- rewrite Hb'. specialize (Hns (key m v)). lra.
        -- rewrite Ho' by exact Hj. apply Hns.
      * rewrite Hc', Hc. lra.
    + split; [intros _; auto|]. split; intros H; lra.
  - destruct (Rlt_dec v (- min_possible m)) as [Hv2|Hv2].
    + destruct (dense_store_add_ok (negative_store_ sk) (key m (- v)) w Hn)
        as (s' & E & Hi' & Hb' & Ho' & Hc' & _).
      rewrite E. cbn [bind].
      eexists. split; [reflexivity|]. cbn.
      split; [|split; [reflexivity|split; [reflexivity|split; [reflexivity|]]]].
      * unfold dense_sketch_inv. cbn. split; [exact Hs|]. split; [exact Hi'|].
        split; [exact Hns|]. split; [|split; [exact Hz|]].
        -- intros j. destruct (Z.eq_dec j (key m (- v))) as [->|Hj].
           ++ rewrite Hb'. specialize (Hnn (key m (- v))). lra.
           ++ rewrite Ho' by exact Hj. apply Hnn.
        -- rewrite Hc', Hc. lra.
      * split; [intros H; lra|]. split; [intros _ _; auto|]. intros _ H. lra.
    + cbn [bind]. eexists. split; [reflexivity|]. cbn.
      split; [|split; [reflexivity|split; [reflexivity|split; [reflexivity|]]]].
      * unfold dense_sketch_inv. cbn. split; [exact Hs|]. split; [exact Hn|].
        split; [exact Hns|]. split; [exact Hnn|]. split; lra.
      * split; [intros H; lra|]. split; [intros _ H; lra|]. intros _ _. auto.
Qed.

Lemma dense_store_copy (s o : Store) :
  dense_inv s -> dense_inv o ->
  dense_inv (store_copy s o) /\ (forall k, bin_at (store_copy s o) k = bin_at o k) /\
  count_ (store_copy s o) = count_ o.
Proof.
  intros (Ht & Hch & _) (_ & _ & Hsum & Hz & Hw). unfold store_copy. rewrite Ht.
  unfold dense_inv, bin_at, length in *. st_simpl. auto 7.
Qed.

Lemma dense_sketch_zero (sk : BaseDDSketch) :
  dense_sketch_inv sk -> sk_count_ sk = 0 ->
  zero_count_ sk = 0 /\ (forall k, bin_at (store_ sk) k = 0) /\
  (forall k, bin_at (negative_store_ sk) k = 0).
Proof.
  intros (Hs & Hn & Hns & Hnn & Hz & Hc) H0.
  pose proof (dense_count_nonneg _ Hs Hns). pose proof (dense_count_nonneg _ Hn Hnn).
  split; [lra|]. split.
  - apply dense_zero_count; auto. lra.
  - apply dense_zero_count; auto. lra.
Qed.

(** X8: BaseDDSketch::merge(other) of two mergeable sketches (equal gamma)
    that keep dense_sketch_inv succeeds and keeps dense_sketch_inv; the
    result keeps the mapping and adds, key by key, the other's counters of
    both stores, as well as its zero_count and its count. *)
Theorem dense_sketch_merge_ok (sk o : BaseDDSketch) :
  dense_sketch_inv sk -> dense_sketch_inv o -> mergeable sk o = true ->
  exists sk', sketch_merge sk o = Ok sk' /\ dense_sketch_inv sk' /\
    mapping_ sk' = mapping_ sk /\
    (forall k, bin_at (store_ sk') k = bin_at (store_ sk) k + bin_at (store_ o) k) /\
    (forall k, bin_at (negative_store_ sk') k =
               bin_at (negative_store_ sk) k + bin_at (negative_store_ o) k) /\
    zero_count_ sk' = zero_count_ sk + zero_count_ o /\
    sk_count_ sk' = sk_count_ sk + sk_count_ o.
Proof.
  intros Hsk Ho Hm. pose proof Hsk as (Hs & Hn & Hns & Hnn & Hz & Hc).
  pose proof Ho as (Hs2 & Hn2 & Hns2 & Hnn2 & Hz2 & Hc2).
  unfold sketch_merge. rewrite Hm. cbn [negb]. unfold Reqb.
  destruct (Req_dec_T (sk_count_ o) 0) as [H0|H0].
  { destruct (dense_sketch_zero o Ho H0) as (Z1 & Z2 & Z3).
    eexists. split; [reflexivity|]. split; [exact Hsk|]. split; [reflexivity|].
    split; [intros k; rewrite Z2; lra|]. split; [intros k; rewrite Z3; lra|]. lra. }
  destruct (Req_dec_T (sk_count_ sk) 0) as [H1|H1].
  { destruct (dense_sketch_zero sk Hsk H1) as (Z1 & Z2 & Z3).
    destruct (dense_store_copy _ _ Hs Hs2) as (C1 & C2 & C3).
    destruct (dense_store_copy _ _ Hn Hn2) as (D1 & D2 & D3).
    eexists. split; [reflexivity|]. unfold sketch_copy. cbn.
    split; [|split; [reflexivity|]].
    - unfold dense_sketch_inv. cbn. split; [exact C1|]. split; [exact D1|].
      split; [intros k; rewrite C2; apply Hns2|]. split; [intros k; rewrite D2; apply Hnn2|].
      split; [exact Hz2|]. rewrite C3, D3. exact Hc2.
    - split; [intros k; rewrite C2, Z2; lra|]. split; [intros k; rewrite D2, Z3; lra|].
      lra. }
  destruct (dense_store_merge_ok _ _ Hs Hs2 Hns Hns2) as (s' & E1 & I1 & B1 & C1).
  destruct (dense_store_merge_ok _ _ Hn Hn2 Hnn Hnn2) as (n' & E2 & I2 & B2 & C2).
  rewrite E1. cbn [bind]. rewrite E2. cbn [bind].
  eexists. split; [reflexivity|]. cbn.
  split; [|split; [reflexivity|split; [exact B1|split; [exact B2|split; reflexivity]]]].
  unfold dense_sketch_inv. cbn. split; [exact I1|]. split; [exact I2|].
  split; [intros k; rewrite B1; specialize (Hns k); specialize (Hns2 k); lra|].
  split; [intros k; rewrite B2; specialize (Hnn k); specialize (Hnn2 k); lra|].
  split; [lra|]. rewrite C1, C2. lra.
Qed.

(** X9: after DDSketch(relative_accuracy) and a single add(val, weight) with
    val > min_possible and 0 < weight < 1, get_quantile_value(1) returns
    -value(INT64_MIN), which is not positive (in double arithmetic
    value(INT64_MIN) underflows and the result is -0.0), although the only
    value added is positive: the rank 1 * (count - 1) is negative, so the
    lookup goes to the empty negative store, whose key_at_rank is its
    max_key_ = INT64_MIN. *)
Theorem quantile_below_unit_weight (alpha v w : R) (sk sk' : BaseDDSketch) :
  DDSketch alpha = Ok sk -> min_possible (mapping_ sk) < v -> 0 < w < 1 ->
  sketch_add sk v w = Ok sk' ->
  get_quantile_value sk' 1 = Finite (- value (mapping_ sk) int64_min) /\
  - value (mapping_ sk) int64_min <= 0 < v.
Proof.
  intros Hsk Hv Hw Ha.
  assert (Hv0 : 0 < v).
  { destruct (make_mapping_ok _ _ _ _ (DDSketch_mapping _ _ Hsk)) as (Ha0 & Em).
    rewrite Em in Hv. cbn [min_possible] in Hv. unfold dbl_min in Hv.
    pose proof (pow2_pos (-1022)).
    assert (0 < 2 * alpha / (1 - alpha)) by (apply Rdiv_lt_0_compat; lra). nra. }
  destruct (DDSketch_Ok alpha sk Hsk) as (Hi & H0 & Hz0 & _ & _ & Hk & _ & _).
  destruct (dense_sketch_add_ok sk v w Hi ltac:(lra))
    as (sk2 & E & _ & Hm & Hc & _ & Hpos & _ & _).
  rewrite Ha in E. injection E as <-.
  destruct (Hpos Hv) as (_ & _ & Hneg & Hzc).
  assert (Hns : negative_store_ sk = new_DenseStore kChunkSize).
  { unfold DDSketch in Hsk. destruct (make_mapping LogarithmicMapping alpha 0);
      [|discriminate]. cbn in Hsk. injection Hsk as <-. reflexivity. }
  unfold get_quantile_value. rewrite Hc, H0, Hneg, Hns, Hm, Hzc, Hz0.
  unfold Rltb, Reqb. cbn [count_ new_DenseStore mk_store].
  destruct (Rlt_dec 1 0); [lra|]. destruct (Rlt_dec 1 1); [lra|].
  destruct (Req_dec_T (0 + w) 0); [lra|]. cbn [orb].
  destruct (Rlt_dec (1 * (0 + w - 1)) 0); [|lra].
  split; [reflexivity|].
  unfold DDSketch in Hsk. destruct (make_mapping LogarithmicMapping alpha 0) as [m|] eqn:Em;
    [|discriminate]. cbn in Hsk. injection Hsk as <-. cbn [mapping_ new_sketch].
  rewrite (log_value _ _ _ _ Em).
  destruct (mapping_gamma _ _ _ _ Em) as (_ & _ & Hg & _).
  assert (0 < exp ((IZR int64_min - 0) * ln (gamma m)) * (2 / (1 + gamma m))).
  { apply Rmult_lt_0_compat; [apply exp_pos|apply Rdiv_lt_0_compat; lra]. }
  split; lra.
Qed.

Lemma first_true (f : nat -> bool) (n : nat) :
  (forall j, (j < n)%nat -> f j = false) \/
  (exists i, (i < n)%nat /\ f i = true /\ forall j, (j < i)%nat -> f j = false).
Proof.
  induction n as [|n [IH|IH]].
  - left. intros j Hj. lia.
  - destruct (f n) eqn:E.
    + right. exists n. split; [lia|]. split; [exact E|]. intros j Hj. apply IH. exact Hj.
    + left. intros j Hj. destruct (Nat.eq_dec j n) as [->|Hne]; [exact E|]. apply IH. lia.
  - right. destruct IH as (i & Hi & Ht & Hf). exists i. split; [lia|]. auto.
Qed.

(** X4: On a nonempty dense store with nonnegative counters, key_at_rank
    returns a key within [min_key_, max_key_] for every rank >= 0 (lower)
    or rank > -1 (upper). *)
Theorem key_at_rank_in_key_range (s : Store) (rank : R) (lower : bool) :
  dense_inv s -> (forall k, 0 <= bin_at s k) -> count_ s <> 0 ->
  (if lower then 0 <= rank else -1 < rank) ->
  (min_key_ s <= key_at_rank s rank lower <= max_key_ s)%Z.
Proof.
  intros Hi Hn Hc Hr. pose proof (dense_inv_nonempty s Hi Hc) as W.
  pose proof Hi as (_ & _ & _ & Hz & _).
  unfold length in W. unfold key_at_rank.
  set (l := bins_ s) in *. set (o := offset_ s) in *.
  set (f := fun j => rank_test rank lower (fold_left Rplus (firstn (S j) l) 0)).
  assert (Hget : forall j : Z, (j < min_key_ s - o \/ max_key_ s - o < j)%Z ->
                 BinList.get l j = 0).
  { intros j Hj. specialize (Hz (j + o)%Z). unfold bin_at in Hz. fold l o in Hz.
    replace (j + o - o)%Z with j in Hz by lia. apply Hz. lia. }
  destruct (first_true f (List.length l)) as [Hnone|(i & Hil & Hti & Hfi)].
  - rewrite key_at_rank_loop_none by exact Hnone. lia.
  - rewrite (key_at_rank_loop_first l rank lower o (max_key_ s) i 0 0 Hil Hti Hfi).
    split.
    + destruct (Z_lt_le_dec (Z.of_nat i + o) (min_key_ s)) as [Hlt|]; [|lia].
      exfalso. unfold f in Hti.
      replace (fold_left Rplus (firstn (S i) l) 0) with 0 in Hti.
      * apply rank_test_true in Hti. destruct lower; lra.
      * symmetry. apply acc_zero. intros j.
        replace (S i) with (Z.to_nat (Z.of_nat (S i))) by lia.
        rewrite get_firstn by lia. destruct (Z.ltb_spec j (Z.of_nat (S i))); [|reflexivity].
        destruct (Z_lt_le_dec j 0); [apply get_out; lia|]. apply Hget. lia.
    + destruct (Z_le_gt_dec (Z.of_nat i + o) (max_key_ s)) as [|Hgt]; [lia|].
      exfalso. set (p := Z.to_nat (max_key_ s - o)).
      assert (Hp : (p < i)%nat) by (unfold p; lia).
      pose proof (Hfi p Hp) as Hfp. unfold f in Hfp, Hti.
      replace (fold_left Rplus (firstn (S p) l) 0)
        with (fold_left Rplus (firstn (S i) l) 0) in Hfp; [congruence|].
      change (fold_left Rplus ?x 0) with (BinList.accumulate x).
      replace (firstn (S p) l) with (firstn (Z.to_nat (Z.of_nat (S p))) (firstn (S i) l)).
      * symmetry. apply acc_firstn_tail; [lia|]. intros j Hj.
        replace (S i) with (Z.to_nat (Z.of_nat (S i))) by lia.
        rewrite get_firstn by lia. destruct (Z.ltb_spec j (Z.of_nat (S i))); [|reflexivity].
        apply Hget. unfold p in Hj. lia.
      * rewrite firstn_firstn. f_equal. lia.
Qed.

Lemma upd_zeros_first (n : Z) (f : R -> R) :
  (1 <= n)%Z -> BinList.upd (BinList.zeros n) 0 f = f 0 :: BinList.zeros (n - 1).
Proof.
  intros H. unfold BinList.upd, BinList.zeros. cbn [Z.leb Z.compare].
  replace (Z.to_nat n) with (S (Z.to_nat (n - 1))) by lia. reflexivity.
Qed.

Lemma first_bin_get (c : R) (n i : Z) :
  BinList.get (c :: BinList.zeros n) i = if (i =? 0)%Z then c else 0.
Proof.
  destruct (Z.eqb_spec i 0) as [->|Hne]; [apply get_cons_0|].
  destruct (Z_lt_le_dec i 0); [apply get_out; lia|].
  rewrite get_cons_S by lia. apply get_zeros.
Qed.

Lemma first_bin_size (c : R) (n : Z) :
  (0 <= n)%Z -> BinList.size (c :: BinList.zeros n) = (n + 1)%Z.
Proof.
  intros H. change (c :: BinList.zeros n) with ([c] ++ BinList.zeros n).
  rewrite size_app, size_zeros. unfold BinList.size at 1.
  change (List.length [c]) with 1%nat. lia.
Qed.

Lemma first_bin_sum (c : R) (n : Z) : BinList.accumulate (c :: BinList.zeros n) = c.
Proof. rewrite acc_cons, acc_zeros. lra. Qed.

Lemma size_replace_range (l : list R) (cs ce : Z) :
  (0 <= cs <= ce)%Z -> (ce <= BinList.size l)%Z ->
  BinList.size (BinList.replace_range_with_zeros l cs ce (ce - cs)) = BinList.size l.
Proof.
  intros H1 H2. unfold BinList.replace_range_with_zeros.
  rewrite !size_app, size_zeros, size_firstn, size_skipn by lia. lia.
Qed.

Lemma get_replace_range (l : list R) (cs ce i : Z) :
  (0 <= cs <= ce)%Z -> (ce <= BinList.size l)%Z ->
  BinList.get (BinList.replace_range_with_zeros l cs ce (ce - cs)) i =
  if andb (cs <=? i)%Z (i <? ce)%Z then 0 else BinList.get l i.
Proof.
  intros H1 H2. unfold BinList.replace_range_with_zeros.
  destruct (Z_lt_le_dec i cs).
  - rewrite get_app_l by (rewrite size_firstn; lia). rewrite get_firstn by lia.
    destruct (Z.ltb_spec i cs); [|lia]. destruct (Z.leb_spec cs i); [lia|]. reflexivity.
  - rewrite get_app_r by (rewrite size_firstn; lia). rewrite size_firstn by lia.
    destruct (Z.leb_spec cs i); [|lia].
    destruct (Z_lt_le_dec i ce).
    + rewrite get_app_l by (rewrite size_zeros; lia). rewrite get_zeros.
      destruct (Z.ltb_spec i ce); [reflexivity|lia].
    + rewrite get_app_r by (rewrite size_zeros; lia). rewrite size_zeros.
      rewrite get_skipn by lia. destruct (Z.ltb_spec i ce); [lia|]. cbn [andb].
      f_equal. lia.
Qed.

Lemma acc_replace_range (l : list R) (cs ce : Z) :
  (0 <= cs <= ce)%Z ->
  BinList.accumulate (BinList.replace_range_with_zeros l cs ce (ce - cs)) +
  BinList.accumulate (firstn (Z.to_nat (ce - cs)) (skipn (Z.to_nat cs) l)) =
  BinList.accumulate l.
Proof.
  intros H. unfold BinList.replace_range_with_zeros.
  rewrite !acc_app, acc_zeros.
  assert (E1 : BinList.accumulate l = BinList.accumulate (firstn (Z.to_nat cs) l) +
                BinList.accumulate (skipn (Z.to_nat cs) l))
    by (rewrite <- acc_app, firstn_skipn; reflexivity).
  assert (E2 : BinList.accumulate (skipn (Z.to_nat cs) l) =
                BinList.accumulate (firstn (Z.to_nat (ce - cs)) (skipn (Z.to_nat cs) l)) +
                BinList.accumulate (skipn (Z.to_nat (ce - cs)) (skipn (Z.to_nat cs) l)))
    by (rewrite <- acc_app, firstn_skipn; reflexivity).
  rewrite skipn_skipn in E2.
  replace (Z.to_nat (ce - cs) + Z.to_nat cs)%nat with (Z.to_nat ce) in E2 by lia. lra.
Qed.

Lemma get_new_length_cl (s : Store) (a b : Z) :
  store_type s <> DenseStore -> (0 < chunk_size_ s)%Z -> (a <= b)%Z ->
  (get_new_length s a b <= bin_limit_ s)%Z /\
  (get_new_length s a b < b - a + 1 -> get_new_length s a b = bin_limit_ s)%Z.
Proof.
  intros Ht Hc Hab. unfold get_new_length.
  destruct (store_type s); [congruence| |];
  pose proof (Z.div_mod (b - a + 1 + chunk_size_ s - 1) (chunk_size_ s));
  pose proof (Z.mod_pos_bound (b - a + 1 + chunk_size_ s - 1) (chunk_size_ s));
  lia.
Qed.

(** The lowest-collapsing adjust(k, max_key_) called by extend_range(k) with
    k below min_key_, on a store not yet collapsed. *)
Lemma cl_adjust_left (s : Store) (k : Z) :
  store_type s = CollapsingLowestDenseStore -> (0 < chunk_size_ s)%Z ->
  (0 < bin_limit_ s)%Z -> BinList.sum (bins_ s) = count_ s ->
  (forall j, (j < min_key_ s \/ max_key_ s < j)%Z -> bin_at s j = 0) ->
  (offset_ s <= min_key_ s <= max_key_ s)%Z -> (max_key_ s < offset_ s + length s)%Z ->
  (length s <= bin_limit_ s)%Z -> is_collapsed_ s = false -> (k < min_key_ s)%Z ->
  ((length s < max_key_ s - k + 1)%Z -> length s = bin_limit_ s) ->
  exists s1, adjust s k (max_key_ s) = Ok s1 /\ cl_inv s1 /\
    count_ s1 = count_ s /\ max_key_ s1 = max_key_ s /\
    (forall j, (min_key_ s1 < j)%Z -> bin_at s1 j = bin_at s j) /\
    (is_collapsed_ s1 = false -> min_key_ s1 = k) /\
    (is_collapsed_ s1 = true -> (k < min_key_ s1)%Z) /\
    (min_key_ s1 <= max_key_ s1)%Z.
Proof.
  intros Ht Hch Hbl Hsum Hz Hw1 Hw2 Hlb Hcol Hk HL.
  unfold adjust. rewrite Ht. rewrite Z.gtb_ltb. cbv zeta.
  destruct (Z.ltb_spec (length s) (max_key_ s - k + 1)) as [Hd|Hd].
  - specialize (HL Hd). rewrite Z.geb_leb.
    set (nm := (max_key_ s - length s + 1)%Z).
    destruct (Z.leb_spec (max_key_ s) nm) as [Hf|Hf].
    + (* everything in the first bin *)
      unfold BinList.initialize_with_zeros. rewrite upd_zeros_first by lia.
      eexists. split; [reflexivity|].
      assert (Hb : forall j, bin_at (set_collapsed (set_keys (set_bins (set_offset s nm)
                     (count_ s :: BinList.zeros (length s - 1))) nm (max_key_ s))) j =
                     if (j =? nm)%Z then count_ s else 0).
      { intros j. unfold bin_at. st_simpl. rewrite first_bin_get.
        destruct (Z.eqb_spec (j - nm) 0), (Z.eqb_spec j nm); try lia; reflexivity. }
      unfold cl_inv, length in *. st_simpl.
      rewrite first_bin_size by lia.
      split; [|split; [reflexivity|split; [reflexivity|split; [|split; [|split; [|unfold nm in *; lia]]]]]].
      * split; [exact Ht|]. split; [exact Hch|]. split; [exact Hbl|].
        split; [unfold BinList.sum; apply first_bin_sum|]. split.
        -- intros j Hj. rewrite Hb. destruct (Z.eqb_spec j nm); [lia|reflexivity].
        -- split; [right; lia|]. split; [lia|]. intros _. split; [reflexivity|lia].
      * intros j Hj. rewrite Hb. destruct (Z.eqb_spec j nm); [lia|].
        symmetry. apply Hz. lia.
      * intros H. discriminate H.
      * intros _. lia.
    + (* shift the bins up *)
      destruct (Z.ltb_spec (offset_ s - nm) 0) as [Hs|Hs]; [unfold nm in Hs; lia|].
      set (s3 := set_keys s nm (max_key_ s)).
      destruct (shift_bins_ok s3 (offset_ s - nm)) as (Hl & Ha & Hsm & Ho).
      * unfold s3, length in *. st_simpl. unfold nm. lia.
      * intros j Hj. unfold s3, bin_at, length in *. st_simpl. apply Hz. unfold nm in Hj. lia.
      * pose proof (shift_bins_fields s3 (offset_ s - nm)) as (Ft & Fc & Fmn & Fmx & Fch).
        fold s3. set (s4 := shift_bins s3 (offset_ s - nm)) in *.
        eexists. split; [reflexivity|].
        unfold s3 in *. st_simpl.
        assert (Hbl4 : bin_limit_ s4 = bin_limit_ s) by reflexivity.
        unfold cl_inv, bin_at, length in *. st_simpl.
        rewrite ?Ft, ?Fc, ?Fmn, ?Fmx, ?Fch, ?Hbl4, ?Hl, ?Ho, ?Hsm.
        split; [|split; [reflexivity|split; [reflexivity|split; [|split; [|split; [|unfold nm in *; lia]]]]]].
        -- split; [exact Ht|]. split; [exact Hch|]. split; [exact Hbl|].
           split; [exact Hsum|]. split.
           ++ intros j Hj. rewrite Ha. apply Hz. unfold nm in *. lia.
           ++ split; [right; unfold nm in *; lia|]. split; [lia|].
              intros _. split; [lia|exact HL].
        -- intros j _. apply Ha.
        -- intros H. discriminate H.
        -- intros _. unfold nm. lia.
  - (* centre the bins *)
    destruct (center_bins_ok s k (max_key_ s)) as (Hl & Ha & Hsm & Hoa & Hob);
      [lia|lia|lia|lia|intros j Hj; apply Hz; lia|].
    pose proof (center_bins_fields s k (max_key_ s)) as (Ft & Fc & _ & _ & Fch).
    eexists. split; [reflexivity|].
    set (c := center_bins s k (max_key_ s)) in *.
    assert (Hbl4 : bin_limit_ c = bin_limit_ s) by reflexivity.
    assert (Hc4 : is_collapsed_ c = is_collapsed_ s) by reflexivity.
    unfold cl_inv, bin_at, length in *. st_simpl.
    rewrite Ft, Fc, Fch, Hbl4, Hc4, Hl, Hsm.
    split; [|split; [reflexivity|split; [reflexivity|split; [|split; [|split; [|lia]]]]]].
    + split; [exact Ht|]. split; [exact Hch|]. split; [exact Hbl|].
      split; [exact Hsum|]. split.
      * intros j Hj. rewrite Ha. apply Hz. lia.
      * split; [right; lia|]. split; [lia|]. rewrite Hcol. intros H; discriminate H.
    + intros j _. apply Ha.
    + intros _. reflexivity.
    + rewrite Hcol. intros H; discriminate H.
Qed.

Lemma collapsed_count_ok (l : list R) (cs ce : Z) :
  (0 <= cs)%Z -> (cs <= BinList.size l)%Z -> (0 <= ce)%Z -> (ce <= BinList.size l)%Z ->
  BinList.collapsed_count l cs ce =
  Ok (BinList.accumulate (firstn (Z.to_nat (ce - cs)) (skipn (Z.to_nat cs) l))).
Proof.
  intros H1 H2 H3 H4. unfold BinList.collapsed_count, BinList.index_outside_bounds.
  destruct (Z.ltb_spec cs 0), (Z.ltb_spec (BinList.size l) cs),
    (Z.ltb_spec ce 0), (Z.ltb_spec (BinList.size l) ce); try lia. reflexivity.
Qed.

(** The lowest-collapsing adjust(min_key_, k) called by extend_range(k) with
    k above max_key_ and outside the bins. *)
Lemma cl_adjust_right (s : Store) (k : Z) :
  store_type s = CollapsingLowestDenseStore -> (0 < chunk_size_ s)%Z ->
  (0 < bin_limit_ s)%Z -> BinList.sum (bins_ s) = count_ s ->
  (forall j, (j < min_key_ s \/ max_key_ s < j)%Z -> bin_at s j = 0) ->
  (offset_ s <= min_key_ s <= max_key_ s)%Z -> (max_key_ s < offset_ s + length s)%Z ->
  (length s <= bin_limit_ s)%Z -> (max_key_ s < k)%Z ->
  (is_collapsed_ s = true ->
     offset_ s = min_key_ s /\ length s = bin_limit_ s /\ (offset_ s + length s <= k)%Z) ->
  ((length s < k - min_key_ s + 1)%Z -> length s = bin_limit_ s) ->
  exists s1, adjust s (min_key_ s) k = Ok s1 /\ cl_inv s1 /\
    count_ s1 = count_ s /\ max_key_ s1 = k /\
    (forall j, (min_key_ s1 < j)%Z -> bin_at s1 j = bin_at s j) /\
    (is_collapsed_ s1 = false -> min_key_ s1 = min_key_ s) /\
    (min_key_ s1 <= max_key_ s1)%Z.
Proof.
  intros Ht Hch Hbl Hsum Hz Hw1 Hw2 Hlb Hk Hcol HL.
  unfold adjust. rewrite Ht. rewrite Z.gtb_ltb. cbv zeta.
  destruct (Z.ltb_spec (length s) (k - min_key_ s + 1)) as [Hd|Hd].
  - specialize (HL Hd). rewrite Z.geb_leb.
    set (nm := (k - length s + 1)%Z).
    destruct (Z.leb_spec (max_key_ s) nm) as [Hf|Hf].
    + (* everything in the first bin *)
      unfold BinList.initialize_with_zeros. rewrite upd_zeros_first by lia.
      eexists. split; [reflexivity|].
      assert (Hb : forall j, bin_at (set_collapsed (set_keys (set_bins (set_offset s nm)
                     (count_ s :: BinList.zeros (length s - 1))) nm k)) j =
                     if (j =? nm)%Z then count_ s else 0).
      { intros j. unfold bin_at. st_simpl. rewrite first_bin_get.
        destruct (Z.eqb_spec (j - nm) 0), (Z.eqb_spec j nm); try lia; reflexivity. }
      unfold cl_inv, length in *. st_simpl.
      rewrite first_bin_size by lia.
      split; [|split; [reflexivity|split; [reflexivity|split; [|split; [|unfold nm in *; lia]]]]].
      * split; [exact Ht|]. split; [exact Hch|]. split; [exact Hbl|].
        split; [unfold BinList.sum; apply first_bin_sum|]. split.
        -- intros j Hj. rewrite Hb. destruct (Z.eqb_spec j nm); [lia|reflexivity].
        -- split; [right; unfold nm; lia|]. split; [lia|]. intros _. split; [reflexivity|lia].
      * intros j Hj. rewrite Hb. destruct (Z.eqb_spec j nm); [lia|].
        symmetry. apply Hz. lia.
      * intros H. discriminate H.
    + destruct (Z.ltb_spec (offset_ s - nm) 0) as [Hs|Hs].
      * (* collapse the lowest bins into the bin of nm, then shift down *)
        pose proof (size_nonneg (bins_ s)) as HL0. unfold length in *.
        set (cs := (min_key_ s - offset_ s)%Z).
        set (ce := (nm - offset_ s)%Z).
        assert (Hcs : (0 <= cs < ce)%Z) by (unfold cs, ce, nm in *; lia).
        assert (Hce : (ce < BinList.size (bins_ s))%Z) by (unfold ce; lia).
        rewrite collapsed_count_ok by lia. cbn [bind].
        replace (nm - min_key_ s)%Z with (ce - cs)%Z by (unfold ce, cs; lia).
        set (c := BinList.accumulate (firstn (Z.to_nat (ce - cs))
                                             (skipn (Z.to_nat cs) (bins_ s)))).
        set (b := BinList.add_at (BinList.replace_range_with_zeros (bins_ s) cs ce (ce - cs))
                                 ce c).
        set (s3 := set_keys (set_bins s b) nm (max_key_ s)).
        assert (Hsz : BinList.size b = BinList.size (bins_ s)).
        { unfold b. rewrite size_add_at, size_replace_range by lia. reflexivity. }
        assert (Hb3 : forall j, bin_at s3 j =
                  if (j <? nm)%Z then 0 else if (j =? nm)%Z then bin_at s j + c
                  else bin_at s j).
        { intros j. unfold bin_at, s3, b. st_simpl. rewrite get_add_at.
          rewrite size_replace_range by lia. rewrite get_replace_range by lia.
          destruct (Z.ltb_spec j nm), (Z.eqb_spec j nm); try lia.
          - destruct (Z.eqb_spec (j - offset_ s) ce); [unfold ce in *; lia|]. cbn [andb].
            destruct (Z.leb_spec cs (j - offset_ s)), (Z.ltb_spec (j - offset_ s) ce);
              cbn [andb]; try reflexivity; try (unfold ce in *; lia).
            apply Hz. unfold cs in *. lia.
          - subst j. destruct (Z.eqb_spec (nm - offset_ s) ce); [|unfold ce in *; lia].
            destruct (Z.leb_spec 0 ce), (Z.ltb_spec ce (BinList.size (bins_ s))); try lia.
            cbn [andb]. destruct (Z.ltb_spec (nm - offset_ s) ce); [unfold ce in *; lia|].
            rewrite Bool.andb_false_r. reflexivity.
          - destruct (Z.eqb_spec (j - offset_ s) ce); [unfold ce in *; lia|]. cbn [andb].
            destruct (Z.ltb_spec (j - offset_ s) ce); [unfold ce in *; lia|].
            rewrite Bool.andb_false_r. reflexivity. }
        assert (Hsum3 : BinList.sum (bins_ s3) = count_ s).
        { unfold s3, b, BinList.sum in *. st_simpl.
          rewrite acc_add_at by (rewrite size_replace_range by lia; lia).
          pose proof (acc_replace_range (bins_ s) cs ce ltac:(lia)). fold c in H. lra. }
        destruct (shift_bins_ok s3 (offset_ s - nm)) as (Hl & Ha & Hsm & Ho).
        -- unfold s3, length in *. st_simpl. rewrite Hsz. unfold ce in *. lia.
        -- intros j Hj. rewrite Hb3. destruct (Z.ltb_spec j nm); [reflexivity|].
           unfold s3 in Hj. st_simpl. lia.
        -- pose proof (shift_bins_fields s3 (offset_ s - nm)) as (Ft & Fc & Fmn & Fmx & Fch).
           fold b s3. set (s4 := shift_bins s3 (offset_ s - nm)) in *.
           eexists. split; [reflexivity|].
           assert (Hbl4 : bin_limit_ s4 = bin_limit_ s) by reflexivity.
           assert (Hl3 : length s3 = BinList.size (bins_ s))
             by (unfold length, s3; st_simpl; exact Hsz).
           unfold s3 in Ft, Fc, Fmn, Fmx, Fch. st_simpl.
           unfold cl_inv. st_simpl. rewrite Ft, Fc, Fmn, Fch, Hbl4.
           assert (Hbin : forall j, bin_at (set_collapsed (set_keys s4 nm k)) j = bin_at s3 j).
           { intros j. unfold bin_at in *. st_simpl. apply Ha. }
           assert (Hlen : length (set_collapsed (set_keys s4 nm k)) = BinList.size (bins_ s)).
           { unfold length in *. st_simpl. rewrite Hl. exact Hl3. }
           assert (Hoff : offset_ s4 = nm).
           { rewrite Ho. unfold s3. st_simpl. lia. }
           rewrite Hlen, Hoff.
           split; [|split; [reflexivity|split; [reflexivity|split; [|split; [|unfold nm in *; lia]]]]].
           ++ split; [exact Ht|]. split; [exact Hch|]. split; [exact Hbl|]. split.
              { unfold BinList.sum in *. st_simpl. rewrite Hsm. exact Hsum3. }
              split.
              { intros j Hj. rewrite Hbin, Hb3. destruct (Z.ltb_spec j nm); [reflexivity|].
                destruct (Z.eqb_spec j nm); [lia|]. apply Hz. lia. }
              split; [right; unfold nm; lia|]. split; [lia|]. intros _. split; [reflexivity|].
              exact HL.
           ++ intros j Hj. rewrite Hbin, Hb3. destruct (Z.ltb_spec j nm); [lia|].
              destruct (Z.eqb_spec j nm); [lia|reflexivity].
           ++ intros H. discriminate H.
      * (* shift the bins up *)
        set (s3 := set_keys s nm (max_key_ s)).
        destruct (shift_bins_ok s3 (offset_ s - nm)) as (Hl & Ha & Hsm & Ho).
        -- unfold s3, length in *. st_simpl. unfold nm. lia.
        -- intros j Hj. unfold s3, bin_at, length in *. st_simpl. apply Hz. unfold nm in Hj. lia.
        -- pose proof (shift_bins_fields s3 (offset_ s - nm)) as (Ft & Fc & Fmn & Fmx & Fch).
           fold s3. set (s4 := shift_bins s3 (offset_ s - nm)) in *.
           eexists. split; [reflexivity|].
           unfold s3 in *. st_simpl.
           assert (Hbl4 : bin_limit_ s4 = bin_limit_ s) by reflexivity.
           unfold cl_inv, bin_at, length in *. st_simpl.
           rewrite ?Ft, ?Fc, ?Fmn, ?Fmx, ?Fch, ?Hbl4, ?Hl, ?Ho, ?Hsm.
           split; [|split; [reflexivity|split; [reflexivity|split; [|split; [|unfold nm in *; lia]]]]].
           ++ split; [exact Ht|]. split; [exact Hch|]. split; [exact Hbl|].
              split; [exact Hsum|]. split.
              ** intros j Hj. rewrite Ha. apply Hz. unfold nm in *. lia.
              ** split; [right; unfold nm in *; lia|]. split; [lia|].
                 intros _. split; [lia|exact HL].
           ++ intros j _. apply Ha.
           ++ intros H. discriminate H.
  - (* centre the bins *)
    assert (Hcol' : is_collapsed_ s = false).
    { destruct (is_collapsed_ s) eqn:E; [|reflexivity].
      destruct (Hcol eq_refl) as (H1 & H2 & H3). lia. }
    destruct (center_bins_ok s (min_key_ s) k) as (Hl & Ha & Hsm & Hoa & Hob);
      [lia|lia|lia|lia|intros j Hj; apply Hz; lia|].
    pose proof (center_bins_fields s (min_key_ s) k) as (Ft & Fc & _ & _ & Fch).
    eexists. split; [reflexivity|].
    set (c := center_bins s (min_key_ s) k) in *.
    assert (Hbl4 : bin_limit_ c = bin_limit_ s) by reflexivity.
    assert (Hc4 : is_collapsed_ c = is_collapsed_ s) by reflexivity.
    unfold cl_inv, bin_at, length in *. st_simpl.
    rewrite Ft, Fc, Fch, Hbl4, Hc4, Hl, Hsm.
    split; [|split; [reflexivity|split; [reflexivity|split; [|split; [|lia]]]]].
    + split; [exact Ht|]. split; [exact Hch|]. split; [exact Hbl|].
      split; [exact Hsum|]. split.
      * intros j Hj. rewrite Ha. apply Hz. lia.
      * split; [right; lia|]. split; [lia|]. rewrite Hcol'. intros H; discriminate H.
    + intros j _. apply Ha.
    + intros _. reflexivity.
Qed.

Lemma cl_inv_window (s : Store) :
  cl_inv s -> (min_key_ s <= max_key_ s)%Z ->
  (offset_ s <= min_key_ s /\ min_key_ s <= max_key_ s /\
   max_key_ s < offset_ s + length s)%Z.
Proof.
  intros (_ & _ & _ & _ & _ & [(_ & H1 & H2)|H] & _) Hm; [|exact H].
  unfold int64_max, int64_min in *. lia.
Qed.

Lemma cl_grow (s : Store) (a b : Z) :
  store_type s = CollapsingLowestDenseStore -> (0 < chunk_size_ s)%Z -> (a <= b)%Z ->
  (length s <= bin_limit_ s)%Z ->
  let s2 := if (get_new_length s a b >? length s)%Z
            then set_bins s (BinList.extend_back_with_zeros (bins_ s)
                               (get_new_length s a b - length s))
            else s in
  store_type s2 = store_type s /\ chunk_size_ s2 = chunk_size_ s /\
  bin_limit_ s2 = bin_limit_ s /\ count_ s2 = count_ s /\ offset_ s2 = offset_ s /\
  min_key_ s2 = min_key_ s /\ max_key_ s2 = max_key_ s /\
  is_collapsed_ s2 = is_collapsed_ s /\
  (forall j, bin_at s2 j = bin_at s j) /\ BinList.sum (bins_ s2) = BinList.sum (bins_ s) /\
  (length s <= length s2 <= bin_limit_ s)%Z /\
  ((length s2 < b - a + 1)%Z -> length s2 = bin_limit_ s) /\
  (length s = bin_limit_ s -> s2 = s).
Proof.
  intros Ht Hc Hab Hl s2.
  destruct (get_new_length_cl s a b ltac:(rewrite Ht; discriminate) Hc Hab) as (G1 & G2).
  unfold s2. destruct (Z.gtb_spec (get_new_length s a b) (length s)).
  - unfold bin_at, length, BinList.extend_back_with_zeros, BinList.sum in *. st_simpl.
    rewrite size_app, size_zeros, acc_app, acc_zeros.
    repeat split; try lia; try lra.
    intros j. apply get_app_zeros.
  - repeat split; try lia.
Qed.

Lemma cl_extend_empty (s : Store) (k : Z) :
  cl_inv s -> bins_ s = [] -> (int64_min <= k <= int64_max)%Z ->
  exists s1, extend_range s k k = Ok s1 /\ cl_inv s1 /\ count_ s1 = count_ s /\
    min_key_ s1 = k /\ max_key_ s1 = k /\ is_collapsed_ s1 = false /\
    (forall j, bin_at s1 j = bin_at s j).
Proof.
  intros Hi Hb Hk. pose proof Hi as (Ht & Hch & Hbl & Hsum & Hz & Hw & Hlb & Hcol).
  assert (Hl0 : length s = 0%Z) by (unfold length; rewrite Hb; reflexivity).
  assert (Hmm : min_key_ s = int64_max /\ max_key_ s = int64_min).
  { destruct Hw as [(_ & H1 & H2)|H]; [auto|lia]. }
  assert (Hc0 : is_collapsed_ s = false).
  { destruct (is_collapsed_ s) eqn:E; [|reflexivity]. destruct (Hcol eq_refl). lia. }
  assert (Hb0 : forall j, bin_at s j = 0).
  { intros j. unfold bin_at. rewrite Hb. apply get_out. cbn. lia. }
  assert (Hcount : count_ s = 0) by (rewrite <- Hsum, Hb; reflexivity).
  unfold extend_range. destruct Hmm as (Hmn & Hmx).
  replace (Z.min k (Z.min k (min_key_ s))) with k by (rewrite Hmn; lia).
  replace (Z.max k (Z.max k (max_key_ s))) with k by (rewrite Hmx; lia).
  unfold is_empty. rewrite Hl0. cbn [Z.eqb]. cbv zeta.
  destruct (get_new_length_cl s k k ltac:(rewrite Ht; discriminate) Hch ltac:(lia))
    as (G1 & G2).
  set (L := get_new_length s k k) in *.
  assert (HL1 : (1 <= L)%Z) by (destruct (Z_lt_le_dec L 1); [specialize (G2 ltac:(lia)); lia|lia]).
  set (s0 := set_offset (set_bins s (BinList.initialize_with_zeros L)) k).
  assert (Hl1 : length s0 = L).
  { unfold s0, length, BinList.initialize_with_zeros. st_simpl. rewrite size_zeros. lia. }
  assert (Hz1 : forall j, bin_at s0 j = 0).
  { intros j. unfold bin_at, s0, BinList.initialize_with_zeros. st_simpl. apply get_zeros. }
  destruct (center_bins_ok s0 k k) as (Hl & Ha & Hs & Ho1 & Ho2);
    [lia|lia|unfold s0; st_simpl; lia|rewrite Hl1; unfold s0; st_simpl; lia
    |intros; apply Hz1|].
  pose proof (center_bins_fields s0 k k) as (Ft & Fc & _ & _ & Fch).
  unfold adjust. replace (store_type s0) with CollapsingLowestDenseStore
    by (unfold s0; st_simpl; auto).
  rewrite Hl1. destruct (Z.gtb_spec (k - k + 1) L) as [Hg|_]; [lia|].
  eexists. split; [reflexivity|].
  set (c := center_bins s0 k k) in *.
  assert (Hbl4 : bin_limit_ c = bin_limit_ s) by reflexivity.
  assert (Hc4 : is_collapsed_ c = is_collapsed_ s) by reflexivity.
  unfold s0, BinList.initialize_with_zeros in Ft, Fc, Fch, Hs. st_simpl.
  unfold cl_inv. st_simpl. rewrite Ft, Fc, Fch, Hbl4, Hc4.
  split; [|split; [reflexivity|split; [reflexivity|split; [reflexivity|split; [exact Hc0|]]]]].
  - split; [exact Ht|]. split; [exact Hch|]. split; [exact Hbl|].
    split; [unfold BinList.sum in *; rewrite Hs, acc_zeros; lra|]. split.
    + intros j _. unfold bin_at in *. st_simpl. rewrite Ha. apply Hz1.
    + unfold length in *. st_simpl. rewrite Hl, Hl1.
      split; [right; lia|]. split; [lia|]. rewrite Hc0. intros H; discriminate H.
  - intros j. unfold bin_at in *. st_simpl. rewrite Ha, Hz1, Hb0. reflexivity.
Qed.

Lemma cl_extend_left (s : Store) (k : Z) :
  cl_inv s ->
  (offset_ s <= min_key_ s /\ min_key_ s <= max_key_ s /\
   max_key_ s < offset_ s + length s)%Z ->
  is_collapsed_ s = false -> (k < min_key_ s)%Z ->
  exists s1, extend_range s k k = Ok s1 /\ cl_inv s1 /\
    count_ s1 = count_ s /\ max_key_ s1 = max_key_ s /\
    (forall j, (min_key_ s1 < j)%Z -> bin_at s1 j = bin_at s j) /\
    (is_collapsed_ s1 = false -> min_key_ s1 = k) /\
    (is_collapsed_ s1 = true -> (k < min_key_ s1)%Z) /\
    (min_key_ s1 <= max_key_ s1)%Z.
Proof.
  intros Hi Hw Hc Hk. pose proof Hi as (Ht & Hch & Hbl & Hsum & Hz & _ & Hlb & _).
  unfold extend_range.
  replace (Z.min k (Z.min k (min_key_ s))) with k by lia.
  replace (Z.max k (Z.max k (max_key_ s))) with (max_key_ s) by lia.
  unfold is_empty. destruct (Z.eqb_spec (length s) 0) as [|_]; [lia|].
  rewrite Z.geb_leb. destruct (Z.leb_spec (min_key_ s) k) as [|_]; [lia|]. cbn [andb].
  cbv zeta.
  destruct (cl_grow s k (max_key_ s) Ht Hch ltac:(lia) Hlb)
    as (G1 & G2 & G3 & G4 & G5 & G6 & G7 & G8 & G9 & G10 & G11 & G12 & _).
  set (s2 := if (get_new_length s k (max_key_ s) >? length s)%Z then _ else s) in *.
  destruct (cl_adjust_left s2 k) as (s1 & E & I1 & C1 & M1 & B1 & F1 & T1 & MM1);
    try congruence; try lia.
  - intros j Hj. rewrite G9. apply Hz. lia.
  - rewrite G7 in E. exists s1. split; [exact E|]. split; [exact I1|].
    split; [congruence|]. split; [lia|]. split; [intros j Hj; rewrite B1, G9 by exact Hj; reflexivity|].
    auto.
Qed.

Lemma cl_extend_right (s : Store) (k : Z) :
  cl_inv s ->
  (offset_ s <= min_key_ s /\ min_key_ s <= max_key_ s /\
   max_key_ s < offset_ s + length s)%Z ->
  (max_key_ s < k)%Z ->
  exists s1, extend_range s k k = Ok s1 /\ cl_inv s1 /\
    count_ s1 = count_ s /\ max_key_ s1 = k /\
    (forall j, (min_key_ s1 < j)%Z -> bin_at s1 j = bin_at s j) /\
    (is_collapsed_ s1 = false -> min_key_ s1 = min_key_ s) /\
    (min_key_ s1 <= max_key_ s1)%Z.
Proof.
  intros Hi Hw Hk. pose proof Hi as (Ht & Hch & Hbl & Hsum & Hz & _ & Hlb & Hcol).
  unfold extend_range.
  replace (Z.min k (Z.min k (min_key_ s))) with (min_key_ s) by lia.
  replace (Z.max k (Z.max k (max_key_ s))) with k by lia.
  unfold is_empty. destruct (Z.eqb_spec (length s) 0) as [|_]; [lia|].
  rewrite Z.geb_leb, Z.leb_refl. cbn [andb].
  destruct (Z.ltb_spec k (offset_ s + length s)) as [Hin|Hout].
  - eexists. split; [reflexivity|].
    unfold cl_inv, bin_at, length in *. st_simpl.
    split; [|split; [reflexivity|split; [reflexivity|split; [|split]]]].
    + split; [exact Ht|]. split; [exact Hch|]. split; [exact Hbl|].
      split; [exact Hsum|]. split.
      * intros j Hj. apply Hz. lia.
      * split; [right; lia|]. split; [exact Hlb|]. exact Hcol.
    + intros j _. reflexivity.
    + intros _. reflexivity.
    + lia.
  - cbv zeta.
    destruct (cl_grow s (min_key_ s) k Ht Hch ltac:(lia) Hlb)
      as (G1 & G2 & G3 & G4 & G5 & G6 & G7 & G8 & G9 & G10 & G11 & G12 & G13).
    set (s2 := if (get_new_length s (min_key_ s) k >? length s)%Z then _ else s) in *.
    destruct (cl_adjust_right s2 k) as (s1 & E & I1 & C1 & M1 & B1 & F1 & MM1);
      try congruence; try lia.
    + intros j Hj. rewrite G9. apply Hz. lia.
    + intros Hc2. rewrite G8 in Hc2. destruct (Hcol Hc2) as (H1 & H2).
      specialize (G13 H2). rewrite G13. lia.
    + rewrite G6 in E. exists s1. split; [exact E|]. split; [exact I1|].
      split; [congruence|]. split; [lia|].
      split; [intros j Hj; rewrite B1, G9 by exact Hj; reflexivity|].
      split; [intros H; rewrite F1 by exact H; exact G6|exact MM1].
Qed.

Lemma cl_add_at (s : Store) (i : Z) (w : R) :
  cl_inv s -> (min_key_ s <= offset_ s + i <= max_key_ s)%Z ->
  let s' := set_count (set_bins s (BinList.add_at (bins_ s) i w)) (count_ s + w) in
  cl_inv s' /\
  (forall j, bin_at s' j = bin_at s j + if (j =? offset_ s + i)%Z then w else 0).
Proof.
  intros Hi Hk s'. pose proof (cl_inv_window s Hi ltac:(lia)) as Hw.
  destruct Hi as (Ht & Hc & Hbl & Hsum & Hz & _ & Hlb & Hcol).
  assert (Hb : forall j, bin_at s' j =
            bin_at s j + if (j =? offset_ s + i)%Z then w else 0).
  { intros j. unfold s', bin_at. st_simpl. rewrite get_add_at.
    unfold length in Hw.
    destruct (Z.eqb_spec j (offset_ s + i)), (Z.eqb_spec (j - offset_ s) i); try lia.
    - destruct (Z.leb_spec 0 i), (Z.ltb_spec i (BinList.size (bins_ s))); try lia.
      reflexivity.
    - cbn [andb]. lra. }
  split; [|exact Hb].
  unfold cl_inv.
  split; [unfold s'; st_simpl; exact Ht|]. split; [unfold s'; st_simpl; exact Hc|].
  split; [unfold s'; st_simpl; exact Hbl|].
  split; [unfold s', BinList.sum in *; st_simpl;
          rewrite acc_add_at by (unfold length in Hw; lia); lra|].
  split.
  - intros j Hj. rewrite Hb. unfold s' in Hj. st_simpl.
    destruct (Z.eqb_spec j (offset_ s + i)); [lia|].
    rewrite Hz by exact Hj. lra.
  - unfold s', length in *. st_simpl. rewrite size_add_at.
    split; [right; lia|]. split; [exact Hlb|]. exact Hcol.
Qed.

Ltac cl_bins B1 B2 :=
  intros j Hj; rewrite B2; try rewrite B1 by lia;
  repeat match goal with
         | |- context [(?a =? ?b)%Z] => destruct (Z.eqb_spec a b)
         end; try lia; lra.

(** X13: CollapsingLowestDenseStore::add(key, weight) keeps the store
    invariant (counters sum to count_, nothing outside [min_key_, max_key_],
    at most bin_limit_ counters), adds the weight to count_, sets max_key_ to
    max(key, max_key_), adds the weight to the key's counter and leaves every
    other counter above the new min_key_ unchanged; while the store is not
    collapsed, min_key_ becomes min(key, min_key_).  The key, the keys held
    and bin_limit_ and chunk_size_ are at most 2^51 in absolute value: then
    every Index expression of get_index, extend_range, adjust,
    get_new_length, center_bins and shift_bins (offset_ lies within 2^52 of
    the keys by the invariant) stays below 2^54 in absolute value, so none
    overflows int64, and the key span is at most
    2^52 + 1, so the double quotient in get_new_length is exact. *)
Theorem collapsing_lowest_add (s : Store) (k : Z) (w : R) :
  cl_inv s -> (bin_limit_ s <= 2 ^ 51)%Z -> (chunk_size_ s <= 2 ^ 51)%Z ->
  (min_key_ s <= max_key_ s ->
     - 2 ^ 51 <= min_key_ s /\ max_key_ s <= 2 ^ 51)%Z ->
  (- 2 ^ 51 <= k <= 2 ^ 51)%Z ->
  exists s', store_add s k w = Ok s' /\ cl_inv s' /\ count_ s' = count_ s + w /\
    max_key_ s' = Z.max k (max_key_ s) /\
    (forall j, (min_key_ s' < j)%Z ->
       bin_at s' j = bin_at s j + if (j =? k)%Z then w else 0) /\
    (is_collapsed_ s' = false -> min_key_ s' = Z.min k (min_key_ s)).
Proof.
  intros Hi _ _ _ Hk0.
  assert (Hk : (int64_min <= k <= int64_max)%Z) by (unfold int64_min, int64_max; lia).
  pose proof Hi as (Ht & Hch & Hbl & Hsum & Hz & Hw & Hlb & Hcol).
  unfold store_add, get_index. rewrite Ht.
  destruct (Z.ltb_spec k (min_key_ s)) as [Hlt|Hge].
  - destruct (is_collapsed_ s) eqn:Hc.
    + destruct (Hcol eq_refl) as (Ho & HL).
      assert (Hw' : (min_key_ s <= max_key_ s)%Z).
      { destruct Hw as [(Hb & _)|Hw]; [|lia]. unfold length in HL. rewrite Hb in HL.
        cbn in HL. lia. }
      cbn [bind]. destruct (cl_add_at s 0 w Hi ltac:(lia)) as (I' & B').
      eexists. split; [reflexivity|]. split; [exact I'|].
      split; [st_simpl; reflexivity|]. split; [st_simpl; lia|]. split.
      * cbn [min_key_ set_count set_bins]. cl_bins B' B'.
      * cbn [is_collapsed_ set_count set_bins]. rewrite Hc. discriminate.
    + destruct Hw as [(Hb & Hmn & Hmx)|Hw].
      * destruct (cl_extend_empty s k Hi Hb Hk) as (s1 & E & I1 & C1 & Mn1 & Mx1 & F1 & B1).
        rewrite E. cbn [bind]. rewrite F1. cbn [bind].
        destruct (cl_add_at s1 (k - offset_ s1) w I1 ltac:(lia)) as (I' & B').
        eexists. split; [reflexivity|]. split; [exact I'|].
        split; [st_simpl; rewrite C1; reflexivity|]. split; [st_simpl; lia|]. split.
        -- cbn [min_key_ set_count set_bins]. cl_bins B1 B'.
        -- intros _. st_simpl. lia.
      * destruct (cl_extend_left s k Hi Hw Hc Hlt)
          as (s1 & E & I1 & C1 & M1 & B1 & F1 & T1 & MM1).
        rewrite E. cbn [bind]. destruct (is_collapsed_ s1) eqn:Hc1; cbn [bind].
        -- pose proof I1 as (_ & _ & _ & _ & _ & _ & _ & Hcol1).
           destruct (Hcol1 Hc1) as (Ho1 & _). specialize (T1 eq_refl).
           destruct (cl_add_at s1 0 w I1 ltac:(lia)) as (I' & B').
           eexists. split; [reflexivity|]. split; [exact I'|].
           split; [st_simpl; rewrite C1; reflexivity|]. split; [st_simpl; lia|]. split.
           ++ cbn [min_key_ set_count set_bins]. cl_bins B1 B'.
           ++ cbn [is_collapsed_ set_count set_bins]. rewrite Hc1. discriminate.
        -- specialize (F1 eq_refl).
           destruct (cl_add_at s1 (k - offset_ s1) w I1 ltac:(lia)) as (I' & B').
           eexists. split; [reflexivity|]. split; [exact I'|].
           split; [st_simpl; rewrite C1; reflexivity|]. split; [st_simpl; lia|]. split.
           ++ cbn [min_key_ set_count set_bins]. cl_bins B1 B'.
           ++ intros _. st_simpl. lia.
  - destruct (Z.gtb_spec k (max_key_ s)) as [Hgt|Hle].
    + destruct Hw as [(Hb & Hmn & Hmx)|Hw].
      * destruct (cl_extend_empty s k Hi Hb Hk) as (s1 & E & I1 & C1 & Mn1 & Mx1 & F1 & B1).
        rewrite E. cbn [bind].
        destruct (cl_add_at s1 (k - offset_ s1) w I1 ltac:(lia)) as (I' & B').
        eexists. split; [reflexivity|]. split; [exact I'|].
        split; [st_simpl; rewrite C1; reflexivity|]. split; [st_simpl; lia|]. split.
        -- cbn [min_key_ set_count set_bins]. cl_bins B1 B'.
        -- intros _. st_simpl. lia.
      * destruct (cl_extend_right s k Hi Hw Hgt) as (s1 & E & I1 & C1 & M1 & B1 & F1 & MM1).
        rewrite E. cbn [bind].
        destruct (cl_add_at s1 (k - offset_ s1) w I1 ltac:(lia)) as (I' & B').
        eexists. split; [reflexivity|]. split; [exact I'|].
        split; [st_simpl; rewrite C1; reflexivity|]. split; [st_simpl; lia|]. split.
        -- cbn [min_key_ set_count set_bins]. cl_bins B1 B'.
        -- intros H. st_simpl. rewrite F1 by exact H. lia.
    + cbn [bind].
      destruct (cl_add_at s (k - offset_ s) w Hi ltac:(lia)) as (I' & B').
      eexists. split; [reflexivity|]. split; [exact I'|].
      split; [st_simpl; reflexivity|]. split; [st_simpl; lia|]. split.
      * cbn [min_key_ set_count set_bins]. cl_bins B' B'.
      * intros _. st_simpl. lia.
Qed.

Lemma new_CL_inv (bl cs : Z) :
  (0 < bl)%Z -> (0 < cs)%Z -> cl_inv (new_CollapsingLowestDenseStore bl cs).
Proof.
  intros Hb Hc. unfold cl_inv, new_CollapsingLowestDenseStore, mk_store. cbn.
  repeat split; try lia.
  - intros k _. unfold bin_at. cbn. unfold BinList.get.
    destruct (0 <=? k - 0)%Z; [destruct (Z.to_nat (k - 0))|]; reflexivity.
  - left. repeat split.
Qed.

Lemma collapsing_lowest_add_witness :
  cl_inv (new_CollapsingLowestDenseStore 2 kChunkSize) /\
  (bin_limit_ (new_CollapsingLowestDenseStore 2 kChunkSize) <= 2 ^ 51)%Z /\
  (chunk_size_ (new_CollapsingLowestDenseStore 2 kChunkSize) <= 2 ^ 51)%Z /\
  (min_key_ (new_CollapsingLowestDenseStore 2 kChunkSize) <=
     max_key_ (new_CollapsingLowestDenseStore 2 kChunkSize) ->
   - 2 ^ 51 <= min_key_ (new_CollapsingLowestDenseStore 2 kChunkSize) /\
   max_key_ (new_CollapsingLowestDenseStore 2 kChunkSize) <= 2 ^ 51)%Z /\
  (- 2 ^ 51 <= 5 <= 2 ^ 51)%Z /\
  exists s', store_add (new_CollapsingLowestDenseStore 2 kChunkSize) 5 1 = Ok s' /\
    count_ s' = 1 /\ (max_key_ s' = 5)%Z.
Proof.
  assert (I : cl_inv (new_CollapsingLowestDenseStore 2 kChunkSize))
    by (apply new_CL_inv; unfold kChunkSize; lia).
  assert (B1 : (bin_limit_ (new_CollapsingLowestDenseStore 2 kChunkSize) <= 2 ^ 51)%Z)
    by (cbn; lia).
  assert (B2 : (chunk_size_ (new_CollapsingLowestDenseStore 2 kChunkSize) <= 2 ^ 51)%Z)
    by (cbn; unfold kChunkSize; lia).
  assert (B3 : (min_key_ (new_CollapsingLowestDenseStore 2 kChunkSize) <=
                  max_key_ (new_CollapsingLowestDenseStore 2 kChunkSize) ->
                - 2 ^ 51 <= min_key_ (new_CollapsingLowestDenseStore 2 kChunkSize) /\
                max_key_ (new_CollapsingLowestDenseStore 2 kChunkSize) <= 2 ^ 51)%Z)
    by (cbn; unfold int64_min, int64_max; lia).
  assert (B : (- 2 ^ 51 <= 5 <= 2 ^ 51)%Z) by lia.
  split; [exact I|]. split; [exact B1|]. split; [exact B2|]. split; [exact B3|].
  split; [exact B|].
  destruct (collapsing_lowest_add _ 5 1 I B1 B2 B3 B) as (s' & E & _ & Hc & Hm & _).
  exists s'. split; [exact E|]. rewrite Hc, Hm. split; [cbn; lra|].
  unfold int64_min. cbn. reflexivity.
Defined.

Lemma make_mapping_half (k : mapping_kind) :
  exists m, make_mapping k (1 / 2) 0 = Ok m.
Proof.
  unfold make_mapping. destruct (Rle_dec (1 / 2) 0); [lra|].
  destruct (Rle_dec 1 (1 / 2)); [lra|]. eexists. reflexivity.
Qed.

Lemma DDSketch_half : exists sk, DDSketch (1 / 2) = Ok sk.
Proof.
  unfold DDSketch. destruct (make_mapping_half LogarithmicMapping) as (m & ->).
  eexists. reflexivity.
Qed.

Lemma example_store_inv :
  dense_inv {| store_type := DenseStore; count_ := 1; min_key_ := 5; max_key_ := 5;
               chunk_size_ := kChunkSize; offset_ := 4; bins_ := [0; 1];
               bin_limit_ := 0; is_collapsed_ := false |}.
Proof.
  unfold dense_inv, bin_at, length. cbn [store_type count_ min_key_ max_key_ chunk_size_
    offset_ bins_]. split; [reflexivity|]. split; [unfold kChunkSize; lia|].
  split; [unfold BinList.sum, BinList.accumulate; cbn; lra|]. split.
  - intros k Hk. destruct (Z.eq_dec k 4) as [->|Hne].
    + reflexivity.
    + apply get_out. cbn. lia.
  - right. cbn. lia.
Qed.

(** X1: On a dense store that keeps its invariant (bins summing to count_,
    zero outside [min_key_, max_key_], which lie inside the bin window),
    extend_range never fails, keeps the invariant, leaves every key's
    counter and count_ unchanged, and widens [min_key_, max_key_] to
    include both keys. *)
Theorem extend_range_keeps_counters (s : Store) (k1 k2 : Z) :
  dense_inv s ->
  exists s', extend_range s k1 k2 = Ok s' /\ dense_inv s' /\
    (forall k, bin_at s' k = bin_at s k) /\ count_ s' = count_ s /\
    min_key_ s' = Z.min k1 (Z.min k2 (min_key_ s)) /\
    max_key_ s' = Z.max k1 (Z.max k2 (max_key_ s)) /\
    chunk_size_ s' = chunk_size_ s.
Proof. intros H. exact (extend_range_dense s k1 k2 H). Qed.

Lemma extend_range_keeps_counters_witness :
  dense_inv (new_DenseStore kChunkSize) /\
  exists s', extend_range (new_DenseStore kChunkSize) 3 7 = Ok s' /\
    min_key_ s' = 3%Z /\ max_key_ s' = 7%Z.
Proof.
  split; [exact new_DenseStore_inv|].
  destruct (extend_range_keeps_counters (new_DenseStore kChunkSize) 3 7 new_DenseStore_inv)
    as (s' & E & _ & _ & _ & Hmn & Hmx & _).
  exists s'. split; [exact E|]. rewrite Hmn, Hmx. cbn. unfold int64_max, int64_min. lia.
Defined.

(** X2: DenseStore::add(key, weight) on a store keeping the dense invariant
    never fails, keeps the invariant, adds weight to the counter of key and
    to count_, leaves every other key's counter unchanged, and widens
    [min_key_, max_key_] to include key. *)
Theorem dense_store_add (s : Store) (k : Z) (w : R) :
  dense_inv s ->
  exists s', store_add s k w = Ok s' /\ dense_inv s' /\
    bin_at s' k = bin_at s k + w /\ (forall j, j <> k -> bin_at s' j = bin_at s j) /\
    count_ s' = count_ s + w /\
    min_key_ s' = Z.min k (min_key_ s) /\ max_key_ s' = Z.max k (max_key_ s).
Proof. intros H. exact (dense_store_add_ok s k w H). Qed.

Lemma dense_store_add_witness :
  dense_inv (new_DenseStore kChunkSize) /\
  exists s', store_add (new_DenseStore kChunkSize) 5 2 = Ok s' /\
    bin_at s' 5 = 2 /\ count_ s' = 2.
Proof.
  split; [exact new_DenseStore_inv|].
  destruct (dense_store_add (new_DenseStore kChunkSize) 5 2 new_DenseStore_inv)
    as (s' & E & _ & Hb & _ & Hc & _).
  exists s'. split; [exact E|]. rewrite Hb, Hc.
  pose proof (dense_zero_count _ new_DenseStore_inv new_DenseStore_nonneg
                eq_refl 5) as Z0.
  rewrite Z0. cbn. lra.
Defined.



Lemma key_at_rank_in_key_range_witness :
  let s := {| store_type := DenseStore; count_ := 1; min_key_ := 5; max_key_ := 5;
              chunk_size_ := kChunkSize; offset_ := 4; bins_ := [0; 1];
              bin_limit_ := 0; is_collapsed_ := false |} in
  count_ s <> 0 /\ (5 <= key_at_rank s 0 true <= 5)%Z.
Proof.
  intros s. split; [cbn; lra|].
  apply (key_at_rank_in_key_range s 0 true example_store_inv).
  - intros k. unfold bin_at, s. cbn [bins_ offset_].
    destruct (Z.eq_dec k 5) as [->|Hne]; [unfold BinList.get; simpl; lra|].
    destruct (Z.eq_dec k 4) as [->|Hne']; [unfold BinList.get; simpl; lra|].
    rewrite get_out by (cbn; lia). lra.
  - cbn. lra.
  - lra.
Defined.

Lemma half_min_possible (sk : BaseDDSketch) :
  DDSketch (1 / 2) = Ok sk -> min_possible (mapping_ sk) < 5.
Proof.
  intros E. destruct (make_mapping_ok _ _ _ _ (DDSketch_mapping _ _ E)) as (_ & Em).
  rewrite Em. cbn [min_possible].
  replace (1 + 2 * (1 / 2) / (1 - 1 / 2)) with 3 by field.
  unfold dbl_min. pose proof (pow2_le (-1022) (-2) ltac:(lia)) as H1.
  replace (powerRZ 2 (-2)) with (/ 4) in H1 by (simpl; field). lra.
Qed.

Lemma mergeable_refl (sk : BaseDDSketch) : mergeable sk sk = true.
Proof. unfold mergeable, Reqb. destruct (Req_dec_T _ _) as [|n]; [reflexivity|]. now elim n. Qed.

(** X7: BaseDDSketch::add(val, weight) with weight > 0 on a sketch whose two
    dense stores keep the dense invariant never fails and keeps that
    invariant. It adds weight to count and val * weight to sum, keeps the
    mapping, and puts the weight in exactly one place: the positive store
    at key(val) if val > min_possible, the negative store at key(-val) if
    val < -min_possible, and zero_count otherwise. *)
Theorem dense_sketch_add (sk : BaseDDSketch) (v w : R) :
  dense_sketch_inv sk -> 0 < w ->
  let m := mapping_ sk in
  exists sk', sketch_add sk v w = Ok sk' /\ dense_sketch_inv sk' /\
    mapping_ sk' = m /\ sk_count_ sk' = sk_count_ sk + w /\ sum_ sk' = sum_ sk + v * w /\
    (min_possible m < v ->
       bin_at (store_ sk') (key m v) = bin_at (store_ sk) (key m v) + w /\
       (forall j, j <> key m v -> bin_at (store_ sk') j = bin_at (store_ sk) j) /\
       negative_store_ sk' = negative_store_ sk /\ zero_count_ sk' = zero_count_ sk) /\
    (v <= min_possible m -> v < - min_possible m ->
       bin_at (negative_store_ sk') (key m (- v)) =
         bin_at (negative_store_ sk) (key m (- v)) + w /\
       (forall j, j <> key m (- v) ->
          bin_at (negative_store_ sk') j = bin_at (negative_store_ sk) j) /\
       store_ sk' = store_ sk /\ zero_count_ sk' = zero_count_ sk) /\
    (v <= min_possible m -> - min_possible m <= v ->
       store_ sk' = store_ sk /\ negative_store_ sk' = negative_store_ sk /\
       zero_count_ sk' = zero_count_ sk + w).
Proof. intros H1 H2. exact (dense_sketch_add_ok sk v w H1 H2). Qed.

Lemma dense_sketch_add_witness :
  match DDSketch (1 / 2) with
  | Ok sk => dense_sketch_inv sk /\ 0 < 1 /\
             exists sk', sketch_add sk 5 1 = Ok sk' /\ sk_count_ sk' = 1
  | Err _ => False
  end.
Proof.
  destruct DDSketch_half as (sk & E). rewrite E.
  destruct (DDSketch_Ok _ _ E) as (Hi & H0 & _).
  split; [exact Hi|]. split; [lra|].
  destruct (dense_sketch_add sk 5 1 Hi ltac:(lra)) as (sk' & Ea & _ & _ & Hc & _).
  exists sk'. split; [exact Ea|]. rewrite Hc, H0. lra.
Defined.

Lemma dense_sketch_merge_ok_witness :
  match DDSketch (1 / 2) with
  | Ok sk =>
      match sketch_add sk 5 1 with
      | Ok b => dense_sketch_inv b /\ mergeable b b = true /\
                exists sk', sketch_merge b b = Ok sk' /\ sk_count_ sk' = 2 /\
                  bin_at (store_ sk') (key (mapping_ sk) 5) = 2
      | Err _ => False
      end
  | Err _ => False
  end.
Proof.
  destruct DDSketch_half as (sk & E). rewrite E.
  destruct (DDSketch_Ok _ _ E) as (Hi & H0 & _ & Hz & _).
  assert (Hmp : min_possible (mapping_ sk) < 5) by exact (half_min_possible sk E).
  destruct (dense_sketch_add_ok sk 5 1 Hi ltac:(lra))
    as (b & Ea & Hib & Hmb & Hcb & _ & Hpos & _ & _).
  rewrite Ea. destruct (Hpos Hmp) as (Hb5 & _).
  split; [exact Hib|]. split; [apply mergeable_refl|].
  destruct (dense_sketch_merge_ok b b Hib Hib (mergeable_refl b))
    as (sk' & Em & _ & _ & Hst & _ & _ & Hc).
  exists sk'. split; [exact Em|]. split.
  - rewrite Hc, Hcb, H0. lra.
  - rewrite Hst, Hb5, Hz. lra.
Defined.

Lemma quantile_below_unit_weight_witness :
  match DDSketch (1 / 2) with
  | Ok sk => min_possible (mapping_ sk) < 5 /\ 0 < 1 / 2 < 1 /\
             exists sk', sketch_add sk 5 (1 / 2) = Ok sk' /\
               get_quantile_value sk' 1 = Finite (- value (mapping_ sk) int64_min) /\
               - value (mapping_ sk) int64_min <= 0 < 5
  | Err _ => False
  end.
Proof.
  destruct DDSketch_half as (sk & E). rewrite E.
  destruct (DDSketch_Ok _ _ E) as (Hi & _).
  pose proof (half_min_possible sk E) as Hm.
  split; [exact Hm|]. split; [lra|].
  destruct (dense_sketch_add_ok sk 5 (1 / 2) Hi ltac:(lra)) as (sk' & Ea & _).
  exists sk'. split; [exact Ea|].
  exact (quantile_below_unit_weight (1 / 2) 5 (1 / 2) sk sk' E Hm ltac:(lra) Ea).
Defined.

Lemma log_value_ratio_witness :
  match make_mapping LogarithmicMapping (1 / 2) 0 with
  | Ok m => value m (3 + 1) = gamma m * value m 3
  | Err _ => False
  end.
Proof.
  destruct (make_mapping_half LogarithmicMapping) as (m & E). rewrite E.
  exact (log_value_ratio (1 / 2) 0 m 3 E).
Defined.

Lemma log_key_value_round_trip_witness :
  match make_mapping LogarithmicMapping (1 / 2) (IZR 0) with
  | Ok m => key m (value m 7) = 7%Z
  | Err _ => False
  end.
Proof.
  destruct (make_mapping_half LogarithmicMapping) as (m & E). rewrite E.
  exact (log_key_value_round_trip (1 / 2) 0 m 7 E).
Defined.

Lemma key_monotone_witness :
  match make_mapping CubicallyInterpolatedMapping (1 / 2) 0 with
  | Ok m => 0 < 2 /\ 2 <= 3 /\ (key m 2 <= key m 3)%Z
  | Err _ => False
  end.
Proof.
  destruct (make_mapping_half CubicallyInterpolatedMapping) as (m & E). rewrite E.
  split; [lra|]. split; [lra|].
  exact (key_monotone CubicallyInterpolatedMapping (1 / 2) 0 m 2 3 E ltac:(lra) ltac:(lra)).
Defined.

(** The C8 witness takes the copy path: an empty DDSketch(1/2) merges a
    sketch of the same parameters holding add(5). *)
Lemma merge_frame_and_copy_witness :
  match DDSketch (1 / 2) with
  | Ok a =>
      match sketch_add a 5 1 with
      | Ok b =>
          mergeable a b = true /\
          sk_count_ b <> 0 /\ sk_count_ a = 0 /\
          sketch_merge a b = Ok (sketch_copy a b) /\
          mapping_ (sketch_copy a b) = mapping_ a /\
          (forall q, get_quantile_value (sketch_copy a b) q = get_quantile_value b q)
      | Err _ => False
      end
  | Err _ => False
  end.
Proof.
  destruct DDSketch_half as (a & E). rewrite E.
  destruct (DDSketch_Ok _ _ E) as (Hi & H0 & _).
  destruct (dense_sketch_add_ok a 5 1 Hi ltac:(lra)) as (b & Ea & _ & Hmb & Hcb & _).
  rewrite Ea.
  assert (Hm : mergeable a b = true).
  { unfold mergeable. rewrite Hmb. apply mergeable_refl. }
  assert (Hb : sk_count_ b <> 0) by (rewrite Hcb, H0; lra).
  destruct (merge_frame_and_copy a b Hm) as (_ & _ & Hcopy).
  destruct (Hcopy Hb H0) as (Hme & Hmap & Hq).
  split; [exact Hm|]. split; [exact Hb|]. split; [exact H0|].
  split; [exact Hme|]. split; [exact Hmap|].
  intros q. apply (Hq LogarithmicMapping (1 / 2) (1 / 2) 0).
  - exact (DDSketch_mapping _ _ E).
  - rewrite Hmb. exact (DDSketch_mapping _ _ E).
Defined.
